(** * A periodic task scheduler (src/scheduler.ts), embedded and verified

    The class [Scheduler] keeps a [Map] from task names to task objects and
    arms one [setInterval] timer per task.  The embedding below follows the
    TypeScript source method by method:

    - JavaScript numbers used as intervals are IEEE 754 binary64 values,
      given here by [spec_float] (the specification floats of the standard
      library), so that [NaN], the infinities and the signed zeros exist;
    - the registry is an insertion-ordered association list with the
      behaviour of a JavaScript [Map]; task objects live in a heap and the
      registry holds references, because the timer callback and [executeNow]
      keep a reference to the object across an [await];
    - every method is a computation in a state-and-exception monad over the
      scheduler state; [console] output and timer calls are recorded in a
      trace;
    - an asynchronous method is cut at its [await] in a [_begin] and a
      [_resume] half; the method without interleaving is their composition;
    - an action may call the scheduler while it runs; [schedule] calls the
      action in the middle of its body and is therefore also given in two
      halves, with the calls of the action in between;
    - a task name is the sequence of bytes of its UTF-8 encoding, and [trim]
      strips the white space of Unicode;
    - the result of [getAllTasks] is a plain object: own properties and a
      prototype that the key [__proto__] replaces. *)

From Stdlib Require Import ZArith NArith String Ascii Bool.
From Stdlib Require Import Floats.SpecFloat.
From stdpp Require Import base option list gmap strings.

Local Open Scope Z_scope.

(** ** JavaScript numbers *)

Module Num.

Abbreviation number := spec_float.

Definition prec : Z := 53.
Definition emax : Z := 1024.

(** The number denoted by an integer literal of the source. *)
Definition lit (z : Z) : number := binary_normalize prec emax z 0 false.

Definition mul : number -> number -> number := SFmul prec emax.

Definition NaN : number := S754_nan.
Definition Infinity : number := S754_infinity false.
Definition zero : number := S754_zero false.

(** [!x] on a number: [NaN], [+0] and [-0] are the falsy numbers. *)
Definition falsy (x : number) : bool :=
  match x with
  | S754_zero _ | S754_nan => true
  | _ => false
  end.

(** [x <= y] and [x < y] of JavaScript, false as soon as one side is [NaN]. *)
Definition le (x y : number) : bool := SFleb x y.
Definition lt (x y : number) : bool := SFltb x y.

(** What [Number.isFinite] computes. *)
Definition is_finite (x : number) : bool :=
  match x with
  | S754_zero _ | S754_finite _ _ _ => true
  | _ => false
  end.

(** A positive finite number: finite and above zero. *)
Definition positive_finite (x : number) : bool := is_finite x && lt zero x.

(** A value that really is a binary64 number. *)
Definition well_formed (x : number) : bool := valid_binary prec emax x.

End Num.

Import Num.

(** ** Types of the source *)

(** [type IntervalUnit = 'second' | 'minute' | 'hour' | 'day' | 'week'] *)
Inductive IntervalUnit := second | minute | hour | day | week.

(** The argument [interval: IntervalUnit | number]. *)
Inductive IntervalArg :=
| Unit (u : IntervalUnit)
| Millis (x : number).

(** [private readonly intervals: Record<IntervalUnit, number>], with the
    products of the source written out. *)
Definition intervals (u : IntervalUnit) : number :=
  match u with
  | second => lit 1000
  | minute => mul (lit 60) (lit 1000)
  | hour => mul (mul (lit 60) (lit 60)) (lit 1000)
  | day => mul (mul (mul (lit 24) (lit 60)) (lit 60)) (lit 1000)
  | week => mul (mul (mul (mul (lit 7) (lit 24)) (lit 60)) (lit 60)) (lit 1000)
  end.

(** [typeof interval === 'string' ? this.intervals[interval] : interval] *)
Definition resolve (interval : IntervalArg) : number :=
  match interval with
  | Unit u => intervals u
  | Millis x => x
  end.

(** [!intervalMs || intervalMs <= 0] *)
Definition interval_rejected (intervalMs : number) : bool :=
  falsy intervalMs || le intervalMs zero.

(** ** Strings *)

Local Open Scope string_scope.
Local Open Scope list_scope.

(** A JavaScript string is a sequence of UTF-16 code units.  The scheduler
    only compares names and trims them, so a name is kept here as the bytes of
    its (generalised) UTF-8 encoding, which is what a string literal of this
    file holds: two names are equal exactly when their encodings are, and a
    white-space character is a run of one, two or three bytes that starts at a
    byte which is never inside another character.

    [String.prototype.trim] strips the WhiteSpace and LineTerminator code
    points of ECMAScript: U+0009 to U+000D, U+0020, U+00A0, U+1680, U+2000 to
    U+200A, U+2028, U+2029, U+202F, U+205F, U+3000 and U+FEFF. *)

(** The white space of one byte: U+0009 to U+000D and U+0020. *)
Definition is_space (c : ascii) : bool :=
  let n := N_of_ascii c in
  ((9 <=? n) && (n <=? 13) || (n =? 32))%N.

(** The white space of two bytes: U+00A0 is C2 A0. *)
Definition is_space2 (c1 c2 : ascii) : bool :=
  ((N_of_ascii c1 =? 194) && (N_of_ascii c2 =? 160))%N.

(** The white space of three bytes: U+1680 is E1 9A 80; U+2000 to U+200A are
    E2 80 80 to E2 80 8A; U+2028, U+2029 and U+202F are E2 80 A8, E2 80 A9 and
    E2 80 AF; U+205F is E2 81 9F; U+3000 is E3 80 80; U+FEFF is EF BB BF. *)
Definition is_space3 (c1 c2 c3 : ascii) : bool :=
  let a := N_of_ascii c1 in
  let b := N_of_ascii c2 in
  let c := N_of_ascii c3 in
  ((a =? 225) && (b =? 154) && (c =? 128)
   || (a =? 226) && (b =? 128)
      && ((128 <=? c) && (c <=? 138) || (c =? 168) || (c =? 169) || (c =? 175))
   || (a =? 226) && (b =? 129) && (c =? 159)
   || (a =? 227) && (b =? 128) && (c =? 128)
   || (a =? 239) && (b =? 187) && (c =? 191))%N.

(** [trimStart]: white-space characters are dropped from the front. *)
Fixpoint trimStart (s : string) : string :=
  match s with
  | EmptyString => EmptyString
  | String c1 r1 =>
      if is_space c1 then trimStart r1 else
      match r1 with
      | EmptyString => s
      | String c2 r2 =>
          if is_space2 c1 c2 then trimStart r2 else
          match r2 with
          | EmptyString => s
          | String c3 r3 => if is_space3 c1 c2 c3 then trimStart r3 else s
          end
      end
  end.

(** What is left of a white-space character and the trimmed rest [t] after
    it: nothing when the rest is empty, and [kept] otherwise. *)
Definition unless_last (t kept : string) : string :=
  match t with
  | EmptyString => EmptyString
  | _ => kept
  end.

(** [trimEnd]: a white-space character is dropped when only white space
    follows it; every other byte is kept. *)
Fixpoint trimEnd (s : string) : string :=
  match s with
  | EmptyString => EmptyString
  | String c1 r1 =>
      let kept := String c1 (trimEnd r1) in
      if is_space c1 then unless_last (trimEnd r1) kept else
      match r1 with
      | EmptyString => kept
      | String c2 r2 =>
          if is_space2 c1 c2 then unless_last (trimEnd r2) kept else
          match r2 with
          | EmptyString => kept
          | String c3 r3 =>
              if is_space3 c1 c2 c3 then unless_last (trimEnd r3) kept else kept
          end
      end
  end.

Definition trim (s : string) : string := trimEnd (trimStart s).

(** The UTF-8 encoding of a code point below U+10000, and the white-space
    code points, to check the three tests above against. *)
Definition utf8 (cp : N) : string :=
  (if cp <? 128 then String (ascii_of_N cp) EmptyString
   else if cp <? 2048 then
     String (ascii_of_N (192 + cp / 64))
       (String (ascii_of_N (128 + cp mod 64)) EmptyString)
   else
     String (ascii_of_N (224 + cp / 4096))
       (String (ascii_of_N (128 + (cp / 64) mod 64))
          (String (ascii_of_N (128 + cp mod 64)) EmptyString)))%N.

Definition white_space_code_points : list N :=
  [9; 10; 11; 12; 13; 32; 160; 5760;
   8192; 8193; 8194; 8195; 8196; 8197; 8198; 8199; 8200; 8201; 8202;
   8232; 8233; 8239; 8287; 12288; 65279]%N.

(** [!taskName?.trim()]: [None] stands for [null] and [undefined]; the empty
    string is the only falsy string. *)
Definition name_missing (taskName : option string) : bool :=
  match taskName with
  | None => true
  | Some n => bool_decide (trim n = "")
  end.

(** ** Actions *)

(** [type TaskFunction = () => void | Promise<void>]: a closure, known by its
    identity.  What one invocation of it does is decided outside the
    scheduler and is an input of every step that invokes it. *)
Definition TaskFunction := nat.

Inductive Settlement := Resolves | Rejects.

Inductive Outcome :=
| ReturnsVoid
| ThrowsSync
| ReturnsPromise (st : Settlement).

(** The argument [func], for which the source tests [typeof func]. *)
Inductive FuncArg :=
| Function (f : TaskFunction)
| NotAFunction.

(** [interface ScheduleOptions] *)
Record ScheduleOptions := {
  runImmediately : bool;
  opt_maxExecutions : option Z
}.

Definition no_options : ScheduleOptions :=
  {| runImmediately := false; opt_maxExecutions := None |}.

(** ** Task objects, the registry and the scheduler state *)

Abbreviation loc := nat.

(** The object stored in [tasks].  [executionCount] only ever holds
    0, 1, 2, ... and is a natural number here; [maxExecutions] is an optional
    integer ([None] is [undefined]). *)
Record TaskObj := {
  timerId : nat;
  func : TaskFunction;
  interval : number;
  startTime : Z;
  executionCount : N;
  maxExecutions : option Z
}.

(** [interface TaskInfo] *)
Record TaskInfo := {
  name : string;
  info_interval : number;
  info_startTime : Z;
  info_executionCount : N;
  isActive : bool
}.

(** Errors that are thrown in the model. *)
Inductive exn :=
| TaskNameRequired                       (* Error('Task name is required') *)
| FunctionRequired                       (* Error('Function is required') *)
| InvalidInterval (i : IntervalArg)      (* Error(`Invalid interval: ${interval}`) *)
| ActionError (f : TaskFunction)         (* whatever the action threw or rejected with *)
| TypeError.                             (* a property read through a reference to nothing *)

(** The names of the units as the source writes them. *)
Definition unit_name (u : IntervalUnit) : string :=
  match u with
  | second => "second"
  | minute => "minute"
  | hour => "hour"
  | day => "day"
  | week => "week"
  end.

(** The message of the [Error] that [schedule] constructs.  The template
    [`Invalid interval: ${interval}`] prints the argument as it was given;
    [show] is how the host prints a number.  The other two errors are not
    made by this class. *)
Definition error_message (show : number -> string) (e : exn) : option string :=
  match e with
  | TaskNameRequired => Some "Task name is required"
  | FunctionRequired => Some "Function is required"
  | InvalidInterval (Unit u) => Some ("Invalid interval: " ++ unit_name u)%string
  | InvalidInterval (Millis x) => Some ("Invalid interval: " ++ show x)%string
  | ActionError _ | TypeError => None
  end.

Inductive message :=
| Scheduled (taskName : string) (intervalMs : number)
| Stopped (taskName : string)
| Destroyed.

Inductive event :=
| Invoked (f : TaskFunction)
| SetInterval (id : nat) (taskName : string) (ms : number)
| ClearInterval (id : nat)
| ConsoleLog (m : message)
| ConsoleError (e : exn).

(** A JavaScript [Map<string, _>] holding references: insertion ordered,
    one binding per key. *)
Module JsMap.

Abbreviation t := (list (string * loc)).

Fixpoint get (m : t) (k : string) : option loc :=
  match m with
  | [] => None
  | (k', v) :: m' => if decide (k' = k) then Some v else get m' k
  end.

(** [set] keeps the position of a key that is present and appends a new one. *)
Fixpoint set (m : t) (k : string) (v : loc) : t :=
  match m with
  | [] => [(k, v)]
  | (k', v') :: m' =>
      if decide (k' = k) then (k, v) :: m' else (k', v') :: set m' k v
  end.

Fixpoint delete (m : t) (k : string) : t :=
  match m with
  | [] => []
  | (k', v) :: m' =>
      if decide (k' = k) then delete m' k else (k', v) :: delete m' k
  end.

Definition has (m : t) (k : string) : bool := bool_decide (is_Some (get m k)).
Definition keys (m : t) : list string := m.*1.
Definition size (m : t) : nat := length m.

(** The number of bindings of one key. *)
Definition bindings (m : t) (k : string) : nat :=
  length (filter (λ p, p.1 = k) m).

End JsMap.

Record Scheduler := {
  tasks : JsMap.t;                        (* private tasks = new Map(...) *)
  heap : list TaskObj;                    (* the task objects, by reference *)
  timers : gmap nat (string * number);    (* armed timers: handle to the name the
                                             callback closes over, and the delay
                                             given to setInterval *)
  nextTimer : nat;                        (* the next handle of setInterval *)
  trace : list event
}.

(** [new Scheduler()] *)
Definition new_scheduler : Scheduler :=
  {| tasks := []; heap := []; timers := ∅; nextTimer := 0; trace := [] |}.

Definition with_tasks (f : JsMap.t -> JsMap.t) (s : Scheduler) : Scheduler :=
  {| tasks := f (tasks s); heap := heap s; timers := timers s;
     nextTimer := nextTimer s; trace := trace s |}.

Definition with_heap (f : list TaskObj -> list TaskObj) (s : Scheduler) : Scheduler :=
  {| tasks := tasks s; heap := f (heap s); timers := timers s;
     nextTimer := nextTimer s; trace := trace s |}.

Definition with_trace (f : list event -> list event) (s : Scheduler) : Scheduler :=
  {| tasks := tasks s; heap := heap s; timers := timers s;
     nextTimer := nextTimer s; trace := f (trace s) |}.

(** ** The monad of the methods: state and exceptions *)

Inductive Result (A : Type) :=
| Ok (a : A)
| Throw (e : exn).
Arguments Ok {A} a.
Arguments Throw {A} e.

Definition Js (A : Type) : Type := Scheduler -> Result A * Scheduler.

#[global] Instance Js_ret : MRet Js := λ A a s, (Ok a, s).

#[global] Instance Js_bind : MBind Js := λ A B k m s,
  match m s with
  | (Ok a, s') => k a s'
  | (Throw e, s') => (Throw e, s')
  end.

Definition throw {A} (e : exn) : Js A := λ s, (Throw e, s).

(** [try { body } catch (e) { handler e }] *)
Definition try_catch {A} (body : Js A) (handler : exn -> Js A) : Js A := λ s,
  match body s with
  | (Ok a, s') => (Ok a, s')
  | (Throw e, s') => handler e s'
  end.

Definition this : Js Scheduler := λ s, (Ok s, s).

Definition modify (f : Scheduler -> Scheduler) : Js unit := λ s, (Ok tt, f s).

Definition emit (e : event) : Js unit := modify (with_trace (λ t, t ++ [e])).

Definition console_log (m : message) : Js unit := emit (ConsoleLog m).
Definition console_error (e : exn) : Js unit := emit (ConsoleError e).

Fixpoint for_each {A} (l : list A) (body : A -> Js unit) : Js unit :=
  match l with
  | [] => mret tt
  | x :: l' => body x;; for_each l' body
  end.

(** *** Timers of the host *)

(** [setInterval(callback, ms)]: a fresh handle; the callback of this class
    is determined by the task name it closes over.  The call is recorded with
    the delay it was given.  When a timer fires is the host's matter and not
    part of this model: a host may run a timer at another period than the
    delay says (Node.js uses 1 ms for a delay that is [NaN], below 1 or above
    2^31 - 1). *)
Definition setInterval (taskName : string) (ms : number) : Js nat := λ s,
  let id := nextTimer s in
  (Ok id,
   {| tasks := tasks s; heap := heap s;
      timers := <[id := (taskName, ms)]> (timers s);
      nextTimer := S id;
      trace := trace s ++ [SetInterval id taskName ms] |}).

Definition clearInterval (id : nat) : Js unit := λ s,
  (Ok tt,
   {| tasks := tasks s; heap := heap s;
      timers := delete id (timers s);
      nextTimer := nextTimer s;
      trace := trace s ++ [ClearInterval id] |}).

(** *** Objects *)

(** An object literal: a new object, and the reference to it. *)
Definition alloc (o : TaskObj) : Js loc := λ s,
  (Ok (length (heap s)), with_heap (λ h, h ++ [o]) s).

(** Reading the fields of [task]. *)
Definition read (task : loc) : Js TaskObj := λ s,
  match heap s !! task with
  | Some o => (Ok o, s)
  | None => (Throw TypeError, s)
  end.

Definition incr (o : TaskObj) : TaskObj :=
  {| timerId := timerId o; func := func o; interval := interval o;
     startTime := startTime o;
     executionCount := N.succ (executionCount o);
     maxExecutions := maxExecutions o |}.

(** [task.executionCount++] *)
Definition incr_executionCount (task : loc) : Js unit :=
  o ← read task;
  modify (with_heap (λ h, <[task := incr o]> h)).

(** *** Invoking an action *)

(** [func()]: [None] when the call returned [undefined], [Some st] when it
    returned a promise that settles as [st].  What the action does is not
    part of the scheduler.  If it calls the scheduler while it runs, those
    calls are operations of their own that come right after this one; in
    [schedule] that is in the middle of the method, which is why [schedule]
    is also given in two halves below. *)
Definition call (f : TaskFunction) (out : Outcome) : Js (option Settlement) :=
  emit (Invoked f);;
  match out with
  | ReturnsVoid => mret None
  | ThrowsSync => throw (ActionError f)
  | ReturnsPromise st => mret (Some st)
  end.

(** [await result] *)
Definition await (f : TaskFunction) (st : Settlement) : Js unit :=
  match st with
  | Resolves => mret tt
  | Rejects => throw (ActionError f)
  end.

(** ** The methods of [class Scheduler] *)

(** *** [private async executeTask(func)]

    The body is one [try] around [func()] and [await result].  The part up to
    the [await] runs at the call; the part after it runs when the promise has
    settled.  A call that did not return a promise has nothing to wait for. *)
Definition executeTask_begin (f : TaskFunction) (out : Outcome)
  : Js (option Settlement) :=
  try_catch (call f out)
            (λ error, console_error error;; mret None).

Definition executeTask_resume (f : TaskFunction) (result : option Settlement)
  : Js unit :=
  match result with
  | None => mret tt
  | Some st => try_catch (await f st) (λ error, console_error error)
  end.


(** *** [stop(taskName)] *)
Definition stop (taskName : string) : Js bool :=
  s ← this;
  match JsMap.get (tasks s) taskName with
  | None => mret false
  | Some task =>
      o ← read task;
      clearInterval (timerId o);;
      modify (with_tasks (λ m, JsMap.delete m taskName));;
      console_log (Stopped taskName);;
      mret true
  end.

(** *** The callback given to [setInterval] in [schedule]

    An execution that is waiting at [await this.executeTask(task.func)]
    holds the reference [task] and the promise it waits for. *)
Record Pending := {
  p_task : loc;
  p_func : TaskFunction;
  p_result : option Settlement
}.

(** [task.maxExecutions && task.executionCount >= task.maxExecutions]:
    [undefined] and [0] are falsy. *)
Definition cap_reached (o : TaskObj) : bool :=
  match maxExecutions o with
  | None => false
  | Some k => negb (k =? 0)%Z && (k <=? Z.of_N (executionCount o))%Z
  end.

Definition callback_begin (taskName : string) (out : Outcome)
  : Js (option Pending) :=
  s ← this;
  match JsMap.get (tasks s) taskName with
  | None => mret None
  | Some task =>
      o ← read task;
      result ← executeTask_begin (func o) out;
      mret (Some {| p_task := task; p_func := func o; p_result := result |})
  end.

Definition callback_resume (taskName : string) (k : Pending) : Js unit :=
  executeTask_resume (p_func k) (p_result k);;
  incr_executionCount (p_task k);;
  o ← read (p_task k);
  if cap_reached o then stop taskName;; mret tt else mret tt.

(** One tick with nothing else running during the [await]. *)
Definition callback (taskName : string) (out : Outcome) : Js unit :=
  k ← callback_begin taskName out;
  match k with
  | None => mret tt
  | Some k => callback_resume taskName k
  end.

(** The host fires the timer [id]: only an armed timer fires, and it runs the
    callback it was armed with. *)
Definition fire (id : nat) (out : Outcome) (s : Scheduler)
  : option (Result unit * Scheduler) :=
  match timers s !! id with
  | Some (taskName, _) => Some (callback taskName out s)
  | None => None
  end.

(** *** [schedule(taskName, func, interval, options)]

    [now] is what [new Date()] reads and [out] what the action does if it is
    run immediately.  [executeTask] is not awaited there: its part after the
    [await] only reports a rejection and is [executeTask_resume].  Past the
    first test [taskName] is a string, so the branch for [None] is never
    taken.  The result [this] is left out. *)
Definition schedule (taskName : option string) (func : FuncArg)
    (interval : IntervalArg) (options : ScheduleOptions)
    (now : Z) (out : Outcome) : Js unit :=
  if name_missing taskName then throw TaskNameRequired else
  match taskName, func with
  | None, _ => throw TaskNameRequired
  | Some _, NotAFunction => throw FunctionRequired
  | Some taskName, Function f =>
      let intervalMs := resolve interval in
      if interval_rejected intervalMs then throw (InvalidInterval interval) else
      stop taskName;;
      (if runImmediately options
       then executeTask_begin f out;; mret tt
       else mret tt);;
      timerId ← setInterval taskName intervalMs;
      task ← alloc {| timerId := timerId;
                      func := f;
                      interval := intervalMs;
                      startTime := now;
                      executionCount := 0;
                      maxExecutions := opt_maxExecutions options |};
      modify (with_tasks (λ m, JsMap.set m taskName task));;
      console_log (Scheduled taskName intervalMs)
  end.

(** *** [schedule], cut at the call of the action

    With [runImmediately] the action is called in the middle of [schedule],
    after [this.stop(taskName)] and before [setInterval], and an action may
    itself call the scheduler.  [schedule_begin] is the call up to and
    including the action (lines 56 to 79), [schedule_finish] the rest (lines
    81 to 106); what the action calls comes in between.  A [Registration] is
    what the call holds once its arguments have passed the three checks. *)
Record Registration := {
  r_name : string;
  r_func : TaskFunction;
  r_interval : number;
  r_options : ScheduleOptions
}.

Definition validate (taskName : option string) (func : FuncArg)
    (interval : IntervalArg) (options : ScheduleOptions) : exn + Registration :=
  if name_missing taskName then inl TaskNameRequired else
  match taskName, func with
  | None, _ => inl TaskNameRequired
  | Some _, NotAFunction => inl FunctionRequired
  | Some taskName, Function f =>
      let intervalMs := resolve interval in
      if interval_rejected intervalMs then inl (InvalidInterval interval) else
      inr {| r_name := taskName; r_func := f; r_interval := intervalMs;
             r_options := options |}
  end.

Definition schedule_begin (taskName : option string) (func : FuncArg)
    (interval : IntervalArg) (options : ScheduleOptions) (out : Outcome)
  : Js Registration :=
  match validate taskName func interval options with
  | inl e => throw e
  | inr r =>
      stop (r_name r);;
      (if runImmediately (r_options r)
       then executeTask_begin (r_func r) out;; mret tt
       else mret tt);;
      mret r
  end.

Definition schedule_finish (r : Registration) (now : Z) : Js unit :=
  timerId ← setInterval (r_name r) (r_interval r);
  task ← alloc {| timerId := timerId;
                  func := r_func r;
                  interval := r_interval r;
                  startTime := now;
                  executionCount := 0;
                  maxExecutions := opt_maxExecutions (r_options r) |};
  modify (with_tasks (λ m, JsMap.set m (r_name r) task));;
  console_log (Scheduled (r_name r) (r_interval r)).

(** *** [async executeNow(taskName)]

    [inl b]: the promise is already resolved with [b]. *)
Definition executeNow_begin (taskName : string) (out : Outcome)
  : Js (bool + Pending) :=
  s ← this;
  match JsMap.get (tasks s) taskName with
  | None => mret (inl false)
  | Some task =>
      o ← read task;
      result ← executeTask_begin (func o) out;
      mret (inr {| p_task := task; p_func := func o; p_result := result |})
  end.

Definition executeNow_resume (k : Pending) : Js bool :=
  executeTask_resume (p_func k) (p_result k);;
  incr_executionCount (p_task k);;
  mret true.

Definition executeNow (taskName : string) (out : Outcome) : Js bool :=
  r ← executeNow_begin taskName out;
  match r with
  | inl b => mret b
  | inr k => executeNow_resume k
  end.

(** *** [stopAll()]

    The loop runs over the keys of the map while [stop] deletes the key it is
    visiting; a [Map] iterator then goes on with the keys that are left, which
    are the keys after it in the list taken at the start. *)
Definition stopAll : Js nat :=
  s ← this;
  let count := JsMap.size (tasks s) in
  for_each (JsMap.keys (tasks s)) (λ taskName, stop taskName;; mret tt);;
  mret count.

(** *** [getTask(taskName)] *)
Definition getTask (taskName : string) : Js (option TaskInfo) :=
  s ← this;
  match JsMap.get (tasks s) taskName with
  | None => mret None
  | Some task =>
      o ← read task;
      mret (Some {| name := taskName;
                    info_interval := interval o;
                    info_startTime := startTime o;
                    info_executionCount := executionCount o;
                    isActive := true |})
  end.

(** *** [getActiveTasks()] *)
Definition getActiveTasks : Js (list string) :=
  s ← this; mret (JsMap.keys (tasks s)).

(** *** [getAllTasks()]

    The result is a plain object, made by [{}] and filled by
    [result[taskName] = taskInfo] in the order of the keys of the map.  Such
    an assignment makes (or overwrites) an own property, except for the key
    [__proto__]: that one is the accessor of [Object.prototype], and
    assigning an object to it replaces the prototype of [result] and makes no
    own property.  [proto] is [None] as long as the prototype is
    [Object.prototype].  The order in which the own properties are
    enumerated is not modelled. *)
Definition proto_key : string := "__proto__".

Record TaskInfos := {
  own : gmap string TaskInfo;
  proto : option TaskInfo
}.

(** [{}] *)
Definition empty_object : TaskInfos := {| own := ∅; proto := None |}.

(** [result[taskName] = taskInfo] *)
Definition assign (result : TaskInfos) (taskName : string) (taskInfo : TaskInfo)
  : TaskInfos :=
  if bool_decide (taskName = proto_key)
  then {| own := own result; proto := Some taskInfo |}
  else {| own := <[taskName := taskInfo]> (own result); proto := proto result |}.

(** The property names of a [TaskInfo]. *)
Definition snapshot_keys : list string :=
  ["name"; "interval"; "startTime"; "executionCount"; "isActive"].

(** Reading [result[key]]: an own property; else, for the key [__proto__],
    the prototype itself, which the accessor of [Object.prototype] returns;
    else a field of the snapshot that is the prototype; else whatever
    [Object.prototype] answers (one of its members, such as [toString], or
    [undefined]). *)
Inductive Lookup :=
| Own (taskInfo : TaskInfo)
| ThePrototype (p : option TaskInfo)
| FromSnapshot (taskInfo : TaskInfo)
| FromObjectPrototype.

Definition lookup_property (result : TaskInfos) (key : string) : Lookup :=
  match own result !! key with
  | Some taskInfo => Own taskInfo
  | None =>
      if bool_decide (key = proto_key) then ThePrototype (proto result) else
      match proto result with
      | Some taskInfo =>
          if bool_decide (key ∈ snapshot_keys) then FromSnapshot taskInfo
          else FromObjectPrototype
      | None => FromObjectPrototype
      end
  end.

Fixpoint getAllTasks_loop (names : list string) (result : TaskInfos)
  : Js TaskInfos :=
  match names with
  | [] => mret result
  | taskName :: names' =>
      taskInfo ← getTask taskName;
      getAllTasks_loop names'
        match taskInfo with
        | Some info => assign result taskName info
        | None => result
        end
  end.

Definition getAllTasks : Js TaskInfos :=
  s ← this; getAllTasks_loop (JsMap.keys (tasks s)) empty_object.

(** *** [hasTask(taskName)] *)
Definition hasTask (taskName : string) : Js bool :=
  s ← this; mret (JsMap.has (tasks s) taskName).

(** *** [get taskCount()] *)
Definition taskCount : Js nat :=
  s ← this; mret (JsMap.size (tasks s)).

(** *** [destroy()] *)
Definition destroy : Js unit :=
  stopAll;;
  console_log Destroyed.

(** ** Running the scheduler on examples *)

Definition run {A} (m : Js A) (s : Scheduler) : Scheduler := (m s).2.
Definition value {A} (m : Js A) (s : Scheduler) : Result A := (m s).1.

Definition ping : option string := Some "ping".

Definition capped (k : Z) : ScheduleOptions :=
  {| runImmediately := false; opt_maxExecutions := Some k |}.

(** ** Well-formed scheduler states

    What every state reached from [new Scheduler()] satisfies as long as no
    action calls the scheduler while [schedule] runs it: the map has one
    binding per name, every binding refers to an object whose timer is armed
    for that name and delay, every armed timer belongs to a binding, and the
    handles in use are below the next one. *)
Record wf (s : Scheduler) : Prop := {
  wf_nodup : NoDup (JsMap.keys (tasks s));
  wf_entry : forall n l, JsMap.get (tasks s) n = Some l ->
    exists o, heap s !! l = Some o /\
              timers s !! timerId o = Some (n, interval o);
  wf_timer : forall id n ms, timers s !! id = Some (n, ms) ->
    exists l o, JsMap.get (tasks s) n = Some l /\ heap s !! l = Some o /\
                timerId o = id;
  wf_fresh : forall id, is_Some (timers s !! id) -> (id < nextTimer s)%nat
}.

(** What the code keeps also when actions call the scheduler: one binding
    per name, every binding refers to an object whose timer is armed for that
    name and delay, and the handles in use are below the next one.  That
    every armed timer belongs to a binding is not part of it. *)
Record valid (s : Scheduler) : Prop := {
  valid_nodup : NoDup (JsMap.keys (tasks s));
  valid_entry : forall n l, JsMap.get (tasks s) n = Some l ->
    exists o, heap s !! l = Some o /\
              timers s !! timerId o = Some (n, interval o);
  valid_fresh : forall id, is_Some (timers s !! id) -> (id < nextTimer s)%nat
}.

(** The state after [stop taskName] has found the object [o]. *)
Definition stopped (s : Scheduler) (taskName : string) (o : TaskObj) : Scheduler :=
  {| tasks := JsMap.delete (tasks s) taskName;
     heap := heap s;
     timers := delete (timerId o) (timers s);
     nextTimer := nextTimer s;
     trace := (trace s ++ [ClearInterval (timerId o)])
                ++ [ConsoleLog (Stopped taskName)] |}.

(** The state after [task.executionCount++] on the object [o] at [task]. *)
Definition counted (s : Scheduler) (task : loc) (o : TaskObj) : Scheduler :=
  with_heap (λ h, <[task := incr o]> h) s.

(** The state after [schedule] has armed timer and stored the object [o]
    under [taskName]. *)
Definition registered (s : Scheduler) (taskName : string) (o : TaskObj) : Scheduler :=
  {| tasks := JsMap.set (tasks s) taskName (length (heap s));
     heap := heap s ++ [o];
     timers := <[nextTimer s := (taskName, interval o)]> (timers s);
     nextTimer := S (nextTimer s);
     trace := (trace s ++ [SetInterval (nextTimer s) taskName (interval o)])
                ++ [ConsoleLog (Scheduled taskName (interval o))] |}.

(** The object literal that [schedule] stores. *)
Definition new_task (s : Scheduler) (f : TaskFunction) (i : IntervalArg)
    (options : ScheduleOptions) (now : Z) : TaskObj :=
  {| timerId := nextTimer s;
     func := f;
     interval := resolve i;
     startTime := now;
     executionCount := 0;
     maxExecutions := opt_maxExecutions options |}.

(** What a call holds once its arguments have passed the three checks. *)
Definition registration (taskName : string) (f : TaskFunction) (i : IntervalArg)
    (options : ScheduleOptions) : Registration :=
  {| r_name := taskName; r_func := f; r_interval := resolve i;
     r_options := options |}.

(** Two states that differ at most in what was printed and recorded. *)
Definition same_store (s1 s2 : Scheduler) : Prop :=
  tasks s1 = tasks s2 /\ heap s1 = heap s2 /\ timers s1 = timers s2 /\
  nextTimer s1 = nextTimer s2.

(** An invocation that fails: a synchronous throw or a rejected promise. *)
Definition failing (out : Outcome) : bool :=
  match out with
  | ThrowsSync | ReturnsPromise Rejects => true
  | _ => false
  end.

(** What one whole run of [executeTask] adds to the trace. *)
Definition run_events (f : TaskFunction) (out : Outcome) : list event :=
  Invoked f :: (if failing out then [ConsoleError (ActionError f)] else []).

(** What [schedule] adds to the trace when it runs the action at once: the
    part of [executeTask] up to its [await]. *)
Definition immediate_events (options : ScheduleOptions) (f : TaskFunction)
    (out : Outcome) : list event :=
  if runImmediately options
  then Invoked f ::
       match out with ThrowsSync => [ConsoleError (ActionError f)] | _ => [] end
  else [].

(** The snapshot that [getTask] builds from an object. *)
Definition snapshot (taskName : string) (o : TaskObj) : TaskInfo :=
  {| name := taskName;
     info_interval := interval o;
     info_startTime := startTime o;
     info_executionCount := executionCount o;
     isActive := true |}.

(** ** What can happen to a scheduler

    The calls of the public methods by the program and the events of the
    host: a timer fires, an execution that waits at its [await] goes on.  The
    resumptions carry the execution they resume; any execution may be given,
    also one whose task has been stopped or replaced in the meantime.

    An action that calls the scheduler does so while it runs: in a tick or in
    [executeNow] its calls are operations between the [Begin] and the
    [Resume]; in a [schedule] with [runImmediately] they are operations
    between [ScheduleBegin] and [ScheduleFinish].  [ScheduleFinish] is given
    the arguments of its call and does nothing for arguments that [schedule]
    rejects. *)
Inductive op :=
| Schedule (taskName : option string) (func : FuncArg) (interval : IntervalArg)
           (options : ScheduleOptions) (now : Z) (out : Outcome)
| Stop (taskName : string)
| StopAll
| Destroy
| ExecuteNow (taskName : string) (out : Outcome)
| ExecuteNowBegin (taskName : string) (out : Outcome)
| ExecuteNowResume (k : Pending)
| Fire (id : nat) (out : Outcome)
| FireBegin (id : nat) (out : Outcome)
| CallbackResume (taskName : string) (k : Pending)
| SettleImmediate (f : TaskFunction) (r : option Settlement)
| ScheduleBegin (taskName : option string) (func : FuncArg) (interval : IntervalArg)
                (options : ScheduleOptions) (out : Outcome)
| ScheduleFinish (taskName : option string) (func : FuncArg) (interval : IntervalArg)
                 (options : ScheduleOptions) (now : Z).

(** The callback of an armed timer; a timer that is not armed runs nothing. *)
Definition on_timer {A} (id : nat) (cb : string -> Js A) (s : Scheduler) : Scheduler :=
  match timers s !! id with
  | Some (taskName, _) => run (cb taskName) s
  | None => s
  end.

Definition exec (c : op) (s : Scheduler) : Scheduler :=
  match c with
  | Schedule n f i options now out => run (schedule n f i options now out) s
  | Stop n => run (stop n) s
  | StopAll => run stopAll s
  | Destroy => run destroy s
  | ExecuteNow n out => run (executeNow n out) s
  | ExecuteNowBegin n out => run (executeNow_begin n out) s
  | ExecuteNowResume k => run (executeNow_resume k) s
  | Fire id out => on_timer id (λ n, callback n out) s
  | FireBegin id out => on_timer id (λ n, callback_begin n out) s
  | CallbackResume n k => run (callback_resume n k) s
  | SettleImmediate f r => run (executeTask_resume f r) s
  | ScheduleBegin n f i options out => run (schedule_begin n f i options out) s
  | ScheduleFinish n f i options now =>
      match validate n f i options with
      | inr r => run (schedule_finish r now) s
      | inl _ => s
      end
  end.

(** The operations that are one half of a [schedule] call. *)
Definition half_schedule (c : op) : bool :=
  match c with
  | ScheduleBegin _ _ _ _ _ | ScheduleFinish _ _ _ _ _ => true
  | _ => false
  end.

Definition exec_all (cs : list op) (s : Scheduler) : Scheduler :=
  foldl (λ s c, exec c s) s cs.

(** The states a scheduler can be in. *)
Definition reachable (s : Scheduler) : Prop :=
  exists cs, s = exec_all cs new_scheduler.

(** The states reached when no [schedule] call is cut in two, that is when
    no action run by [runImmediately] calls the scheduler. *)
Definition reachable_whole (s : Scheduler) : Prop :=
  exists cs, Forall (λ c, half_schedule c = false) cs /\
             s = exec_all cs new_scheduler.

(** A timer handle that was given out and is not armed. *)
Definition retired (id : nat) (s : Scheduler) : Prop :=
  timers s !! id = None /\ (id < nextTimer s)%nat.

(** A computation that never arms a retired handle again. *)
Definition keeps_retired {A} (m : Js A) : Prop :=
  forall id s, retired id s -> retired id (m s).2.

(** A scheduler with one task, capped at two executions, and its object. *)
Definition sample : Scheduler :=
  run (schedule ping (Function 0%nat) (Millis (lit 500)) (capped 2) 5 ReturnsVoid)
      new_scheduler.

Definition sample_task : TaskObj :=
  {| timerId := 0; func := 0%nat; interval := lit 500; startTime := 5;
     executionCount := 0; maxExecutions := Some 2 |}.

(** [{ runImmediately: true }] *)
Definition immediately : ScheduleOptions :=
  {| runImmediately := true; opt_maxExecutions := None |}.

(** What happens in
    [s.schedule('ping', () => { s.schedule('ping', g, 500) }, 'second',
                { runImmediately: true })]:
    the outer call checks its arguments, stops the name and calls the action;
    the action registers the name; the outer call then arms its own timer and
    stores its own object over the one that the action stored. *)
Definition reentrant_schedule : list op :=
  [ ScheduleBegin ping (Function 0%nat) (Unit second) immediately ReturnsVoid;
    Schedule ping (Function 1%nat) (Millis (lit 500)) no_options 1 ReturnsVoid;
    ScheduleFinish ping (Function 0%nat) (Unit second) immediately 2 ].

(** The scheduler after that call. *)
Definition leaked : Scheduler := exec_all reentrant_schedule new_scheduler.

(** ** Notions for the properties of the code *)

(** A string made of white-space characters only. *)
Fixpoint all_space (s : string) : bool :=
  match s with
  | EmptyString => true
  | String c1 r1 =>
      if is_space c1 then all_space r1 else
      match r1 with
      | EmptyString => false
      | String c2 r2 =>
          if is_space2 c1 c2 then all_space r2 else
          match r2 with
          | EmptyString => false
          | String c3 r3 => is_space3 c1 c2 c3 && all_space r3
          end
      end
  end.

(** The encoding of a sequence of code points. *)
Definition utf8s (cps : list N) : string :=
  foldr (λ cp r, (utf8 cp ++ r)%string) "" cps.

(** [o'] is [o] some increments later: only [executionCount] differs, and it
    is not smaller. *)
Definition evolves (o o' : TaskObj) : Prop :=
  timerId o' = timerId o /\ func o' = func o /\ interval o' = interval o /\
  startTime o' = startTime o /\ maxExecutions o' = maxExecutions o /\
  (executionCount o <= executionCount o')%N.

(** The reference [l] still leads to the object that was [o]. *)
Definition object_kept (l : loc) (o : TaskObj) (s : Scheduler) : Prop :=
  exists o', heap s !! l = Some o' /\ evolves o o'.

(** Every object that was ever stored has an interval above zero. *)
Definition positive_intervals (s : Scheduler) : Prop :=
  forall l o, heap s !! l = Some o -> lt zero (interval o) = true.

(** A property of states that a computation keeps, also when it throws. *)
Definition preserves {A} (I : Scheduler -> Prop) (m : Js A) : Prop :=
  forall s, I s -> I (m s).2.

(** A property of states that only looks at the objects. *)
Definition heap_only (I : Scheduler -> Prop) : Prop :=
  forall s s', heap s = heap s' -> I s -> I s'.

(** The events of stopping: a timer is cleared, a line is printed. *)
Definition quiet (e : event) : Prop :=
  match e with
  | ClearInterval _ | ConsoleLog _ => True
  | _ => False
  end.

(** A computation that only adds events of one kind to the trace. *)
Definition appends {A} (P : event -> Prop) (m : Js A) : Prop :=
  forall s, exists t, trace (m s).2 = trace s ++ t /\ Forall P t.

(** The ticks of the timer [id], one after the other, with the outcomes
    [outs] of the action. *)
Definition ticks (id : nat) (outs : list Outcome) : list op :=
  Fire id <$> outs.

(** ** The [Map] operations *)

Module JsMapFacts.
Import JsMap.

Lemma get_delete_eq (m : t) k : get (delete m k) k = None.
Proof.
  induction m as [|[k' v] m IH]; simpl; [done|].
  destruct (decide (k' = k)) as [->|Hne]; simpl; [done|].
  by rewrite decide_False.
Qed.

Lemma get_delete_ne (m : t) k k' : k ≠ k' -> get (delete m k) k' = get m k'.
Proof.
  intros Hne. induction m as [|[k0 v] m IH]; simpl; [done|].
  destruct (decide (k0 = k)) as [->|Hk]; simpl.
  - by rewrite decide_False.
  - by rewrite IH.
Qed.

Lemma get_set_eq (m : t) k v : get (set m k v) k = Some v.
Proof.
  induction m as [|[k' v'] m IH]; simpl.
  - by rewrite decide_True.
  - destruct (decide (k' = k)) as [->|Hne]; simpl.
    + by rewrite decide_True.
    + by rewrite decide_False.
Qed.

Lemma get_set_ne (m : t) k k' v : k ≠ k' -> get (set m k v) k' = get m k'.
Proof.
  intros Hne. induction m as [|[k0 v0] m IH]; simpl.
  - by rewrite decide_False.
  - destruct (decide (k0 = k)) as [->|Hk]; simpl.
    + by rewrite !decide_False.
    + by rewrite IH.
Qed.

Lemma get_None_keys (m : t) k : get m k = None <-> k ∉ keys m.
Proof.
  unfold keys. induction m as [|[k' v] m IH]; simpl.
  - split; [intros _; apply not_elem_of_nil | done].
  - rewrite not_elem_of_cons. destruct (decide (k' = k)) as [->|Hne].
    + split; [done | by intros [? _]].
    + rewrite IH. split; [by intros ?; split | by intros [_ ?]].
Qed.

Lemma get_Some_elem (m : t) k v : get m k = Some v -> (k, v) ∈ m.
Proof.
  induction m as [|[k' v'] m IH]; simpl; [done|].
  destruct (decide (k' = k)) as [->|Hne].
  - intros [= ->]. apply list_elem_of_here.
  - intros H. apply list_elem_of_further. by apply IH.
Qed.

Lemma delete_absent (m : t) k : get m k = None -> delete m k = m.
Proof.
  induction m as [|[k' v] m IH]; simpl; [done|].
  destruct (decide (k' = k)); [done|]. intros H. by rewrite IH.
Qed.

Lemma keys_delete (m : t) k : keys (delete m k) = filter (λ k', k' ≠ k) (keys m).
Proof.
  unfold keys. induction m as [|[k' v] m IH]; csimpl; [done|].
  rewrite filter_cons. csimpl.
  destruct (decide (k' = k)) as [->|Hne].
  - by rewrite decide_False; [|intros ?].
  - rewrite decide_True; [|done]. csimpl. by rewrite IH.
Qed.

Lemma NoDup_delete (m : t) k : NoDup (keys m) -> NoDup (keys (delete m k)).
Proof. rewrite keys_delete. apply NoDup_filter. Qed.

Lemma keys_set_absent (m : t) k v : get m k = None -> keys (set m k v) = keys m ++ [k].
Proof.
  unfold keys. induction m as [|[k' v'] m IH]; simpl; [done|].
  destruct (decide (k' = k)); [done|]. intros H. csimpl. by rewrite IH.
Qed.

Lemma keys_set_present (m : t) k v : is_Some (get m k) -> keys (set m k v) = keys m.
Proof.
  unfold keys. induction m as [|[k' v'] m IH]; simpl.
  - by intros [? ?].
  - destruct (decide (k' = k)) as [->|Hne]; [done|].
    intros H. csimpl. by rewrite IH.
Qed.

Lemma NoDup_set (m : t) k v : NoDup (keys m) -> NoDup (keys (set m k v)).
Proof.
  intros Hnd. destruct (get m k) as [v'|] eqn:Hg.
  - by rewrite keys_set_present.
  - rewrite keys_set_absent; [|done].
    apply NoDup_app. split; [done|]. split; [|apply NoDup_singleton].
    intros x Hx Hx'. apply list_elem_of_singleton in Hx'. subst x.
    by apply get_None_keys in Hg.
Qed.

Lemma bindings_absent (m : t) k : get m k = None -> bindings m k = 0%nat.
Proof.
  unfold bindings. induction m as [|[k' v] m IH]; [done|].
  rewrite filter_cons. cbn [fst get].
  destruct (decide (k' = k)); [done|]. auto.
Qed.

Lemma bindings_present (m : t) k :
  NoDup (keys m) -> is_Some (get m k) -> bindings m k = 1%nat.
Proof.
  unfold bindings, keys. induction m as [|[k' v] m IH].
  - by intros _ [? ?].
  - rewrite fmap_cons, NoDup_cons. intros [Hk Hnd].
    rewrite filter_cons. cbn [fst get].
    destruct (decide (k' = k)) as [->|Hne].
    + intros _. cbn [length]. f_equal.
      apply bindings_absent. by apply get_None_keys.
    + auto.
Qed.

Lemma has_true (m : t) k : has m k = true <-> is_Some (get m k).
Proof. unfold has. by rewrite bool_decide_eq_true. Qed.

Lemma has_false (m : t) k : has m k = false <-> get m k = None.
Proof.
  unfold has. rewrite bool_decide_eq_false. by rewrite eq_None_not_Some.
Qed.

End JsMapFacts.

(** ** The methods, step by step *)

Ltac js :=
  unfold mbind, mret, Js_bind, Js_ret, this, modify, emit, console_log,
    console_error, throw, try_catch in *;
  simpl in *.

Lemma same_store_refl s : same_store s s.
Proof. by repeat split. Qed.


Lemma same_store_sym s1 s2 : same_store s1 s2 -> same_store s2 s1.
Proof. intros (?&?&?&?). by repeat split. Qed.

Lemma same_store_wf s1 s2 : same_store s1 s2 -> wf s1 -> wf s2.
Proof.
  intros (Ht&Hh&Hm&Hn) [H1 H2 H3 H4].
  split; rewrite <- ?Ht, <- ?Hh, <- ?Hm, <- ?Hn; done.
Qed.

Lemma wf_new_scheduler : wf new_scheduler.
Proof.
  split; simpl.
  - apply NoDup_nil_2.
  - done.
  - intros id n ms H. by rewrite lookup_empty in H.
  - intros id [x H]. by rewrite lookup_empty in H.
Qed.

(** *** [executeTask] *)

Lemma executeTask_begin_spec f out s :
  exists r s', executeTask_begin f out s = (Ok r, s') /\ same_store s s' /\
    r = match out with ReturnsPromise st => Some st | _ => None end /\
    trace s' = trace s ++ Invoked f ::
      match out with ThrowsSync => [ConsoleError (ActionError f)] | _ => [] end.
Proof.
  unfold executeTask_begin, call. js.
  destruct out; simpl; eexists _, _; (split; [reflexivity|]);
    (split; [by repeat split|]); split; try done; simpl.
  by rewrite <- app_assoc.
Qed.

Lemma executeTask_resume_spec f r s :
  exists s', executeTask_resume f r s = (Ok tt, s') /\ same_store s s' /\
    trace s' = trace s ++
      match r with Some Rejects => [ConsoleError (ActionError f)] | _ => [] end.
Proof.
  unfold executeTask_resume, await. js.
  destruct r as [[|]|]; simpl; eexists; (split; [reflexivity|]);
    (split; [by repeat split|]); simpl; by rewrite ?app_nil_r.
Qed.

(** *** [stop] *)

Lemma stop_absent s n :
  JsMap.get (tasks s) n = None -> stop n s = (Ok false, s).
Proof. intros H. unfold stop. js. by rewrite H. Qed.

Lemma stop_present s n l o :
  JsMap.get (tasks s) n = Some l -> heap s !! l = Some o ->
  stop n s = (Ok true, stopped s n o).
Proof.
  intros H Ho. unfold stop, read, clearInterval. js. rewrite H. simpl.
  by rewrite Ho.
Qed.

Lemma wf_stopped s n l o :
  wf s -> JsMap.get (tasks s) n = Some l -> heap s !! l = Some o ->
  wf (stopped s n o).
Proof.
  intros [Hnd Hent Htim Hfr] Hn Ho.
  destruct (Hent _ _ Hn) as (o'&Ho'&Hto). rewrite Ho in Ho'. injection Ho' as <-.
  split; simpl.
  - by apply JsMapFacts.NoDup_delete.
  - intros n' l' Hg. destruct (decide (n = n')) as [<-|Hne].
    { by rewrite JsMapFacts.get_delete_eq in Hg. }
    rewrite JsMapFacts.get_delete_ne in Hg by done.
    destruct (Hent _ _ Hg) as (o'&Ho'&Ht'). exists o'. split; [done|].
    rewrite lookup_delete_ne; [done|]. intros Heq. rewrite Heq in Hto. congruence.
  - intros id n' ms Hid.
    destruct (decide (timerId o = id)) as [<-|Hne].
    { by rewrite lookup_delete_eq in Hid. }
    rewrite lookup_delete_ne in Hid by done.
    destruct (Htim _ _ _ Hid) as (l'&o'&Hg&Ho'&Hi).
    destruct (decide (n = n')) as [<-|Hnn].
    { rewrite Hn in Hg. injection Hg as <-. rewrite Ho in Ho'. congruence. }
    exists l', o'. by rewrite JsMapFacts.get_delete_ne.
  - intros id [x Hx]. apply Hfr.
    destruct (decide (timerId o = id)) as [<-|Hne].
    { by rewrite lookup_delete_eq in Hx. }
    rewrite lookup_delete_ne in Hx by done. by exists x.
Qed.

(** In a well-formed state [stop] never throws. *)
Lemma stop_wf_spec s n :
  wf s ->
  exists b s', stop n s = (Ok b, s') /\ wf s' /\
    tasks s' = JsMap.delete (tasks s) n /\ heap s' = heap s /\
    nextTimer s' = nextTimer s /\
    (b = true <-> is_Some (JsMap.get (tasks s) n)).
Proof.
  intros Hwf. destruct (JsMap.get (tasks s) n) as [l|] eqn:Hg.
  - destruct (wf_entry _ Hwf _ _ Hg) as (o&Ho&_).
    exists true, (stopped s n o). rewrite (stop_present _ _ _ _ Hg Ho).
    split; [done|]. split; [by eapply wf_stopped|].
    repeat split; try done.
  - exists false, s. rewrite (stop_absent _ _ Hg).
    split; [done|]. split; [done|].
    rewrite JsMapFacts.delete_absent by done.
    repeat split; try done.
Qed.

(** *** Sequencing *)

Lemma bind_ok {A B} (m : Js A) (k : A -> Js B) s a s' :
  m s = (Ok a, s') -> (m ≫= k) s = k a s'.
Proof. intros H. unfold mbind, Js_bind. by rewrite H. Qed.

Lemma bind_throw {A B} (m : Js A) (k : A -> Js B) s e s' :
  m s = (Throw e, s') -> (m ≫= k) s = (Throw e, s').
Proof. intros H. unfold mbind, Js_bind. by rewrite H. Qed.

Ltac step H := erewrite bind_ok; [|exact H].

(** *** [task.executionCount++] *)

Lemma incr_executionCount_spec s l o :
  heap s !! l = Some o -> incr_executionCount l s = (Ok tt, counted s l o).
Proof.
  intros H. unfold incr_executionCount, read. js. by rewrite H.
Qed.

Lemma counted_lookup s l o :
  heap s !! l = Some o -> heap (counted s l o) !! l = Some (incr o).
Proof.
  intros H. simpl. apply list_lookup_insert_eq. by eapply lookup_lt_Some.
Qed.

Lemma wf_counted s l o : wf s -> heap s !! l = Some o -> wf (counted s l o).
Proof.
  intros [Hnd Hent Htim Hfr] Ho. split; simpl; try done.
  - intros n l' Hg. destruct (Hent _ _ Hg) as (o'&Ho'&Ht).
    destruct (decide (l = l')) as [<-|Hne].
    + exists (incr o). rewrite list_lookup_insert_eq by (by eapply lookup_lt_Some).
      split; [done|]. rewrite Ho in Ho'. by injection Ho' as <-.
    + exists o'. by rewrite list_lookup_insert_ne.
  - intros id n ms Hid. destruct (Htim _ _ _ Hid) as (l'&o'&Hg&Ho'&Hi).
    destruct (decide (l = l')) as [<-|Hne].
    + exists l, (incr o). rewrite list_lookup_insert_eq by (by eapply lookup_lt_Some).
      rewrite Ho in Ho'. injection Ho' as <-. done.
    + exists l', o'. by rewrite list_lookup_insert_ne.
Qed.

(** *** The timer callback *)

Lemma callback_begin_absent s n out :
  JsMap.get (tasks s) n = None -> callback_begin n out s = (Ok None, s).
Proof. intros H. unfold callback_begin. js. by rewrite H. Qed.

Lemma callback_begin_present s n l o out :
  JsMap.get (tasks s) n = Some l -> heap s !! l = Some o ->
  exists r s', callback_begin n out s
               = (Ok (Some {| p_task := l; p_func := func o; p_result := r |}), s')
    /\ executeTask_begin (func o) out s = (Ok r, s') /\ same_store s s'.
Proof.
  intros H Ho. destruct (executeTask_begin_spec (func o) out s) as (r&s'&He&Hs&_).
  exists r, s'. split; [|done].
  unfold callback_begin. erewrite bind_ok; [|reflexivity]. rewrite H.
  erewrite bind_ok; [|by unfold read; rewrite Ho]. by step He.
Qed.

Lemma callback_resume_spec s n k o :
  wf s -> heap s !! p_task k = Some o ->
  let errs := match p_result k with
              | Some Rejects => [ConsoleError (ActionError (p_func k))]
              | _ => []
              end in
  exists s', callback_resume n k s = (Ok tt, s') /\ wf s' /\
    heap s' = <[p_task k := incr o]> (heap s) /\
    nextTimer s' = nextTimer s /\
    tasks s' = (if cap_reached (incr o) then JsMap.delete (tasks s) n else tasks s) /\
    (cap_reached (incr o) = false ->
     timers s' = timers s /\ trace s' = trace s ++ errs) /\
    (cap_reached (incr o) = true -> JsMap.get (tasks s) n = Some (p_task k) ->
     timers s' = delete (timerId o) (timers s) /\
     trace s' = trace s ++ errs
                  ++ [ClearInterval (timerId o); ConsoleLog (Stopped n)]).
Proof.
  intros Hwf Ho errs.
  destruct (executeTask_resume_spec (p_func k) (p_result k) s) as (s1&He&Hs1&Htr1).
  fold errs in Htr1.
  assert (Hwf1 : wf s1) by (by eapply same_store_wf).
  destruct Hs1 as (Ht1&Hh1&Hm1&Hn1).
  assert (Ho1 : heap s1 !! p_task k = Some o) by (by rewrite <- Hh1).
  pose proof (wf_counted _ _ _ Hwf1 Ho1) as Hwf2.
  pose proof (counted_lookup _ _ _ Ho1) as Ho2.
  unfold callback_resume. step He.
  step (incr_executionCount_spec _ _ _ Ho1).
  erewrite bind_ok; [|by unfold read; rewrite Ho2].
  destruct (cap_reached (incr o)) eqn:Hcap.
  - destruct (JsMap.get (tasks (counted s1 (p_task k) o)) n) as [l|] eqn:Hg.
    + destruct (wf_entry _ Hwf2 _ _ Hg) as (o'&Ho'&_).
      step (stop_present _ _ _ _ Hg Ho'). exists (stopped (counted s1 (p_task k) o) n o').
      split; [done|]. split; [by eapply wf_stopped|]. simpl.
      rewrite <- Hh1, <- Hn1, <- Ht1. split_and!; try done.
      intros _ Hgk. simpl in Hg. rewrite <- Ht1, Hgk in Hg. injection Hg as <-.
      rewrite Ho2 in Ho'. injection Ho' as <-. simpl. rewrite Hm1, Htr1.
      split; [done|]. by rewrite <- !app_assoc.
    + step (stop_absent _ _ Hg). exists (counted s1 (p_task k) o).
      split; [done|]. split; [done|]. simpl in *.
      rewrite <- Hh1, <- Hn1, <- Ht1 in *. split_and!; try done.
      * by rewrite JsMapFacts.delete_absent.
      * intros _ Hgk. congruence.
  - exists (counted s1 (p_task k) o). split; [done|]. split; [done|]. simpl.
    rewrite <- Hh1, <- Hn1, <- Ht1, <- Hm1. split_and!; try done.
Qed.

(** One whole tick of a registered task, in a well-formed state. *)
Lemma callback_spec s n l o out :
  wf s -> JsMap.get (tasks s) n = Some l -> heap s !! l = Some o ->
  exists s', callback n out s = (Ok tt, s') /\ wf s' /\
    heap s' = <[l := incr o]> (heap s) /\
    nextTimer s' = nextTimer s /\
    tasks s' = (if cap_reached (incr o) then JsMap.delete (tasks s) n else tasks s) /\
    timers s' = (if cap_reached (incr o) then delete (timerId o) (timers s)
                 else timers s) /\
    trace s' = trace s ++ run_events (func o) out ++
                 (if cap_reached (incr o)
                  then [ClearInterval (timerId o); ConsoleLog (Stopped n)]
                  else []).
Proof.
  intros Hwf Hg Ho.
  destruct (executeTask_begin_spec (func o) out s) as (r&s1&He&Hs1&Hr&Htr1).
  assert (Hb : callback_begin n out s
               = (Ok (Some {| p_task := l; p_func := func o; p_result := r |}), s1)).
  { unfold callback_begin. erewrite bind_ok; [|reflexivity]. rewrite Hg.
    erewrite bind_ok; [|by unfold read; rewrite Ho]. by step He. }
  assert (Hwf1 : wf s1) by (by eapply same_store_wf).
  destruct Hs1 as (Ht1&Hh1&Hm1&Hn1).
  set (k := {| p_task := l; p_func := func o; p_result := r |}) in *.
  assert (Ho1 : heap s1 !! p_task k = Some o) by (by rewrite <- Hh1).
  destruct (callback_resume_spec s1 n k o Hwf1 Ho1)
    as (s'&Hr'&Hwf'&Hh'&Hn'&Ht'&Hm'&Hm'').
  exists s'. unfold callback. step Hb. split; [done|]. split; [done|].
  rewrite Hh1, Hn1, Ht1, Hm1. split_and!; try done.
  - destruct (cap_reached (incr o)); [apply Hm''|apply Hm']; try done.
    by rewrite <- Ht1.
  - assert (Hev : forall rest,
      (trace s ++ Invoked (func o) ::
         match out with ThrowsSync => [ConsoleError (ActionError (func o))] | _ => [] end)
        ++ match r with Some Rejects => [ConsoleError (ActionError (func o))] | _ => [] end
        ++ rest
      = trace s ++ run_events (func o) out ++ rest).
    { intros rest. subst r. unfold run_events.
      destruct out as [| |[|]]; simpl; by rewrite <- app_assoc. }
    destruct (cap_reached (incr o)).
    + destruct Hm'' as [_ ->]; [done|by rewrite <- Ht1|]. simpl p_result.
      simpl p_func. rewrite Htr1. apply Hev.
    + destruct Hm' as [_ ->]; [done|]. simpl p_result. simpl p_func.
      rewrite Htr1. specialize (Hev []). by rewrite !app_nil_r in *.
Qed.

Lemma callback_absent s n out :
  JsMap.get (tasks s) n = None -> callback n out s = (Ok tt, s).
Proof.
  intros H. unfold callback. by step (callback_begin_absent _ _ out H).
Qed.

(** *** [executeNow] *)

Lemma executeNow_resume_spec s k o :
  heap s !! p_task k = Some o ->
  exists s', executeNow_resume k s = (Ok true, s') /\
    heap s' = <[p_task k := incr o]> (heap s) /\
    tasks s' = tasks s /\ timers s' = timers s /\ nextTimer s' = nextTimer s /\
    (wf s -> wf s').
Proof.
  intros Ho.
  destruct (executeTask_resume_spec (p_func k) (p_result k) s) as (s1&He&Hs1&_).
  pose proof Hs1 as (Ht1&Hh1&Hm1&Hn1).
  assert (Ho1 : heap s1 !! p_task k = Some o) by (by rewrite <- Hh1).
  exists (counted s1 (p_task k) o). unfold executeNow_resume. step He.
  step (incr_executionCount_spec _ _ _ Ho1). split; [done|]. simpl.
  rewrite Hh1, Ht1, Hm1, Hn1. split_and!; try done.
  intros Hwf. apply wf_counted; [|done]. by eapply same_store_wf.
Qed.

Lemma executeNow_absent s n out :
  JsMap.get (tasks s) n = None -> executeNow n out s = (Ok false, s).
Proof.
  intros H.
  assert (Hb : executeNow_begin n out s = (Ok (inl false), s)).
  { unfold executeNow_begin. erewrite bind_ok; [|reflexivity]. by rewrite H. }
  unfold executeNow. by step Hb.
Qed.

Lemma executeNow_present s n l o out :
  JsMap.get (tasks s) n = Some l -> heap s !! l = Some o ->
  exists s', executeNow n out s = (Ok true, s') /\
    heap s' = <[l := incr o]> (heap s) /\
    tasks s' = tasks s /\ timers s' = timers s /\ nextTimer s' = nextTimer s /\
    (wf s -> wf s') /\
    trace s' = trace s ++ Invoked (func o) ::
      match out with
      | ThrowsSync | ReturnsPromise Rejects => [ConsoleError (ActionError (func o))]
      | _ => []
      end.
Proof.
  intros Hg Ho.
  destruct (executeTask_begin_spec (func o) out s) as (r&s1&He&Hs1&Hr&Htr1).
  pose proof Hs1 as (Ht1&Hh1&Hm1&Hn1).
  set (k := {| p_task := l; p_func := func o; p_result := r |}).
  assert (Ho1 : heap s1 !! p_task k = Some o) by (by rewrite <- Hh1).
  destruct (executeTask_resume_spec (p_func k) (p_result k) s1) as (s2&He2&Hs2&Htr2).
  pose proof Hs2 as (Ht2&Hh2&Hm2&Hn2).
  assert (Ho2 : heap s2 !! p_task k = Some o) by (by rewrite <- Hh2).
  exists (counted s2 l o).
  split.
  { unfold executeNow, executeNow_begin.
    erewrite bind_ok; [|erewrite bind_ok; [|reflexivity]; rewrite Hg;
      erewrite bind_ok; [|by unfold read; rewrite Ho]; by step He].
    unfold executeNow_resume. step He2.
    by step (incr_executionCount_spec _ _ _ Ho2). }
  simpl. rewrite <- Hh2, <- Hh1, <- Ht2, <- Ht1, <- Hm2, <- Hm1, <- Hn2, <- Hn1.
  split_and!; try done.
  - intros Hwf. apply wf_counted; [|done].
    eapply same_store_wf; [exact Hs2|]. by eapply same_store_wf.
  - rewrite Htr2, Htr1. simpl. subst r.
    destruct out as [| |[|]]; simpl; rewrite <- ?app_assoc; simpl;
      by rewrite ?app_nil_r.
Qed.

(** *** [schedule] *)

Lemma wf_registered s n o :
  wf s -> JsMap.get (tasks s) n = None -> timerId o = nextTimer s ->
  wf (registered s n o).
Proof.
  intros [Hnd Hent Htim Hfr] Hn Hid. split; simpl.
  - by apply JsMapFacts.NoDup_set.
  - intros n' l' Hg. destruct (decide (n = n')) as [<-|Hne].
    + rewrite JsMapFacts.get_set_eq in Hg. injection Hg as <-.
      exists o. split; [apply list_lookup_middle; done|].
      rewrite Hid. apply lookup_insert_eq.
    + rewrite JsMapFacts.get_set_ne in Hg by done.
      destruct (Hent _ _ Hg) as (o'&Ho'&Ht'). exists o'.
      split; [by apply lookup_app_l_Some|].
      rewrite lookup_insert_ne; [done|].
      assert (timerId o' < nextTimer s)%nat by (apply Hfr; eauto). lia.
  - intros id n' ms Hl. destruct (decide (nextTimer s = id)) as [<-|Hne].
    + rewrite lookup_insert_eq in Hl. injection Hl as <- <-.
      exists (length (heap s)), o. rewrite JsMapFacts.get_set_eq.
      split_and!; try done. by apply list_lookup_middle.
    + rewrite lookup_insert_ne in Hl by done.
      destruct (Htim _ _ _ Hl) as (l'&o'&Hg&Ho'&Hi). exists l', o'.
      rewrite JsMapFacts.get_set_ne by congruence.
      split_and!; try done. by apply lookup_app_l_Some.
  - intros id Hs. destruct (decide (nextTimer s = id)) as [<-|Hne]; [lia|].
    rewrite lookup_insert_ne in Hs by done. apply Hfr in Hs. lia.
Qed.

Lemma run_immediately_spec (b : bool) f out s :
  exists s', (if b then executeTask_begin f out;; mret tt else mret tt) s
             = (Ok tt, s') /\ same_store s s' /\
    trace s' = trace s ++
      (if b then Invoked f ::
         match out with ThrowsSync => [ConsoleError (ActionError f)] | _ => [] end
       else []).
Proof.
  destruct b.
  - destruct (executeTask_begin_spec f out s) as (r&s'&He&Hs&_&Ht).
    exists s'. by step He.
  - exists s. split; [done|]. split; [apply same_store_refl|by rewrite app_nil_r].
Qed.

(** A call that passes the three validations, in a well-formed state. *)
Lemma schedule_valid_spec s n f i options now out :
  wf s -> name_missing (Some n) = false -> interval_rejected (resolve i) = false ->
  exists b s1 s2,
    stop n s = (Ok b, s1) /\ wf s1 /\ same_store s1 s2 /\
    tasks s1 = JsMap.delete (tasks s) n /\ heap s1 = heap s /\
    nextTimer s1 = nextTimer s /\
    trace s2 = trace s1 ++
      (if runImmediately options then Invoked f ::
         match out with ThrowsSync => [ConsoleError (ActionError f)] | _ => [] end
       else []) /\
    schedule (Some n) (Function f) i options now out s
    = (Ok tt, registered s2 n (new_task s f i options now)) /\
    wf (registered s2 n (new_task s f i options now)).
Proof.
  intros Hwf Hname Hint.
  destruct (stop_wf_spec s n Hwf) as (b&s1&Hstop&Hwf1&Ht1&Hh1&Hn1&_).
  destruct (run_immediately_spec (runImmediately options) f out s1)
    as (s2&Hrun&Hs2&Htr2).
  exists b, s1, s2. split_and!; try done.
  - unfold schedule. rewrite Hname, Hint. step Hstop. step Hrun.
    destruct Hs2 as (_&_&_&Hn2). unfold new_task. rewrite <- Hn1, Hn2.
    reflexivity.
  - apply wf_registered.
    + by eapply same_store_wf.
    + destruct Hs2 as (<-&_). rewrite Ht1. apply JsMapFacts.get_delete_eq.
    + destruct Hs2 as (_&_&_&<-). by rewrite Hn1.
Qed.

(** *** [stopAll] *)

Lemma wf_no_tasks_no_timers s : wf s -> tasks s = [] -> timers s = ∅.
Proof.
  intros Hwf Ht. apply map_empty. intros id.
  destruct (timers s !! id) as [[n ms]|] eqn:Hid; [|done].
  destruct (wf_timer _ Hwf _ _ _ Hid) as (l&o&Hg&_). by rewrite Ht in Hg.
Qed.

Lemma stop_each_spec ks : forall s,
  wf s -> JsMap.keys (tasks s) = ks ->
  exists s', for_each ks (λ taskName, stop taskName;; mret tt) s = (Ok tt, s') /\
    wf s' /\ tasks s' = [] /\ heap s' = heap s /\ nextTimer s' = nextTimer s.
Proof.
  induction ks as [|k ks IH]; intros s Hwf Hk.
  - exists s. apply fmap_nil_inv in Hk. by split_and!.
  - destruct (stop_wf_spec s k Hwf) as (b&s1&Hstop&Hwf1&Ht1&Hh1&Hn1&_).
    assert (Hk1 : JsMap.keys (tasks s1) = ks).
    { rewrite Ht1. pose proof (wf_nodup _ Hwf) as Hnd. unfold JsMap.keys in *.
      destruct (tasks s) as [|[k' l] m]; [done|].
      rewrite fmap_cons in Hk, Hnd. injection Hk as -> Hk.
      apply NoDup_cons in Hnd as [Hnotin _]. simpl. rewrite decide_True by done.
      rewrite JsMapFacts.delete_absent; [done|]. by apply JsMapFacts.get_None_keys. }
    destruct (IH s1 Hwf1 Hk1) as (s'&Hf&Hwf'&Ht'&Hh'&Hn').
    exists s'. split_and!; try congruence.
    simpl. erewrite bind_ok; [exact Hf|]. by step Hstop.
Qed.

Lemma stopAll_spec s :
  wf s ->
  exists s', stopAll s = (Ok (JsMap.size (tasks s)), s') /\ wf s' /\
    tasks s' = [] /\ timers s' = ∅ /\ heap s' = heap s.
Proof.
  intros Hwf. destruct (stop_each_spec _ s Hwf eq_refl) as (s'&Hf&Hwf'&Ht'&Hh'&_).
  exists s'. split_and!; try done; [|by apply wf_no_tasks_no_timers].
  unfold stopAll. erewrite bind_ok; [|reflexivity]. by step Hf.
Qed.

(** *** Well-formedness is an invariant of every method *)

Lemma wf_stop s n : wf s -> wf (run (stop n) s).
Proof.
  intros Hwf. destruct (stop_wf_spec s n Hwf) as (b&s'&H&Hwf'&_).
  unfold run. by rewrite H.
Qed.

Lemma wf_schedule s n func i options now out :
  wf s -> wf (run (schedule n func i options now out) s).
Proof.
  intros Hwf. unfold run, schedule.
  destruct (name_missing n) eqn:Hn; [done|].
  destruct n as [n|]; [|done]. destruct func as [f|]; [|done].
  destruct (interval_rejected (resolve i)) eqn:Hi; [done|].
  destruct (schedule_valid_spec s n f i options now out Hwf Hn Hi)
    as (b&s1&s2&_&_&_&_&_&_&_&Hs&Hwf').
  unfold schedule in Hs. rewrite Hn, Hi in Hs. by rewrite Hs.
Qed.

Lemma wf_callback s n out : wf s -> wf (run (callback n out) s).
Proof.
  intros Hwf. unfold run. destruct (JsMap.get (tasks s) n) as [l|] eqn:Hg.
  - destruct (wf_entry _ Hwf _ _ Hg) as (o&Ho&_).
    destruct (callback_spec s n l o out Hwf Hg Ho) as (s'&H&Hwf'&_).
    by rewrite H.
  - by rewrite callback_absent.
Qed.

Lemma wf_executeNow s n out : wf s -> wf (run (executeNow n out) s).
Proof.
  intros Hwf. unfold run. destruct (JsMap.get (tasks s) n) as [l|] eqn:Hg.
  - destruct (wf_entry _ Hwf _ _ Hg) as (o&Ho&_).
    destruct (executeNow_present s n l o out Hg Ho) as (s'&H&_&_&_&_&Hwf'&_).
    rewrite H. by apply Hwf'.
  - by rewrite executeNow_absent.
Qed.

Lemma wf_stopAll s : wf s -> wf (run stopAll s).
Proof.
  intros Hwf. destruct (stopAll_spec s Hwf) as (s'&H&Hwf'&_).
  unfold run. by rewrite H.
Qed.

Lemma incr_executionCount_dangling s l :
  heap s !! l = None -> incr_executionCount l s = (Throw TypeError, s).
Proof. intros H. unfold incr_executionCount, read. js. by rewrite H. Qed.

Lemma wf_executeTask_resume s f r : wf s -> wf (run (executeTask_resume f r) s).
Proof.
  intros Hwf. destruct (executeTask_resume_spec f r s) as (s'&H&Hs&_).
  unfold run. rewrite H. by eapply same_store_wf.
Qed.

Lemma wf_executeNow_begin s n out : wf s -> wf (run (executeNow_begin n out) s).
Proof.
  intros Hwf. unfold run, executeNow_begin. erewrite bind_ok; [|reflexivity].
  destruct (JsMap.get (tasks s) n) as [l|] eqn:Hg; [|done].
  destruct (wf_entry _ Hwf _ _ Hg) as (o&Ho&_).
  erewrite bind_ok; [|by unfold read; rewrite Ho].
  destruct (executeTask_begin_spec (func o) out s) as (r&s'&H&Hs&_).
  step H. by eapply same_store_wf.
Qed.

Lemma wf_executeNow_resume s k : wf s -> wf (run (executeNow_resume k) s).
Proof.
  intros Hwf. unfold run. destruct (heap s !! p_task k) as [o|] eqn:Ho.
  - destruct (executeNow_resume_spec s k o Ho) as (s'&H&_&_&_&_&Hwf').
    rewrite H. by apply Hwf'.
  - destruct (executeTask_resume_spec (p_func k) (p_result k) s) as (s1&He&Hs1&_).
    unfold executeNow_resume. step He.
    erewrite bind_throw; [by eapply same_store_wf|].
    apply incr_executionCount_dangling. by destruct Hs1 as (_&<-&_).
Qed.

Lemma wf_callback_begin s n out : wf s -> wf (run (callback_begin n out) s).
Proof.
  intros Hwf. unfold run. destruct (JsMap.get (tasks s) n) as [l|] eqn:Hg.
  - destruct (wf_entry _ Hwf _ _ Hg) as (o&Ho&_).
    destruct (callback_begin_present s n l o out Hg Ho) as (r&s'&H&_&Hs).
    rewrite H. by eapply same_store_wf.
  - by rewrite callback_begin_absent.
Qed.

Lemma wf_callback_resume s n k : wf s -> wf (run (callback_resume n k) s).
Proof.
  intros Hwf. unfold run. destruct (heap s !! p_task k) as [o|] eqn:Ho.
  - destruct (callback_resume_spec s n k o Hwf Ho) as (s'&H&Hwf'&_).
    by rewrite H.
  - destruct (executeTask_resume_spec (p_func k) (p_result k) s) as (s1&He&Hs1&_).
    unfold callback_resume. step He.
    erewrite bind_throw; [by eapply same_store_wf|].
    apply incr_executionCount_dangling. by destruct Hs1 as (_&<-&_).
Qed.

Lemma wf_destroy s : wf s -> wf (run destroy s).
Proof.
  intros Hwf. destruct (stopAll_spec s Hwf) as (s'&H&Hwf'&_).
  unfold run, destroy. step H. simpl.
  eapply same_store_wf; [|exact Hwf']. by repeat split.
Qed.

Lemma wf_on_timer {A} s id (cb : string -> Js A) :
  (forall n, wf s -> wf (run (cb n) s)) -> wf s -> wf (on_timer id cb s).
Proof.
  intros H Hwf. unfold on_timer. destruct (timers s !! id) as [[n ms]|]; auto.
Qed.

Lemma wf_exec c s : half_schedule c = false -> wf s -> wf (exec c s).
Proof.
  destruct c; simpl; try done; intros _;
    eauto using wf_schedule, wf_stop, wf_stopAll, wf_destroy, wf_executeNow,
      wf_executeNow_begin, wf_executeNow_resume, wf_callback_resume,
      wf_executeTask_resume.
  - apply wf_on_timer. intros n. apply wf_callback.
  - apply wf_on_timer. intros n. apply wf_callback_begin.
Qed.

Lemma wf_exec_all cs : forall s,
  Forall (λ c, half_schedule c = false) cs -> wf s -> wf (exec_all cs s).
Proof.
  induction cs as [|c cs IH]; intros s Hcs Hwf; [done|].
  apply Forall_cons in Hcs as [Hc Hcs]. simpl. apply IH; [done|].
  by apply wf_exec.
Qed.

Lemma reachable_whole_wf s : reachable_whole s -> wf s.
Proof. intros (cs&Hcs&->). by apply wf_exec_all, wf_new_scheduler. Qed.

(** *** What stays true when actions call the scheduler *)

Lemma preserves_bind {A B} I (m : Js A) (k : A -> Js B) :
  preserves I m -> (forall a, preserves I (k a)) -> preserves I (m ≫= k).
Proof.
  intros Hm Hk s H. specialize (Hm s H). unfold mbind, Js_bind.
  destruct (m s) as [[a|e] s1]; simpl in *; [by apply Hk|done].
Qed.

Lemma preserves_try_catch {A} I (m : Js A) h :
  preserves I m -> (forall e, preserves I (h e)) -> preserves I (try_catch m h).
Proof.
  intros Hm Hh s H. specialize (Hm s H). unfold try_catch.
  destruct (m s) as [[a|e] s1]; simpl in *; [done|by apply Hh].
Qed.

Lemma preserves_ret {A} I (a : A) : preserves I (mret a).
Proof. by intros s H. Qed.

Lemma preserves_for_each {A} I (l : list A) body :
  (forall x, preserves I (body x)) -> preserves I (for_each l body).
Proof.
  intros Hb. induction l as [|x l IH]; simpl; [apply preserves_ret|].
  apply preserves_bind; auto.
Qed.

Lemma wf_valid s : wf s -> valid s.
Proof. intros [H1 H2 _ H4]. by split. Qed.

Lemma same_store_valid s1 s2 : same_store s1 s2 -> valid s1 -> valid s2.
Proof.
  intros (Ht&Hh&Hm&Hn) [H1 H2 H3].
  split; rewrite <- ?Ht, <- ?Hh, <- ?Hm, <- ?Hn; done.
Qed.

Lemma valid_stopped s n l o :
  valid s -> JsMap.get (tasks s) n = Some l -> heap s !! l = Some o ->
  valid (stopped s n o).
Proof.
  intros [Hnd Hent Hfr] Hn Ho.
  destruct (Hent _ _ Hn) as (o'&Ho'&Hto). rewrite Ho in Ho'. injection Ho' as <-.
  split; simpl.
  - by apply JsMapFacts.NoDup_delete.
  - intros n' l' Hg. destruct (decide (n = n')) as [<-|Hne].
    { by rewrite JsMapFacts.get_delete_eq in Hg. }
    rewrite JsMapFacts.get_delete_ne in Hg by done.
    destruct (Hent _ _ Hg) as (o'&Ho'&Ht'). exists o'. split; [done|].
    rewrite lookup_delete_ne; [done|]. intros Heq. rewrite Heq in Hto. congruence.
  - intros id [x Hx]. apply Hfr.
    destruct (decide (timerId o = id)) as [<-|Hne].
    { by rewrite lookup_delete_eq in Hx. }
    rewrite lookup_delete_ne in Hx by done. by exists x.
Qed.

(** [stop] never throws in such a state. *)
Lemma stop_valid_spec s n :
  valid s ->
  exists b s', stop n s = (Ok b, s') /\ valid s' /\
    tasks s' = JsMap.delete (tasks s) n /\ heap s' = heap s /\
    nextTimer s' = nextTimer s /\
    (b = true <-> is_Some (JsMap.get (tasks s) n)).
Proof.
  intros Hv. destruct (JsMap.get (tasks s) n) as [l|] eqn:Hg.
  - destruct (valid_entry _ Hv _ _ Hg) as (o&Ho&_).
    exists true, (stopped s n o). rewrite (stop_present _ _ _ _ Hg Ho).
    split; [done|]. split; [by eapply valid_stopped|]. by split_and!.
  - exists false, s. rewrite (stop_absent _ _ Hg).
    split; [done|]. split; [done|].
    rewrite JsMapFacts.delete_absent by done. by split_and!.
Qed.

Lemma preserves_valid_stop n : preserves valid (stop n).
Proof.
  intros s Hv. destruct (stop_valid_spec s n Hv) as (b&s'&H&Hv'&_). by rewrite H.
Qed.

Lemma preserves_valid_same_store {A} (m : Js A) :
  (forall s, same_store s (m s).2) -> preserves valid m.
Proof. intros H s Hv. by eapply same_store_valid. Qed.

Lemma preserves_valid_read l : preserves valid (read l).
Proof.
  apply preserves_valid_same_store. intros s. unfold read.
  destruct (heap s !! l); apply same_store_refl.
Qed.

Lemma preserves_valid_executeTask_begin f out :
  preserves valid (executeTask_begin f out).
Proof.
  apply preserves_valid_same_store. intros s.
  by destruct (executeTask_begin_spec f out s) as (r&s'&->&Hs&_).
Qed.

Lemma preserves_valid_executeTask_resume f r :
  preserves valid (executeTask_resume f r).
Proof.
  apply preserves_valid_same_store. intros s.
  by destruct (executeTask_resume_spec f r s) as (s'&->&Hs&_).
Qed.

Lemma preserves_valid_incr_executionCount l :
  preserves valid (incr_executionCount l).
Proof.
  intros s [Hnd Hent Hfr]. unfold incr_executionCount, read. js.
  destruct (heap s !! l) as [o|] eqn:Ho; simpl; [|done].
  split; simpl; try done.
  intros n l' Hg. destruct (Hent _ _ Hg) as (o'&Ho'&Ht).
  destruct (decide (l = l')) as [<-|Hne].
  - exists (incr o). rewrite list_lookup_insert_eq by (by eapply lookup_lt_Some).
    split; [done|]. rewrite Ho in Ho'. by injection Ho' as <-.
  - exists o'. by rewrite list_lookup_insert_ne.
Qed.

Lemma schedule_finish_spec r now s :
  schedule_finish r now s
  = (Ok tt, registered s (r_name r)
              {| timerId := nextTimer s; func := r_func r;
                 interval := r_interval r; startTime := now;
                 executionCount := 0;
                 maxExecutions := opt_maxExecutions (r_options r) |}).
Proof. reflexivity. Qed.

(** Storing a new object keeps all this, also over a binding that is there:
    the timer of the object that was bound stays armed and is no longer
    owned. *)
Lemma valid_registered s n o :
  valid s -> timerId o = nextTimer s -> valid (registered s n o).
Proof.
  intros [Hnd Hent Hfr] Hid. split; simpl.
  - by apply JsMapFacts.NoDup_set.
  - intros n' l' Hg. destruct (decide (n = n')) as [<-|Hne].
    + rewrite JsMapFacts.get_set_eq in Hg. injection Hg as <-.
      exists o. split; [apply list_lookup_middle; done|].
      rewrite Hid. apply lookup_insert_eq.
    + rewrite JsMapFacts.get_set_ne in Hg by done.
      destruct (Hent _ _ Hg) as (o'&Ho'&Ht'). exists o'.
      split; [by apply lookup_app_l_Some|].
      rewrite lookup_insert_ne; [done|].
      assert (timerId o' < nextTimer s)%nat by (apply Hfr; eauto). lia.
  - intros id Hs. destruct (decide (nextTimer s = id)) as [<-|Hne]; [lia|].
    rewrite lookup_insert_ne in Hs by done. apply Hfr in Hs. lia.
Qed.

Lemma preserves_valid_schedule_finish r now :
  preserves valid (schedule_finish r now).
Proof.
  intros s Hv. rewrite schedule_finish_spec. by apply valid_registered.
Qed.

Lemma preserves_valid_schedule_begin n f i options out :
  preserves valid (schedule_begin n f i options out).
Proof.
  unfold schedule_begin. destruct (validate n f i options) as [e|r]; [by intros s H|].
  apply preserves_bind; [apply preserves_valid_stop|intros _].
  apply preserves_bind; [|intros _; apply preserves_ret].
  destruct (runImmediately (r_options r)); [|apply preserves_ret].
  apply preserves_bind; [apply preserves_valid_executeTask_begin|intros _].
  apply preserves_ret.
Qed.

(** A whole [schedule] is its two halves with nothing in between. *)
Lemma schedule_split n f i options now out s :
  schedule n f i options now out s
  = (r ← schedule_begin n f i options out; schedule_finish r now) s.
Proof.
  unfold schedule, schedule_begin, validate.
  destruct (name_missing n); [done|]. destruct n as [n|]; [|done].
  destruct f as [f|]; [|done].
  destruct (interval_rejected (resolve i)); [done|].
  unfold mbind, Js_bind. simpl.
  destruct (stop n s) as [[b|e] s1]; [|done].
  destruct (runImmediately options); simpl; [|done].
  by destruct (executeTask_begin f out s1) as [[r|e] s2].
Qed.

Lemma preserves_valid_schedule n f i options now out :
  preserves valid (schedule n f i options now out).
Proof.
  intros s Hv. rewrite schedule_split. revert s Hv.
  apply preserves_bind; [apply preserves_valid_schedule_begin|].
  intros r. apply preserves_valid_schedule_finish.
Qed.

Lemma preserves_valid_callback_begin n out : preserves valid (callback_begin n out).
Proof.
  unfold callback_begin.
  apply preserves_bind; [by intros s H|intros s].
  destruct (JsMap.get (tasks s) n); [|apply preserves_ret].
  apply preserves_bind; [apply preserves_valid_read|intros o].
  apply preserves_bind; [apply preserves_valid_executeTask_begin|intros r].
  apply preserves_ret.
Qed.

Lemma preserves_valid_callback_resume n k : preserves valid (callback_resume n k).
Proof.
  unfold callback_resume.
  apply preserves_bind; [apply preserves_valid_executeTask_resume|intros _].
  apply preserves_bind; [apply preserves_valid_incr_executionCount|intros _].
  apply preserves_bind; [apply preserves_valid_read|intros o].
  destruct (cap_reached o); [|apply preserves_ret].
  apply preserves_bind; [apply preserves_valid_stop|intros _; apply preserves_ret].
Qed.

Lemma preserves_valid_callback n out : preserves valid (callback n out).
Proof.
  unfold callback. apply preserves_bind; [apply preserves_valid_callback_begin|].
  intros [k|]; [apply preserves_valid_callback_resume|apply preserves_ret].
Qed.

Lemma preserves_valid_executeNow_begin n out :
  preserves valid (executeNow_begin n out).
Proof.
  unfold executeNow_begin.
  apply preserves_bind; [by intros s H|intros s].
  destruct (JsMap.get (tasks s) n); [|apply preserves_ret].
  apply preserves_bind; [apply preserves_valid_read|intros o].
  apply preserves_bind; [apply preserves_valid_executeTask_begin|intros r].
  apply preserves_ret.
Qed.

Lemma preserves_valid_executeNow_resume k : preserves valid (executeNow_resume k).
Proof.
  unfold executeNow_resume.
  apply preserves_bind; [apply preserves_valid_executeTask_resume|intros _].
  apply preserves_bind; [apply preserves_valid_incr_executionCount|intros _].
  apply preserves_ret.
Qed.

Lemma preserves_valid_executeNow n out : preserves valid (executeNow n out).
Proof.
  unfold executeNow. apply preserves_bind; [apply preserves_valid_executeNow_begin|].
  intros [b|k]; [apply preserves_ret|apply preserves_valid_executeNow_resume].
Qed.

Lemma preserves_valid_stopAll : preserves valid stopAll.
Proof.
  unfold stopAll. apply preserves_bind; [by intros s H|intros s].
  apply preserves_bind; [|intros _; apply preserves_ret].
  apply preserves_for_each. intros n.
  apply preserves_bind; [apply preserves_valid_stop|intros _; apply preserves_ret].
Qed.

Lemma preserves_valid_destroy : preserves valid destroy.
Proof.
  unfold destroy, console_log.
  apply preserves_bind; [apply preserves_valid_stopAll|intros _].
  apply preserves_valid_same_store. intros s. by repeat split.
Qed.

Lemma valid_exec c s : valid s -> valid (exec c s).
Proof.
  intros H. destruct c; simpl;
    try (by first
      [ apply preserves_valid_schedule | apply preserves_valid_stop
      | apply preserves_valid_stopAll | apply preserves_valid_destroy
      | apply preserves_valid_executeNow | apply preserves_valid_executeNow_begin
      | apply preserves_valid_executeNow_resume
      | apply preserves_valid_callback_resume
      | apply preserves_valid_executeTask_resume
      | apply preserves_valid_schedule_begin ]).
  - unfold on_timer. destruct (timers s !! id) as [[n ms]|]; [|done].
    by apply preserves_valid_callback.
  - unfold on_timer. destruct (timers s !! id) as [[n ms]|]; [|done].
    by apply preserves_valid_callback_begin.
  - destruct (validate taskName func0 interval0 options) as [e|r]; [done|].
    by apply preserves_valid_schedule_finish.
Qed.

Lemma valid_exec_all cs : forall s, valid s -> valid (exec_all cs s).
Proof.
  induction cs as [|c cs IH]; intros s H; [done|].
  simpl. apply IH. by apply valid_exec.
Qed.

Lemma reachable_valid s : reachable s -> valid s.
Proof. intros [cs ->]. apply valid_exec_all, wf_valid, wf_new_scheduler. Qed.

Lemma reachable_exec c s : reachable s -> reachable (exec c s).
Proof.
  intros [cs ->]. exists (cs ++ [c]). unfold exec_all. by rewrite foldl_app.
Qed.

(** *** [schedule] and [stopAll] when timers may have been leaked *)

Lemma validate_ok n f i options :
  name_missing (Some n) = false -> interval_rejected (resolve i) = false ->
  validate (Some n) (Function f) i options = inr (registration n f i options).
Proof. intros Hn Hi. unfold validate. by rewrite Hn, Hi. Qed.

(** A call that passes the three validations: the first half stops the
    name and runs the action if asked to, the second half registers. *)
Lemma schedule_registers s n f i options now out :
  valid s -> name_missing (Some n) = false -> interval_rejected (resolve i) = false ->
  exists b s1 s2,
    stop n s = (Ok b, s1) /\ valid s1 /\ same_store s1 s2 /\
    tasks s1 = JsMap.delete (tasks s) n /\ heap s1 = heap s /\
    nextTimer s1 = nextTimer s /\
    trace s2 = trace s1 ++ immediate_events options f out /\
    schedule_begin (Some n) (Function f) i options out s
    = (Ok (registration n f i options), s2) /\
    schedule (Some n) (Function f) i options now out s
    = (Ok tt, registered s2 n (new_task s f i options now)) /\
    valid (registered s2 n (new_task s f i options now)).
Proof.
  intros Hv Hname Hint.
  destruct (stop_valid_spec s n Hv) as (b&s1&Hstop&Hv1&Ht1&Hh1&Hn1&_).
  destruct (run_immediately_spec (runImmediately options) f out s1)
    as (s2&Hrun&Hs2&Htr2).
  assert (Hb : schedule_begin (Some n) (Function f) i options out s
               = (Ok (registration n f i options), s2)).
  { unfold schedule_begin. rewrite (validate_ok _ _ _ _ Hname Hint). simpl.
    step Hstop. by step Hrun. }
  exists b, s1, s2. split_and!; try done.
  - rewrite schedule_split. step Hb. rewrite schedule_finish_spec.
    destruct Hs2 as (_&_&_&Hn2). unfold new_task, registration. simpl.
    by rewrite <- Hn1, Hn2.
  - apply valid_registered.
    + by eapply same_store_valid.
    + destruct Hs2 as (_&_&_&<-). by rewrite Hn1.
Qed.

(** The loop of [stopAll]: every name is stopped in turn, which clears the
    timer that its object holds; a timer that no registered object holds is
    not touched. *)
Lemma stop_each_valid_spec ks : forall s,
  valid s -> JsMap.keys (tasks s) = ks ->
  exists s', for_each ks (λ taskName, stop taskName;; mret tt) s = (Ok tt, s') /\
    valid s' /\ tasks s' = [] /\ heap s' = heap s /\ nextTimer s' = nextTimer s /\
    (forall n l o, JsMap.get (tasks s) n = Some l -> heap s !! l = Some o ->
       timers s' !! timerId o = None) /\
    (forall id x, timers s' !! id = Some x -> timers s !! id = Some x) /\
    (forall id,
       (forall n l o, JsMap.get (tasks s) n = Some l -> heap s !! l = Some o ->
          timerId o <> id) ->
       timers s' !! id = timers s !! id).
Proof.
  induction ks as [|k ks IH]; intros s Hv Hk.
  - exists s. apply fmap_nil_inv in Hk. split_and!; try done.
    intros n l o Hg. by rewrite Hk in Hg.
  - assert (Hgk : exists l, JsMap.get (tasks s) k = Some l).
    { unfold JsMap.keys in Hk. destruct (tasks s) as [|[k' l] m]; [done|].
      rewrite fmap_cons in Hk. injection Hk as -> _. exists l. simpl.
      by rewrite decide_True. }
    destruct Hgk as [lk Hgk].
    destruct (valid_entry _ Hv _ _ Hgk) as (ok&Hok&Htk).
    pose proof (stop_present _ _ _ _ Hgk Hok) as Hstop.
    pose proof (valid_stopped _ _ _ _ Hv Hgk Hok) as Hv1.
    assert (Hk1 : JsMap.keys (tasks (stopped s k ok)) = ks).
    { simpl. pose proof (valid_nodup _ Hv) as Hnd. unfold JsMap.keys in *.
      destruct (tasks s) as [|[k' l] m]; [done|].
      rewrite fmap_cons in Hk, Hnd. injection Hk as -> Hk.
      apply NoDup_cons in Hnd as [Hnotin _]. simpl. rewrite decide_True by done.
      rewrite JsMapFacts.delete_absent; [done|]. by apply JsMapFacts.get_None_keys. }
    destruct (IH _ Hv1 Hk1) as (s'&Hf&Hv'&Ht'&Hh'&Hn'&Hown&Hsub&Hfree).
    exists s'. split_and!; try done.
    + simpl. erewrite bind_ok; [exact Hf|]. by step Hstop.
    + intros n l o Hg Ho. destruct (decide (k = n)) as [<-|Hne].
      * rewrite Hgk in Hg. injection Hg as <-. rewrite Hok in Ho.
        injection Ho as <-.
        destruct (timers s' !! timerId ok) as [x|] eqn:Hx; [|done].
        apply Hsub in Hx. simpl in Hx. by rewrite lookup_delete_eq in Hx.
      * apply (Hown n l o); simpl; [|done].
        by rewrite JsMapFacts.get_delete_ne.
    + intros id x Hx. apply Hsub in Hx. simpl in Hx.
      destruct (decide (timerId ok = id)) as [<-|Hne].
      * by rewrite lookup_delete_eq in Hx.
      * by rewrite lookup_delete_ne in Hx.
    + intros id Hid. rewrite Hfree.
      * simpl. apply lookup_delete_ne. by apply (Hid k lk ok).
      * intros n l o Hg Ho. simpl in Hg, Ho.
        destruct (decide (k = n)) as [<-|Hne].
        { by rewrite JsMapFacts.get_delete_eq in Hg. }
        rewrite JsMapFacts.get_delete_ne in Hg by done. by apply (Hid n l o).
Qed.

Lemma stopAll_valid_spec s :
  valid s ->
  exists s', stopAll s = (Ok (JsMap.size (tasks s)), s') /\ valid s' /\
    tasks s' = [] /\ heap s' = heap s /\ nextTimer s' = nextTimer s /\
    (forall n l o, JsMap.get (tasks s) n = Some l -> heap s !! l = Some o ->
       timers s' !! timerId o = None) /\
    (forall id x, timers s' !! id = Some x -> timers s !! id = Some x) /\
    (forall id,
       (forall n l o, JsMap.get (tasks s) n = Some l -> heap s !! l = Some o ->
          timerId o <> id) ->
       timers s' !! id = timers s !! id).
Proof.
  intros Hv.
  destruct (stop_each_valid_spec _ s Hv eq_refl)
    as (s'&Hf&Hv'&Ht'&Hh'&Hn'&Hown&Hsub&Hfree).
  exists s'. split_and!; try done.
  unfold stopAll. erewrite bind_ok; [|reflexivity]. by step Hf.
Qed.

(** *** A cleared timer stays cleared *)

Section KeepsRetired.

Lemma keeps_ret {A} (a : A) : keeps_retired (mret a).
Proof. by intros id s H. Qed.

Lemma keeps_throw {A} e : keeps_retired (@throw A e).
Proof. by intros id s H. Qed.

Lemma keeps_this : keeps_retired this.
Proof. by intros id s H. Qed.

Lemma keeps_bind {A B} (m : Js A) (k : A -> Js B) :
  keeps_retired m -> (forall a, keeps_retired (k a)) -> keeps_retired (m ≫= k).
Proof.
  intros Hm Hk id s H. specialize (Hm id s H).
  unfold mbind, Js_bind. destruct (m s) as [[a|e] s1]; simpl in *; [|done].
  by apply Hk.
Qed.

Lemma keeps_try_catch {A} (m : Js A) h :
  keeps_retired m -> (forall e, keeps_retired (h e)) -> keeps_retired (try_catch m h).
Proof.
  intros Hm Hh id s H. specialize (Hm id s H).
  unfold try_catch. destruct (m s) as [[a|e] s1]; simpl in *; [done|].
  by apply Hh.
Qed.

Lemma keeps_modify f :
  (forall s, timers (f s) = timers s /\ nextTimer (f s) = nextTimer s) ->
  keeps_retired (modify f).
Proof.
  intros Hf id s [H1 H2]. destruct (Hf s) as [Ht Hn].
  unfold retired. simpl. by rewrite Ht, Hn.
Qed.

Lemma keeps_emit e : keeps_retired (emit e).
Proof. by apply keeps_modify. Qed.

Lemma keeps_read l : keeps_retired (read l).
Proof. intros id s H. unfold read. by destruct (heap s !! l). Qed.

Lemma keeps_alloc o : keeps_retired (alloc o).
Proof. by intros id s H. Qed.

Lemma keeps_clearInterval i : keeps_retired (clearInterval i).
Proof.
  intros id s [H1 H2]. split; simpl; [|done].
  destruct (decide (i = id)) as [->|Hne].
  - apply lookup_delete_eq.
  - by rewrite lookup_delete_ne.
Qed.

(** The one place where a timer is armed: the handle is new. *)
Lemma keeps_setInterval n ms : keeps_retired (setInterval n ms).
Proof.
  intros id s [H1 H2]. split; simpl; [|lia].
  rewrite lookup_insert_ne; [done|lia].
Qed.

Lemma keeps_for_each {A} (l : list A) body :
  (forall x, keeps_retired (body x)) -> keeps_retired (for_each l body).
Proof.
  intros Hb. induction l as [|x l IH]; simpl.
  - apply keeps_ret.
  - apply keeps_bind; auto.
Qed.

End KeepsRetired.

Ltac keeps :=
  repeat first
    [ progress intros
    | apply keeps_bind | apply keeps_try_catch | apply keeps_for_each
    | apply keeps_ret | apply keeps_throw | apply keeps_this | apply keeps_emit
    | apply keeps_read | apply keeps_alloc | apply keeps_clearInterval
    | apply keeps_setInterval
    | apply keeps_modify; intros; by split
    | match goal with
      | |- keeps_retired (match ?x with _ => _ end) => destruct x
      | |- keeps_retired (if ?x then _ else _) => destruct x
      end ].

Lemma keeps_executeTask_begin f out : keeps_retired (executeTask_begin f out).
Proof. unfold executeTask_begin, call, console_error. keeps. Qed.

Lemma keeps_executeTask_resume f r : keeps_retired (executeTask_resume f r).
Proof. unfold executeTask_resume, await, console_error. keeps. Qed.

Lemma keeps_stop n : keeps_retired (stop n).
Proof. unfold stop, console_log. keeps. Qed.

Lemma keeps_incr_executionCount l : keeps_retired (incr_executionCount l).
Proof. unfold incr_executionCount. keeps. Qed.

Lemma keeps_callback_begin n out : keeps_retired (callback_begin n out).
Proof. unfold callback_begin. keeps. Qed.

Lemma keeps_callback_resume n k : keeps_retired (callback_resume n k).
Proof.
  unfold callback_resume.
  apply keeps_bind; [apply keeps_executeTask_resume|intros _].
  apply keeps_bind; [apply keeps_incr_executionCount|intros _].
  apply keeps_bind; [apply keeps_read|intros o].
  destruct (cap_reached o); [|apply keeps_ret].
  apply keeps_bind; [apply keeps_stop|intros _; apply keeps_ret].
Qed.

Lemma keeps_callback n out : keeps_retired (callback n out).
Proof.
  unfold callback. apply keeps_bind; [apply keeps_callback_begin|].
  intros [k|]; [apply keeps_callback_resume|apply keeps_ret].
Qed.

Lemma keeps_executeNow_begin n out : keeps_retired (executeNow_begin n out).
Proof. unfold executeNow_begin. keeps. Qed.

Lemma keeps_executeNow_resume k : keeps_retired (executeNow_resume k).
Proof.
  unfold executeNow_resume.
  apply keeps_bind; [apply keeps_executeTask_resume|intros _].
  apply keeps_bind; [apply keeps_incr_executionCount|intros _; apply keeps_ret].
Qed.

Lemma keeps_executeNow n out : keeps_retired (executeNow n out).
Proof.
  unfold executeNow. apply keeps_bind; [apply keeps_executeNow_begin|].
  intros [b|k]; [apply keeps_ret|apply keeps_executeNow_resume].
Qed.

Lemma keeps_stopAll : keeps_retired stopAll.
Proof.
  unfold stopAll. apply keeps_bind; [apply keeps_this|intros s].
  apply keeps_bind; [|intros _; apply keeps_ret].
  apply keeps_for_each. intros n.
  apply keeps_bind; [apply keeps_stop|intros _; apply keeps_ret].
Qed.

Lemma keeps_destroy : keeps_retired destroy.
Proof.
  unfold destroy, console_log.
  apply keeps_bind; [apply keeps_stopAll|intros _; apply keeps_emit].
Qed.

Lemma keeps_schedule n func i options now out :
  keeps_retired (schedule n func i options now out).
Proof.
  unfold schedule. destruct (name_missing n); [apply keeps_throw|].
  destruct n as [n|]; [|apply keeps_throw].
  destruct func as [f|]; [|apply keeps_throw].
  destruct (interval_rejected (resolve i)); [apply keeps_throw|].
  apply keeps_bind; [apply keeps_stop|intros _].
  apply keeps_bind.
  { destruct (runImmediately options); [|apply keeps_ret].
    apply keeps_bind; [apply keeps_executeTask_begin|intros _; apply keeps_ret]. }
  intros _. apply keeps_bind; [apply keeps_setInterval|intros id].
  apply keeps_bind; [apply keeps_alloc|intros l].
  apply keeps_bind; [by apply keeps_modify|intros _].
  apply keeps_emit.
Qed.

Lemma keeps_schedule_begin n func i options out :
  keeps_retired (schedule_begin n func i options out).
Proof.
  unfold schedule_begin. destruct (validate n func i options) as [e|r];
    [apply keeps_throw|].
  apply keeps_bind; [apply keeps_stop|intros _].
  apply keeps_bind; [|intros _; apply keeps_ret].
  destruct (runImmediately (r_options r)); [|apply keeps_ret].
  apply keeps_bind; [apply keeps_executeTask_begin|intros _; apply keeps_ret].
Qed.

Lemma keeps_schedule_finish r now : keeps_retired (schedule_finish r now).
Proof.
  unfold schedule_finish.
  apply keeps_bind; [apply keeps_setInterval|intros id].
  apply keeps_bind; [apply keeps_alloc|intros l].
  apply keeps_bind; [by apply keeps_modify|intros _].
  apply keeps_emit.
Qed.

Lemma retired_exec c id s : retired id s -> retired id (exec c s).
Proof.
  intros H. destruct c; simpl;
    try (by first
      [ apply keeps_schedule | apply keeps_stop | apply keeps_stopAll
      | apply keeps_destroy | apply keeps_executeNow
      | apply keeps_executeNow_begin | apply keeps_executeNow_resume
      | apply keeps_callback_resume | apply keeps_executeTask_resume
      | apply keeps_schedule_begin ]).
  - unfold on_timer. destruct (timers s !! id0) as [[n ms]|]; [|done].
    by apply keeps_callback.
  - unfold on_timer. destruct (timers s !! id0) as [[n ms]|]; [|done].
    by apply keeps_callback_begin.
  - destruct (validate taskName func0 interval0 options) as [e|r]; [done|].
    by apply keeps_schedule_finish.
Qed.

Lemma retired_exec_all cs : forall id s, retired id s -> retired id (exec_all cs s).
Proof.
  induction cs as [|c cs IH]; intros id s H; [done|].
  simpl. apply IH. by apply retired_exec.
Qed.

(** A retired timer never fires, whatever happens afterwards. *)
Lemma retired_never_fires id s cs out :
  retired id s -> fire id out (exec_all cs s) = None.
Proof.
  intros H. destruct (retired_exec_all cs id s H) as [Hn _].
  unfold fire. by rewrite Hn.
Qed.

(** *** Queries *)

Lemma getTask_present s n l o :
  JsMap.get (tasks s) n = Some l -> heap s !! l = Some o ->
  getTask n s = (Ok (Some (snapshot n o)), s).
Proof.
  intros Hg Ho. unfold getTask. erewrite bind_ok; [|reflexivity]. rewrite Hg.
  by erewrite bind_ok; [|by unfold read; rewrite Ho].
Qed.

Lemma getTask_absent s n :
  JsMap.get (tasks s) n = None -> getTask n s = (Ok None, s).
Proof.
  intros Hg. unfold getTask. erewrite bind_ok; [|reflexivity]. by rewrite Hg.
Qed.

Lemma hasTask_spec s n : hasTask n s = (Ok (JsMap.has (tasks s) n), s).
Proof. reflexivity. Qed.

(** *** [schedule], in full *)

Lemma schedule_spec s n f i options now out :
  wf s -> name_missing (Some n) = false -> interval_rejected (resolve i) = false ->
  exists s2,
    schedule (Some n) (Function f) i options now out s
    = (Ok tt, registered s2 n (new_task s f i options now)) /\
    wf (registered s2 n (new_task s f i options now)) /\
    tasks s2 = JsMap.delete (tasks s) n /\ heap s2 = heap s /\
    nextTimer s2 = nextTimer s /\
    (JsMap.get (tasks s) n = None ->
     timers s2 = timers s /\
     trace s2 = trace s ++ immediate_events options f out) /\
    (forall l o, JsMap.get (tasks s) n = Some l -> heap s !! l = Some o ->
     timers s2 = delete (timerId o) (timers s) /\
     trace s2 = trace s ++ [ClearInterval (timerId o); ConsoleLog (Stopped n)]
                  ++ immediate_events options f out).
Proof.
  intros Hwf Hname Hint.
  destruct (schedule_valid_spec s n f i options now out Hwf Hname Hint)
    as (b&s1&s2&Hstop&Hwf1&Hs2&Ht1&Hh1&Hn1&Htr2&Hsch&Hwf').
  destruct Hs2 as (Ht2&Hh2&Hm2&Hn2).
  exists s2. split_and!; try congruence.
  - intros Hg. rewrite (stop_absent _ _ Hg) in Hstop. injection Hstop as _ <-.
    by rewrite <- Hm2.
  - intros l o Hg Ho. rewrite (stop_present _ _ _ _ Hg Ho) in Hstop.
    injection Hstop as _ <-. rewrite <- Hm2, Htr2. split; [done|].
    simpl. by rewrite <- !app_assoc.
Qed.

(** The entry that a successful [schedule] leaves under the name. *)
Lemma registered_lookup s n o :
  JsMap.get (tasks (registered s n o)) n = Some (length (heap s)) /\
  heap (registered s n o) !! length (heap s) = Some o.
Proof.
  split; simpl.
  - apply JsMapFacts.get_set_eq.
  - by apply list_lookup_middle.
Qed.

(** *** Numbers *)

Lemma interval_rejected_not_positive x : interval_rejected x = negb (lt zero x).
Proof. destruct x as [sg|sg| |sg m e]; try destruct sg; reflexivity. Qed.

Lemma positive_finite_positive x : positive_finite x = true -> lt zero x = true.
Proof. unfold positive_finite. by intros [_ ?]%andb_true_iff. Qed.

(** ** The properties of the specification *)

(** *** Interval resolution and validation *)

(** C2, as stated, fails: [Infinity] is not a finite number, and [schedule]
    accepts it, registers the task and stores [Infinity] as its interval. *)
Lemma C2_infinity_is_accepted :
  let call := schedule ping (Function 0%nat) (Millis Infinity) no_options 0 ReturnsVoid in
  positive_finite (resolve (Millis Infinity)) = false /\
  well_formed Infinity = true /\
  value call new_scheduler = Ok tt /\
  value (getTask "ping") (run call new_scheduler)
  = Ok (Some {| name := "ping"; info_interval := Infinity; info_startTime := 0;
                info_executionCount := 0; isActive := true |}).
Proof. vm_compute. by split_and!. Qed.

(** C2, amended: a symbolic interval resolves through the fixed table, a
    numeric interval is used as it is, and a call with a valid name and a
    function throws exactly when the resolved value is not above zero, that
    is when it is [NaN], a zero or negative; the error names the interval.
    Every value above zero is accepted and stored, [Infinity] included. *)
Theorem C2_interval_resolution s n f i options now out :
  wf s -> name_missing (Some n) = false ->
  let call := schedule (Some n) (Function f) i options now out in
  (forall u, resolve (Unit u) =
     lit match u with
         | second => 1000 | minute => 60000 | hour => 3600000
         | day => 86400000 | week => 604800000
         end) /\
  (forall x, resolve (Millis x) = x) /\
  ((exists e, value call s = Throw e) <-> lt zero (resolve i) = false) /\
  (forall e, value call s = Throw e -> e = InvalidInterval i) /\
  (lt zero (resolve i) = true ->
   value call s = Ok tt /\
   value (getTask n) (run call s)
   = Ok (Some {| name := n; info_interval := resolve i; info_startTime := now;
                 info_executionCount := 0; isActive := true |}) /\
   timers (run call s) !! nextTimer s = Some (n, resolve i)).
Proof.
  intros Hwf Hname call.
  assert (Hok : lt zero (resolve i) = true ->
    exists s2, call s = (Ok tt, registered s2 n (new_task s f i options now))
               /\ nextTimer s2 = nextTimer s).
  { intros Hpos.
    assert (Hint : interval_rejected (resolve i) = false)
      by (by rewrite interval_rejected_not_positive, Hpos).
    destruct (schedule_spec s n f i options now out Hwf Hname Hint)
      as (s2&Hs&_&_&_&Hn2&_).
    by exists s2. }
  assert (Hbad : lt zero (resolve i) = false ->
    call s = (Throw (InvalidInterval i), s)).
  { intros Hneg. unfold call, schedule. rewrite Hname.
    by rewrite interval_rejected_not_positive, Hneg. }
  split_and!.
  - by intros [].
  - done.
  - split.
    + intros [e He]. destruct (lt zero (resolve i)) eqn:Hpos; [|done].
      destruct (Hok eq_refl) as (s2&Hs&_). unfold value in He. by rewrite Hs in He.
    + intros Hneg. exists (InvalidInterval i). unfold value. by rewrite Hbad.
  - intros e He. destruct (lt zero (resolve i)) eqn:Hpos.
    + destruct (Hok eq_refl) as (s2&Hs&_). unfold value in He. by rewrite Hs in He.
    + unfold value in He. rewrite Hbad in He by done. by injection He.
  - intros Hpos. destruct (Hok Hpos) as (s2&Hs&Hn2).
    destruct (registered_lookup s2 n (new_task s f i options now)) as [Hg Ho].
    unfold value, run. rewrite Hs. simpl fst. simpl snd.
    rewrite (getTask_present _ _ _ _ Hg Ho). split_and!; try done.
    simpl. rewrite Hn2. apply lookup_insert_eq.
Qed.

Lemma C2_interval_resolution_witness :
  let call := schedule ping (Function 0%nat) (Unit minute) no_options 7 ReturnsVoid in
  value call new_scheduler = Ok tt /\
  timers (run call new_scheduler) !! 0%nat = Some ("ping", lit 60000).
Proof.
  pose proof (C2_interval_resolution new_scheduler "ping" 0%nat (Unit minute)
                no_options 7 ReturnsVoid wf_new_scheduler eq_refl)
    as (_&_&_&_&H).
  destruct (H eq_refl) as (H1&_&H3). split; [exact H1|exact H3].
Defined.

(** *** White space

    What [trim] leaves of a name, by the code points it is made of. *)

Lemma string_ind3 (P : string -> Prop) :
  P "" ->
  (forall c r, P r -> (forall c2 r2, r = String c2 r2 -> P r2) ->
     (forall c2 c3 r3, r = String c2 (String c3 r3) -> P r3) -> P (String c r)) ->
  forall s, P s.
Proof.
  intros H0 Hstep s.
  assert (H : P s /\ (forall c2 r2, s = String c2 r2 -> P r2)
              /\ (forall c2 c3 r3, s = String c2 (String c3 r3) -> P r3)).
  { induction s as [|c r (IH1&IH2&IH3)].
    - by split_and!.
    - split_and!.
      + by apply (Hstep c r).
      + by intros c2 r2 [= _ <-].
      + intros c2 c3 r3 [= _ Hr]. by apply (IH2 c3).  }
  by destruct H.
Qed.

Lemma trimStart_all_space s : all_space s = true -> trimStart s = "".
Proof.
  induction s as [|c1 r1 IH1 IH2 IH3] using string_ind3; [done|].
  cbn [all_space trimStart]. destruct (is_space c1); [done|].
  destruct r1 as [|c2 r2]; [done|].
  destruct (is_space2 c1 c2); [by apply (IH2 c2)|].
  destruct r2 as [|c3 r3]; [done|].
  destruct (is_space3 c1 c2 c3); [|done]. by apply (IH3 c2 c3).
Qed.

Lemma trimEnd_of_trimStart s :
  all_space s = false -> trimEnd (trimStart s) <> "".
Proof.
  induction s as [|c1 r1 IH1 IH2 IH3] using string_ind3; [done|].
  cbn [all_space trimStart]. destruct (is_space c1) eqn:H1; [done|].
  destruct r1 as [|c2 r2].
  { intros _. cbn [trimEnd]. by rewrite H1. }
  destruct (is_space2 c1 c2) eqn:H2; [by apply (IH2 c2)|].
  destruct r2 as [|c3 r3].
  { intros _. cbn [trimEnd]. by rewrite H1, H2. }
  destruct (is_space3 c1 c2 c3) eqn:H3; [by apply (IH3 c2 c3)|].
  intros _. cbn [trimEnd]. by rewrite H1, H2, H3.
Qed.

(** The three tests on bytes accept the encodings of the white-space code
    points and nothing else. *)
Lemma all_space_utf8 cp r :
  cp ∈ white_space_code_points -> all_space (utf8 cp ++ r) = all_space r.
Proof.
  intros H. unfold white_space_code_points in H.
  repeat (apply elem_of_cons in H as [->|H]; [reflexivity|]).
  by apply not_elem_of_nil in H.
Qed.

Lemma ascii_of_code c n : N_of_ascii c = n -> c = ascii_of_N n.
Proof. intros <-. by rewrite ascii_N_embedding. Qed.

Lemma is_space_code_point c :
  is_space c = true ->
  exists cp, cp ∈ white_space_code_points /\ utf8 cp = String c "".
Proof.
  unfold is_space. intros H. exists (N_of_ascii c).
  assert (Hc : (N_of_ascii c = 9 \/ N_of_ascii c = 10 \/ N_of_ascii c = 11 \/
                N_of_ascii c = 12 \/ N_of_ascii c = 13 \/ N_of_ascii c = 32)%N).
  { apply orb_prop in H as [H|H].
    - apply andb_prop in H as [H1 H2]. apply N.leb_le in H1, H2. lia.
    - apply N.eqb_eq in H. lia. }
  destruct Hc as [Hc|[Hc|[Hc|[Hc|[Hc|Hc]]]]]; rewrite Hc;
    apply ascii_of_code in Hc; subst c;
    (split; [apply (bool_decide_unpack _); by vm_compute|reflexivity]).
Qed.

Lemma is_space2_code_point c1 c2 :
  is_space2 c1 c2 = true ->
  exists cp, cp ∈ white_space_code_points /\ utf8 cp = String c1 (String c2 "").
Proof.
  unfold is_space2. intros H. apply andb_prop in H as [H1 H2].
  apply N.eqb_eq, ascii_of_code in H1, H2. subst. exists 160%N.
  split; [apply (bool_decide_unpack _); by vm_compute|reflexivity].
Qed.

Lemma is_space3_code_point c1 c2 c3 :
  is_space3 c1 c2 c3 = true ->
  exists cp, cp ∈ white_space_code_points /\
             utf8 cp = String c1 (String c2 (String c3 "")).
Proof.
  unfold is_space3. intros H.
  exists ((N_of_ascii c1 - 224) * 4096 + (N_of_ascii c2 - 128) * 64
          + (N_of_ascii c3 - 128))%N.
  assert (Hc : exists a b c, N_of_ascii c1 = a /\ N_of_ascii c2 = b /\
                 N_of_ascii c3 = c /\
                 (a, b, c) ∈ [(225, 154, 128); (226, 128, 128); (226, 128, 129);
                              (226, 128, 130); (226, 128, 131); (226, 128, 132);
                              (226, 128, 133); (226, 128, 134); (226, 128, 135);
                              (226, 128, 136); (226, 128, 137); (226, 128, 138);
                              (226, 128, 168); (226, 128, 169); (226, 128, 175);
                              (226, 129, 159); (227, 128, 128);
                              (239, 187, 191)]%N).
  { exists (N_of_ascii c1), (N_of_ascii c2), (N_of_ascii c3).
    split_and!; try done.
    repeat match type of H with
           | (_ || _) = true => apply orb_prop in H as [H|H]
           | (_ && _) = true =>
               let H1 := fresh in let H2 := fresh in
               apply andb_prop in H as [H1 H2];
               try apply N.eqb_eq in H1; try apply N.eqb_eq in H2;
               try apply N.leb_le in H1; try apply N.leb_le in H2
           | (_ =? _)%N = true => apply N.eqb_eq in H
           end.
    all: repeat match goal with
                | H : (_ || _) = true |- _ => apply orb_prop in H as [H|H]
                | H : (_ && _) = true |- _ => apply andb_prop in H as [? ?]
                | H : (_ =? _)%N = true |- _ => apply N.eqb_eq in H
                | H : (_ <=? _)%N = true |- _ => apply N.leb_le in H
                end.
    all: repeat match goal with H : N_of_ascii _ = _ |- _ => rewrite H; clear H end.
    all: try (apply (bool_decide_unpack _); by vm_compute).
    all: assert (Hr : (N_of_ascii c3 = 128 \/ N_of_ascii c3 = 129 \/
                       N_of_ascii c3 = 130 \/ N_of_ascii c3 = 131 \/
                       N_of_ascii c3 = 132 \/ N_of_ascii c3 = 133 \/
                       N_of_ascii c3 = 134 \/ N_of_ascii c3 = 135 \/
                       N_of_ascii c3 = 136 \/ N_of_ascii c3 = 137 \/
                       N_of_ascii c3 = 138)%N) by lia.
    all: repeat destruct Hr as [Hr|Hr]; rewrite Hr;
         apply (bool_decide_unpack _); by vm_compute. }
  destruct Hc as (a&b&c&Ha&Hb&Hc&Hin). rewrite Ha, Hb, Hc.
  apply ascii_of_code in Ha, Hb, Hc. subst c1 c2 c3.
  repeat (apply elem_of_cons in Hin as [[= -> -> ->]|Hin];
          [split; [apply (bool_decide_unpack _); by vm_compute|reflexivity]|]).
  by apply not_elem_of_nil in Hin.
Qed.

(** A string is made of white space only exactly when it is the encoding of
    a sequence of white-space code points. *)
Lemma all_space_code_points x :
  all_space x = true
  <-> exists cps, Forall (λ cp, cp ∈ white_space_code_points) cps /\ x = utf8s cps.
Proof.
  split.
  - induction x as [|c1 r1 IH1 IH2 IH3] using string_ind3.
    { intros _. by exists []. }
    cbn [all_space]. destruct (is_space c1) eqn:H1.
    { intros Hr. destruct (IH1 Hr) as (cps&Hall&->).
      destruct (is_space_code_point _ H1) as (cp&Hcp&Henc).
      exists (cp :: cps). split; [by constructor|]. simpl. by rewrite Henc. }
    destruct r1 as [|c2 r2]; [done|].
    destruct (is_space2 c1 c2) eqn:H2.
    { intros Hr. destruct (IH2 c2 r2 eq_refl Hr) as (cps&Hall&->).
      destruct (is_space2_code_point _ _ H2) as (cp&Hcp&Henc).
      exists (cp :: cps). split; [by constructor|]. simpl. by rewrite Henc. }
    destruct r2 as [|c3 r3]; [done|].
    intros [H3 Hr]%andb_prop. destruct (IH3 c2 c3 r3 eq_refl Hr) as (cps&Hall&->).
    destruct (is_space3_code_point _ _ _ H3) as (cp&Hcp&Henc).
    exists (cp :: cps). split; [by constructor|]. simpl. by rewrite Henc.
  - intros (cps&Hall&->). induction Hall as [|cp cps Hcp Hall IH]; [done|].
    simpl. by rewrite all_space_utf8.
Qed.

Lemma name_missing_all_space x : name_missing (Some x) = all_space x.
Proof.
  unfold name_missing, trim. destruct (all_space x) eqn:Hx.
  - rewrite trimStart_all_space by done. by apply bool_decide_eq_true_2.
  - apply bool_decide_eq_false_2. by apply trimEnd_of_trimStart.
Qed.

Lemma schedule_rejects s n func i options now out :
  let call := schedule n func i options now out in
  (name_missing n = true -> call s = (Throw TaskNameRequired, s)) /\
  (name_missing n = false -> func = NotAFunction ->
   call s = (Throw FunctionRequired, s)) /\
  (name_missing n = false -> func <> NotAFunction ->
   interval_rejected (resolve i) = true ->
   call s = (Throw (InvalidInterval i), s)).
Proof.
  intros call. unfold call, schedule. split_and!.
  - by intros ->.
  - intros Hn ->. rewrite Hn. by destruct n.
  - intros Hn Hf ->. rewrite Hn. destruct n; [|done]. by destruct func.
Qed.

Lemma error_messages_differ show i :
  exists m1 m2 m3,
    error_message show TaskNameRequired = Some m1 /\
    error_message show FunctionRequired = Some m2 /\
    error_message show (InvalidInterval i) = Some m3 /\
    m1 <> m2 /\ m1 <> m3 /\ m2 <> m3.
Proof.
  destruct i as [u|x]; do 3 eexists; (split_and!; [reflexivity..| | |]); discriminate.
Qed.

(** C8: a call that fails a validation throws the error of the first
    validation that fails, in the order name, action, interval, and leaves
    the scheduler as it was: no timer armed, no entry stored, nothing
    printed, every query answering as before.  The three errors carry three
    different messages, however the host prints the rejected number.  A name
    is missing when nothing is left of it after [trim], which strips the
    white space of Unicode and not only that of ASCII: the names that are
    rejected are [null], [undefined] and the sequences of white-space code
    points (the empty one included), and no others. *)
Theorem C8_failed_validation_registers_nothing s n func i options now out :
  let call := schedule n func i options now out in
  (name_missing n = true -> call s = (Throw TaskNameRequired, s)) /\
  (name_missing n = false -> func = NotAFunction ->
   call s = (Throw FunctionRequired, s)) /\
  (name_missing n = false -> func <> NotAFunction ->
   interval_rejected (resolve i) = true ->
   call s = (Throw (InvalidInterval i), s)) /\
  TaskNameRequired <> FunctionRequired /\
  TaskNameRequired <> InvalidInterval i /\
  FunctionRequired <> InvalidInterval i /\
  (forall e, value call s = Throw e -> valid s ->
     run call s = s /\
     (e = TaskNameRequired /\ name_missing n = true \/
      e = FunctionRequired /\ name_missing n = false /\ func = NotAFunction \/
      e = InvalidInterval i /\ name_missing n = false /\ func <> NotAFunction /\
        interval_rejected (resolve i) = true)) /\
  (forall show, exists m1 m2 m3,
     error_message show TaskNameRequired = Some m1 /\
     error_message show FunctionRequired = Some m2 /\
     error_message show (InvalidInterval i) = Some m3 /\
     m1 <> m2 /\ m1 <> m3 /\ m2 <> m3) /\
  (forall cp, cp ∈ white_space_code_points ->
     schedule (Some (utf8 cp)) func i options now out s
     = (Throw TaskNameRequired, s)) /\
  (name_missing n = true
   <-> n = None \/
       exists cps, Forall (λ cp, cp ∈ white_space_code_points) cps /\
                   n = Some (utf8s cps)).
Proof.
  intros call.
  destruct (schedule_rejects s n func i options now out) as (H1&H2&H3).
  split_and!; try done; cycle 3.
  { destruct n as [x|].
    - rewrite name_missing_all_space, all_space_code_points. split.
      + intros (cps&Hall&->). right. by exists cps.
      + intros [|(cps&Hall&[= ->])]; [done|]. by exists cps.
    - split; [by left|done]. }
  - intros e He Hv. unfold call, value, run in *.
    destruct (name_missing n) eqn:Hn.
    { rewrite (H1 eq_refl) in He |- *. injection He as <-. split; [done|]. by left. }
    destruct func as [f|]; cycle 1.
    { rewrite (H2 eq_refl eq_refl) in He |- *. injection He as <-. split; [done|].
      right. by left. }
    destruct (interval_rejected (resolve i)) eqn:Hi.
    { rewrite (H3 eq_refl ltac:(done) eq_refl) in He |- *. injection He as <-.
      split; [done|]. right. by right. }
    exfalso. destruct n as [n|]; [|done].
    destruct (schedule_registers s n f i options now out Hv Hn Hi)
      as (b&s1&s2&_&_&_&_&_&_&_&_&Hs&_).
    by rewrite Hs in He.
  - intros show. apply error_messages_differ.
  - intros cp Hcp.
    destruct (schedule_rejects s (Some (utf8 cp)) func i options now out) as (H&_).
    apply H. clear -Hcp. unfold white_space_code_points in Hcp.
    repeat (apply elem_of_cons in Hcp as [->|Hcp]; [by vm_compute|]).
    by apply not_elem_of_nil in Hcp.
Qed.

Lemma C8_failed_validation_registers_nothing_witness :
  schedule (Some "   ") NotAFunction (Millis zero) no_options 0 ReturnsVoid new_scheduler
    = (Throw TaskNameRequired, new_scheduler) /\
  schedule (Some (utf8 160)) (Function 0%nat) (Unit second) no_options 0 ReturnsVoid
           new_scheduler
    = (Throw TaskNameRequired, new_scheduler) /\
  schedule ping NotAFunction (Millis zero) no_options 0 ReturnsVoid new_scheduler
    = (Throw FunctionRequired, new_scheduler) /\
  schedule ping (Function 0%nat) (Millis NaN) no_options 0 ReturnsVoid new_scheduler
    = (Throw (InvalidInterval (Millis NaN)), new_scheduler).
Proof.
  split_and!.
  - apply (proj1 (C8_failed_validation_registers_nothing new_scheduler (Some "   ")
                    NotAFunction (Millis zero) no_options 0 ReturnsVoid)).
    reflexivity.
  - apply (proj1 (C8_failed_validation_registers_nothing new_scheduler
                    (Some (utf8 160)) (Function 0%nat) (Unit second) no_options 0
                    ReturnsVoid)).
    reflexivity.
  - apply (C8_failed_validation_registers_nothing new_scheduler ping
             NotAFunction (Millis zero) no_options 0 ReturnsVoid); reflexivity.
  - apply (C8_failed_validation_registers_nothing new_scheduler ping
             (Function 0%nat) (Millis NaN) no_options 0 ReturnsVoid);
      [reflexivity|discriminate|reflexivity].
Defined.

Lemma wf_sample : wf sample.
Proof. apply wf_schedule, wf_new_scheduler. Qed.

Lemma sample_lookup :
  JsMap.get (tasks sample) "ping" = Some 0%nat /\ heap sample !! 0%nat = Some sample_task.
Proof. by vm_compute. Qed.

(** C10: when [schedule] throws for a name that is registered, the scheduler
    is left exactly as it was; the old entry, its object (interval,
    startTime, executionCount, maxExecutions) and its armed timer are the
    ones from before the call, and the error is one of the three validation
    errors. *)
Theorem C10_failed_replacement_keeps_old_task s n l o func i options now out e s' :
  wf s -> JsMap.get (tasks s) n = Some l -> heap s !! l = Some o ->
  schedule (Some n) func i options now out s = (Throw e, s') ->
  (e = TaskNameRequired \/ e = FunctionRequired \/ e = InvalidInterval i) /\
  s' = s /\
  JsMap.get (tasks s') n = Some l /\ heap s' !! l = Some o /\
  value (getTask n) s' = Ok (Some (snapshot n o)) /\
  timers s' !! timerId o = Some (n, interval o) /\
  (forall out', fire (timerId o) out' s' = Some (callback n out' s)).
Proof.
  intros Hwf Hg Ho Hs.
  assert (He : (e = TaskNameRequired \/ e = FunctionRequired \/ e = InvalidInterval i)
               /\ s' = s).
  { destruct (name_missing (Some n)) eqn:Hn.
    - destruct (schedule_rejects s (Some n) func i options now out) as (H&_).
      rewrite (H Hn) in Hs. injection Hs as <- <-. auto.
    - destruct func as [f|].
      + destruct (interval_rejected (resolve i)) eqn:Hi.
        * destruct (schedule_rejects s (Some n) (Function f) i options now out)
            as (_&_&H).
          rewrite (H Hn ltac:(done) Hi) in Hs. injection Hs as <- <-. auto.
        * destruct (schedule_spec s n f i options now out Hwf Hn Hi) as (s2&H&_).
          by rewrite H in Hs.
      + destruct (schedule_rejects s (Some n) NotAFunction i options now out)
          as (_&H&_).
        rewrite (H Hn eq_refl) in Hs. injection Hs as <- <-. auto. }
  destruct He as [He ->]. destruct (wf_entry _ Hwf _ _ Hg) as (o'&Ho'&Ht).
  rewrite Ho in Ho'. injection Ho' as <-.
  split_and!; try done.
  - unfold value. by rewrite (getTask_present _ _ _ _ Hg Ho).
  - intros out'. unfold fire. by rewrite Ht.
Qed.

Lemma C10_failed_replacement_keeps_old_task_witness :
  schedule ping NotAFunction (Unit hour) no_options 9 ReturnsVoid sample
    = (Throw FunctionRequired, sample) /\
  value (getTask "ping") sample = Ok (Some (snapshot "ping" sample_task)) /\
  timers sample !! 0%nat = Some ("ping", lit 500).
Proof.
  destruct sample_lookup as [Hg Ho].
  assert (Hs : schedule ping NotAFunction (Unit hour) no_options 9 ReturnsVoid sample
               = (Throw FunctionRequired, sample)) by reflexivity.
  destruct (C10_failed_replacement_keeps_old_task sample "ping" 0%nat sample_task
              NotAFunction (Unit hour) no_options 9 ReturnsVoid FunctionRequired
              sample wf_sample Hg Ho Hs) as (_&_&_&_&H1&H2&_).
  split; [exact Hs|]. split; [exact H1|exact H2].
Defined.

(** *** Stopping *)

(** C7: [stop] never throws; it returns [true] exactly when the name is
    registered.  On an absent name it changes nothing at all.  On a registered
    name it clears the timer of the task, which never fires again, removes
    the entry and leaves every other entry, every object and every other
    timer as they were.  A second [stop] returns [false]. *)
Theorem C7_stop s n :
  wf s ->
  (exists b, value (stop n) s = Ok b /\
             (b = true <-> is_Some (JsMap.get (tasks s) n))) /\
  (JsMap.get (tasks s) n = None -> stop n s = (Ok false, s)) /\
  (forall l o, JsMap.get (tasks s) n = Some l -> heap s !! l = Some o ->
     let s' := run (stop n) s in
     value (stop n) s = Ok true /\
     value (hasTask n) s' = Ok false /\
     trace s' = trace s ++ [ClearInterval (timerId o); ConsoleLog (Stopped n)] /\
     retired (timerId o) s' /\
     (forall cs out, fire (timerId o) out (exec_all cs s') = None) /\
     (forall n', n' <> n -> JsMap.get (tasks s') n' = JsMap.get (tasks s) n') /\
     heap s' = heap s /\
     (forall id, id <> timerId o -> timers s' !! id = timers s !! id)) /\
  value (stop n) (run (stop n) s) = Ok false.
Proof.
  intros Hwf. split_and!.
  - destruct (stop_wf_spec s n Hwf) as (b&s'&H&_&_&_&_&Hb).
    exists b. unfold value. by rewrite H.
  - apply stop_absent.
  - intros l o Hg Ho s'. unfold s', value, run.
    rewrite (stop_present _ _ _ _ Hg Ho). simpl fst. simpl snd.
    assert (Hret : retired (timerId o) (stopped s n o)).
    { split; simpl; [apply lookup_delete_eq|].
      destruct (wf_entry _ Hwf _ _ Hg) as (o'&Ho'&Ht). rewrite Ho in Ho'.
      injection Ho' as <-. apply (wf_fresh _ Hwf). by eexists. }
    split_and!; try done.
    + simpl. f_equal. apply JsMapFacts.has_false, JsMapFacts.get_delete_eq.
    + simpl. by rewrite <- app_assoc.
    + intros cs out. by apply retired_never_fires.
    + intros n' Hne. simpl. by apply JsMapFacts.get_delete_ne.
    + intros id Hne. simpl. by apply lookup_delete_ne.
  - destruct (stop_wf_spec s n Hwf) as (b&s'&H&_&Ht&_).
    unfold value, run. rewrite H. simpl snd. rewrite stop_absent; [done|].
    rewrite Ht. apply JsMapFacts.get_delete_eq.
Qed.

Lemma C7_stop_witness :
  value (stop "ping") sample = Ok true /\
  value (hasTask "ping") (run (stop "ping") sample) = Ok false /\
  fire 0%nat ReturnsVoid (run (stop "ping") sample) = None /\
  value (stop "ping") (run (stop "ping") sample) = Ok false /\
  stop "pong" sample = (Ok false, sample).
Proof.
  destruct sample_lookup as [Hg Ho].
  destruct (C7_stop sample "ping" wf_sample) as (_&_&H&H2).
  destruct (H 0%nat sample_task Hg Ho) as (H3&H4&_&_&H5&_).
  destruct (C7_stop sample "pong" wf_sample) as (_&H6&_).
  split_and!; [exact H3|exact H4|exact (H5 [] ReturnsVoid)|exact H2|].
  apply H6. reflexivity.
Defined.

(** C9: [destroy] does not stop every timer.  After the call
    [s.schedule('ping', () => { s.schedule('ping', g, 500) }, 'second',
                { runImmediately: true })]
    one task is registered and two timers are armed: the one that the action
    armed belongs to no entry.  [stopAll] returns 1 and [destroy] leaves
    [taskCount] 0 and [getActiveTasks] empty, as claimed, but the timer of
    the registration made by the action is still armed and fires; as soon as
    the name is registered again that timer runs the new task. *)
Theorem C9_destroy_leaves_leaked_timer_firing :
  let s' := run destroy leaked in
  let again := schedule ping (Function 2%nat) (Unit minute) no_options 3 ReturnsVoid in
  reachable leaked /\
  value getActiveTasks leaked = Ok ["ping"] /\
  timers leaked = {[ 0%nat := ("ping", lit 500); 1%nat := ("ping", lit 1000) ]} /\
  value stopAll leaked = Ok 1%nat /\
  value destroy leaked = Ok tt /\
  value taskCount s' = Ok 0%nat /\
  value getActiveTasks s' = Ok [] /\
  timers s' = {[ 0%nat := ("ping", lit 500) ]} /\
  fire 0%nat ReturnsVoid s' = Some (Ok tt, s') /\
  value again s' = Ok tt /\
  exists s3,
    fire 0%nat ReturnsVoid (run again s') = Some (Ok tt, s3) /\
    trace s3 = trace (run again s') ++ [Invoked 2%nat] /\
    value (getTask "ping") s3
    = Ok (Some {| name := "ping"; info_interval := lit 60000; info_startTime := 3;
                  info_executionCount := 1; isActive := true |}).
Proof.
  split; [by exists reentrant_schedule|].
  split_and!; try by vm_compute.
  eexists. split_and!; by vm_compute.
Qed.

(** *** Registration *)

(** C4: names are unique in every state the scheduler can reach, and a
    successful [schedule] on a registered name first clears the timer of the
    old entry and removes the entry, then arms a new timer and stores a new
    object.  The first half of the call (up to the action run by
    [runImmediately]) leaves the name absent and the old timer cleared; the
    second half stores the new entry, so the name moves to the end of the
    registry: afterwards the name has exactly one entry, with the new
    interval, the time of this call as startTime and executionCount 0; names
    stay unique from then on, and the old timer never fires again.  All of
    this also holds when the action run by [runImmediately] calls the
    scheduler, whatever it calls. *)
Theorem C4_schedule_replaces s n l o f i options now out :
  valid s -> JsMap.get (tasks s) n = Some l -> heap s !! l = Some o ->
  name_missing (Some n) = false -> interval_rejected (resolve i) = false ->
  let call := schedule (Some n) (Function f) i options now out in
  let s' := run call s in
  value call s = Ok tt /\
  trace s' = trace s ++ [ClearInterval (timerId o); ConsoleLog (Stopped n)]
               ++ immediate_events options f out
               ++ [SetInterval (nextTimer s) n (resolve i);
                   ConsoleLog (Scheduled n (resolve i))] /\
  JsMap.bindings (tasks s') n = 1%nat /\
  (forall cs, NoDup (JsMap.keys (tasks (exec_all cs s')))) /\
  JsMap.get (tasks s') n = Some (length (heap s)) /\
  heap s' !! length (heap s) = Some (new_task s f i options now) /\
  length (heap s) <> l /\
  value (getTask n) s'
  = Ok (Some {| name := n; info_interval := resolve i; info_startTime := now;
                info_executionCount := 0; isActive := true |}) /\
  timers s' !! nextTimer s = Some (n, resolve i) /\
  nextTimer s <> timerId o /\
  retired (timerId o) s' /\
  (forall cs out', fire (timerId o) out' (exec_all cs s') = None) /\
  (forall s0, reachable s0 -> NoDup (JsMap.keys (tasks s0))) /\
  let first_half := schedule_begin (Some n) (Function f) i options out in
  let r := registration n f i options in
  let mid := run first_half s in
  value first_half s = Ok r /\
  same_store mid (stopped s n o) /\
  JsMap.get (tasks mid) n = None /\
  value (hasTask n) mid = Ok false /\
  timers mid !! timerId o = None /\
  s' = run (schedule_finish r now) mid /\
  tasks s' = JsMap.set (JsMap.delete (tasks s) n) n (length (heap s)) /\
  JsMap.keys (tasks s') = filter (λ k, k ≠ n) (JsMap.keys (tasks s)) ++ [n] /\
  timers s' = <[nextTimer s := (n, resolve i)]> (delete (timerId o) (timers s)) /\
  (forall cs,
     let s2 := run (schedule_finish r now) (exec_all cs mid) in
     JsMap.bindings (tasks s2) n = 1%nat /\
     NoDup (JsMap.keys (tasks s2)) /\
     value (getTask n) s2
     = Ok (Some {| name := n; info_interval := resolve i; info_startTime := now;
                   info_executionCount := 0; isActive := true |}) /\
     (forall cs' out', fire (timerId o) out' (exec_all cs' s2) = None)).
Proof.
  intros Hv Hg Ho Hname Hint call s'.
  destruct (schedule_registers s n f i options now out Hv Hname Hint)
    as (b&s1&s2&Hstop&Hv1&Hs2&Ht1&Hh1&Hn1&Htr2&Hbegin&Hs&Hv').
  rewrite (stop_present _ _ _ _ Hg Ho) in Hstop. injection Hstop as <- <-.
  destruct Hs2 as (Ht2&Hh2&Hm2&Hn2). simpl in Ht2, Hh2, Hm2, Hn2, Htr2.
  destruct (registered_lookup s2 n (new_task s f i options now)) as [Hg' Ho'].
  destruct (valid_entry _ Hv _ _ Hg) as (o0&Ho0&Hto). rewrite Ho in Ho0.
  injection Ho0 as <-.
  assert (Hlt : (timerId o < nextTimer s)%nat)
    by (apply (valid_fresh _ Hv); by eexists).
  assert (Hmid : retired (timerId o) s2).
  { split; [rewrite <- Hm2; apply lookup_delete_eq|lia]. }
  assert (Hret : retired (timerId o) (registered s2 n (new_task s f i options now))).
  { split; simpl; [|lia]. rewrite lookup_insert_ne by lia. apply Hmid. }
  unfold s', value, run, call. rewrite Hs, Hbegin. simpl fst. simpl snd.
  rewrite <- Hh2 in Hg', Ho'.
  split_and!; try done.
  - simpl. rewrite <- Hn2, Htr2. by rewrite <- !app_assoc.
  - apply JsMapFacts.bindings_present; [apply (valid_nodup _ Hv')|by eexists].
  - intros cs. by apply valid_nodup, valid_exec_all.
  - apply lookup_lt_Some in Ho. lia.
  - by rewrite (getTask_present _ _ _ _ Hg' Ho').
  - simpl. rewrite <- Hn2. apply lookup_insert_eq.
  - lia.
  - intros cs out'. by apply retired_never_fires.
  - intros s0 Hr. by apply valid_nodup, reachable_valid.
  - rewrite <- Ht2. apply JsMapFacts.get_delete_eq.
  - f_equal. apply JsMapFacts.has_false.
    rewrite <- Ht2. apply JsMapFacts.get_delete_eq.
  - apply Hmid.
  - unfold registered, new_task. simpl. by rewrite <- Hn2.
  - simpl. by rewrite <- Ht2, <- Hh2.
  - simpl. rewrite <- Ht2.
    rewrite JsMapFacts.keys_set_absent by apply JsMapFacts.get_delete_eq.
    by rewrite JsMapFacts.keys_delete.
  - simpl. by rewrite <- Hn2, <- Hm2.
  - intros cs.
    set (m := exec_all cs s2).
    set (o2 := {| timerId := nextTimer m; func := f; interval := resolve i;
                  startTime := now; executionCount := 0;
                  maxExecutions := opt_maxExecutions options |}).
    assert (Hvm : valid m).
    { apply valid_exec_all. by apply (same_store_valid (stopped s n o));
        [split_and!|]. }
    assert (Hv2 : valid (registered m n o2)) by (by apply valid_registered).
    destruct (registered_lookup m n o2) as [Hg2 Ho2].
    change (with_trace _ (with_tasks _ (with_heap _ _)))
      with (registered m n o2).
    split_and!.
    + apply JsMapFacts.bindings_present; [apply (valid_nodup _ Hv2)|by eexists].
    + apply (valid_nodup _ Hv2).
    + by rewrite (getTask_present _ _ _ _ Hg2 Ho2).
    + intros cs' out'. apply retired_never_fires.
      pose proof (retired_exec_all cs _ _ Hmid) as [Hr1 Hr2]. fold m in Hr1, Hr2.
      split; simpl; [|lia]. by rewrite lookup_insert_ne by lia.
Qed.

Lemma C4_schedule_replaces_witness :
  let call := schedule ping (Function 3%nat) (Unit second) no_options 77 ReturnsVoid in
  value call sample = Ok tt /\
  JsMap.bindings (tasks (run call sample)) "ping" = 1%nat /\
  value (getTask "ping") (run call sample)
  = Ok (Some {| name := "ping"; info_interval := resolve (Unit second);
                info_startTime := 77; info_executionCount := 0; isActive := true |}) /\
  fire 0%nat ReturnsVoid (run call sample) = None.
Proof.
  destruct sample_lookup as [Hg Ho].
  destruct (C4_schedule_replaces sample "ping" 0%nat sample_task 3%nat (Unit second)
              no_options 77 ReturnsVoid (wf_valid _ wf_sample) Hg Ho eq_refl eq_refl)
    as (H1&_&H2&_&_&_&_&H3&_&_&_&H4&_).
  split_and!; [exact H1|exact H2|exact H3|exact (H4 [] ReturnsVoid)].
Defined.

(** C5: after a successful [schedule], [getTask] of the name returns a
    snapshot with executionCount 0 and isActive true, whatever the options.
    With [runImmediately] the action is invoked once, after the old entry (if
    any) was stopped and before [setInterval] is called, and the object that
    is stored afterwards starts at executionCount 0 with the cap as given. *)
Theorem C5_schedule_then_getTask s n f i options now out :
  wf s -> name_missing (Some n) = false -> interval_rejected (resolve i) = false ->
  let call := schedule (Some n) (Function f) i options now out in
  let s' := run call s in
  value call s = Ok tt /\
  (exists info, value (getTask n) s' = Ok (Some info) /\
                info_executionCount info = 0%N /\ isActive info = true /\
                info_interval info = resolve i /\ info_startTime info = now) /\
  (exists l o, JsMap.get (tasks s') n = Some l /\ heap s' !! l = Some o /\
               executionCount o = 0%N /\
               maxExecutions o = opt_maxExecutions options) /\
  (exists pre,
     (pre = [] \/ exists id, pre = [ClearInterval id; ConsoleLog (Stopped n)]) /\
     trace s' = trace s ++ pre ++ immediate_events options f out
                  ++ [SetInterval (nextTimer s) n (resolve i);
                      ConsoleLog (Scheduled n (resolve i))]) /\
  (runImmediately options = true ->
   exists errs, immediate_events options f out = Invoked f :: errs /\
                forall e, e ∈ errs -> e = ConsoleError (ActionError f)).
Proof.
  intros Hwf Hname Hint call s'.
  destruct (schedule_spec s n f i options now out Hwf Hname Hint)
    as (s2&Hs&Hwf'&Ht2&Hh2&Hn2&Hnew&Hold).
  destruct (registered_lookup s2 n (new_task s f i options now)) as [Hg' Ho'].
  unfold s', value, run, call. rewrite Hs. simpl fst. simpl snd.
  split_and!; try done.
  - eexists. rewrite (getTask_present _ _ _ _ Hg' Ho'). by split_and!.
  - by exists (length (heap s2)), (new_task s f i options now).
  - destruct (JsMap.get (tasks s) n) as [l|] eqn:Hg.
    + destruct (wf_entry _ Hwf _ _ Hg) as (o&Ho&_).
      destruct (Hold l o eq_refl Ho) as [_ Htr].
      exists [ClearInterval (timerId o); ConsoleLog (Stopped n)].
      split; [right; by eexists|]. simpl trace. rewrite Htr, Hn2.
      by rewrite <- !app_assoc.
    + destruct (Hnew eq_refl) as [_ Htr]. exists []. split; [by left|].
      simpl trace. rewrite Htr, Hn2. by rewrite <- !app_assoc.
  - intros Hrun. unfold immediate_events. rewrite Hrun. eexists. split; [done|].
    intros e He. destruct out; simpl in He.
    + by apply not_elem_of_nil in He.
    + by apply list_elem_of_singleton in He.
    + by apply not_elem_of_nil in He.
Qed.

Lemma C5_schedule_then_getTask_witness :
  let options := {| runImmediately := true; opt_maxExecutions := Some 1 |} in
  let call := schedule (Some "job") (Function 4%nat) (Unit day) options 12 ThrowsSync in
  value call sample = Ok tt /\
  exists info, value (getTask "job") (run call sample) = Ok (Some info) /\
               info_executionCount info = 0%N /\ isActive info = true /\
               info_interval info = resolve (Unit day) /\ info_startTime info = 12.
Proof.
  destruct (C5_schedule_then_getTask sample "job" 4%nat (Unit day)
              {| runImmediately := true; opt_maxExecutions := Some 1 |} 12 ThrowsSync
              wf_sample eq_refl eq_refl) as (H1&H2&_).
  split; [exact H1|exact H2].
Defined.

(** *** Manual trigger *)

(** C6: on a registered name [executeNow] invokes the action once through
    the wrapper, adds one to the executionCount of the task object and
    resolves to [true]; the other fields of the object, every other object,
    the registry and the armed timers are unchanged.  On an absent name it
    resolves to [false] and changes nothing. *)
Theorem C6_executeNow s n out :
  (JsMap.get (tasks s) n = None -> executeNow n out s = (Ok false, s)) /\
  (forall l o, JsMap.get (tasks s) n = Some l -> heap s !! l = Some o ->
     let s' := run (executeNow n out) s in
     value (executeNow n out) s = Ok true /\
     trace s' = trace s ++ run_events (func o) out /\
     heap s' = <[l := incr o]> (heap s) /\
     (forall l', l' <> l -> heap s' !! l' = heap s !! l') /\
     value (getTask n) s' = Ok (Some (snapshot n (incr o))) /\
     info_executionCount (snapshot n (incr o)) = (executionCount o + 1)%N /\
     interval (incr o) = interval o /\ startTime (incr o) = startTime o /\
     maxExecutions (incr o) = maxExecutions o /\ timerId (incr o) = timerId o /\
     tasks s' = tasks s /\ timers s' = timers s /\ nextTimer s' = nextTimer s).
Proof.
  split; [apply executeNow_absent|].
  intros l o Hg Ho s'.
  destruct (executeNow_present s n l o out Hg Ho) as (s1&H&Hh&Ht&Hm&Hn&_&Htr).
  unfold s', value, run. rewrite H. simpl fst. simpl snd.
  assert (Ho1 : heap s1 !! l = Some (incr o)).
  { rewrite Hh. apply list_lookup_insert_eq. by eapply lookup_lt_Some. }
  rewrite <- Ht in Hg.
  split_and!; try done.
  - rewrite Htr. unfold run_events. by destruct out as [| |[|]].
  - intros l' Hne. rewrite Hh. by apply list_lookup_insert_ne.
  - by rewrite (getTask_present _ _ _ _ Hg Ho1).
  - simpl. lia.
Qed.

Lemma C6_executeNow_witness :
  value (executeNow "ping" ThrowsSync) sample = Ok true /\
  value (getTask "ping") (run (executeNow "ping" ThrowsSync) sample)
  = Ok (Some (snapshot "ping" (incr sample_task))) /\
  timers (run (executeNow "ping" ThrowsSync) sample) = timers sample /\
  executeNow "pong" ThrowsSync sample = (Ok false, sample).
Proof.
  destruct sample_lookup as [Hg Ho].
  destruct (C6_executeNow sample "ping" ThrowsSync) as [_ H].
  destruct (H 0%nat sample_task Hg Ho) as (H1&_&_&_&H2&_&_&_&_&_&_&H3&_).
  destruct (C6_executeNow sample "pong" ThrowsSync) as [H4 _].
  split_and!; [exact H1|exact H2|exact H3|]. apply H4. reflexivity.
Defined.

(** *** Execution faults *)


(** One whole tick of a registered task; nothing about the rest of the
    state is needed. *)
Lemma callback_registered s n l o out :
  JsMap.get (tasks s) n = Some l -> heap s !! l = Some o ->
  exists s', callback n out s = (Ok tt, s') /\
    heap s' = <[l := incr o]> (heap s) /\
    nextTimer s' = nextTimer s /\
    tasks s' = (if cap_reached (incr o) then JsMap.delete (tasks s) n else tasks s) /\
    timers s' = (if cap_reached (incr o) then delete (timerId o) (timers s)
                 else timers s) /\
    trace s' = trace s ++ run_events (func o) out ++
                 (if cap_reached (incr o)
                  then [ClearInterval (timerId o); ConsoleLog (Stopped n)]
                  else []).
Proof.
  intros Hg Ho.
  destruct (executeTask_begin_spec (func o) out s)
    as (r&s1&He&(Ht1&Hh1&Hm1&Hn1)&Hr&Htr1).
  destruct (executeTask_resume_spec (func o) r s1)
    as (s2&He2&(Ht2&Hh2&Hm2&Hn2)&Htr2).
  assert (Hb : callback_begin n out s
               = (Ok (Some {| p_task := l; p_func := func o; p_result := r |}), s1)).
  { unfold callback_begin. erewrite bind_ok; [|reflexivity]. rewrite Hg.
    erewrite bind_ok; [|by unfold read; rewrite Ho]. by step He. }
  assert (Ho2 : heap s2 !! l = Some o) by (by rewrite <- Hh2, <- Hh1).
  pose proof (counted_lookup _ _ _ Ho2) as Ho3.
  assert (Hg3 : JsMap.get (tasks (counted s2 l o)) n = Some l).
  { simpl. by rewrite <- Ht2, <- Ht1. }
  assert (Hev : trace s2 = trace s ++ run_events (func o) out).
  { rewrite Htr2, Htr1. subst r. unfold run_events.
    destruct out as [| |[|]]; simpl; by rewrite <- ?app_assoc, ?app_nil_r. }
  assert (Hres : callback n out s
                 = (if cap_reached (incr o)
                    then stop n;; mret tt else mret tt) (counted s2 l o)).
  { unfold callback. step Hb. unfold callback_resume. simpl p_func.
    simpl p_result. simpl p_task. step He2.
    step (incr_executionCount_spec _ _ _ Ho2).
    by erewrite bind_ok; [|by unfold read; rewrite Ho3]. }
  rewrite Hres. destruct (cap_reached (incr o)).
  - exists (stopped (counted s2 l o) n (incr o)).
    split; [by step (stop_present _ _ _ _ Hg3 Ho3)|]. simpl.
    rewrite Hev, <- Hh2, <- Hh1, <- Hn2, <- Hn1, <- Ht2, <- Ht1, <- Hm2, <- Hm1.
    split_and!; try done. by rewrite <- !app_assoc.
  - exists (counted s2 l o). split; [done|]. simpl.
    rewrite Hev, <- Hh2, <- Hh1, <- Hn2, <- Hn1, <- Ht2, <- Ht1, <- Hm2, <- Hm1.
    by rewrite app_nil_r.
Qed.





(** *** The execution cap *)

(** A tick that brings the count to the cap stops the task: the entry is
    removed and the timer is retired. *)
Lemma tick_reaching_cap_stops s n l o out k :
  wf s -> JsMap.get (tasks s) n = Some l -> heap s !! l = Some o ->
  maxExecutions o = Some k -> 0 < k -> k <= Z.of_N (executionCount o) + 1 ->
  let s' := run (callback n out) s in
  value (callback n out) s = Ok tt /\
  value (hasTask n) s' = Ok false /\
  retired (timerId o) s' /\
  (forall cs out', fire (timerId o) out' (exec_all cs s') = None).
Proof.
  intros Hwf Hg Ho Hmax Hk Hle s'.
  destruct (callback_spec s n l o out Hwf Hg Ho) as (s1&H&Hwf'&Hh&Hn&Ht&Hm&_).
  assert (Hcap : cap_reached (incr o) = true).
  { unfold cap_reached. simpl. rewrite Hmax. apply andb_true_iff. split.
    - apply negb_true_iff, Z.eqb_neq. lia.
    - apply Z.leb_le. lia. }
  rewrite Hcap in Ht, Hm.
  destruct (wf_entry _ Hwf _ _ Hg) as (o0&Ho0&Hto). rewrite Ho in Ho0.
  injection Ho0 as <-.
  assert (Hret : retired (timerId o) s1).
  { split; [rewrite Hm; apply lookup_delete_eq|].
    rewrite Hn. apply (wf_fresh _ Hwf). by eexists. }
  unfold s', value, run. rewrite H. simpl fst. simpl snd. split_and!; try done.
  - simpl. f_equal. rewrite Ht.
    apply JsMapFacts.has_false, JsMapFacts.get_delete_eq.
  - intros cs out'. by apply retired_never_fires.
Qed.

(** [executeNow] never removes the task, whatever the count becomes. *)
Lemma executeNow_keeps_task s n l o out :
  JsMap.get (tasks s) n = Some l -> heap s !! l = Some o ->
  value (hasTask n) (run (executeNow n out) s) = Ok true.
Proof.
  intros Hg Ho.
  destruct (executeNow_present s n l o out Hg Ho) as (s'&H&_&Ht&_).
  unfold run. rewrite H. simpl snd. unfold value. rewrite hasTask_spec.
  simpl fst. f_equal. rewrite Ht. apply JsMapFacts.has_true. by eexists.
Qed.

(** C1 at a task capped at one execution: [executeNow] brings the count to
    the cap, and the task is still registered with its timer armed; the next
    tick invokes the action a second time and only then stops the task. *)
Theorem C1_executeNow_reaches_cap_without_stopping :
  let s1 := run (schedule ping (Function 0%nat) (Millis (lit 500)) (capped 1) 0
                          ReturnsVoid) new_scheduler in
  let s2 := run (executeNow "ping" ReturnsVoid) s1 in
  value (executeNow "ping" ReturnsVoid) s1 = Ok true /\
  value (getTask "ping") s2
  = Ok (Some {| name := "ping"; info_interval := lit 500; info_startTime := 0;
                info_executionCount := 1; isActive := true |}) /\
  value (hasTask "ping") s2 = Ok true /\
  timers s2 !! 0%nat = Some ("ping", lit 500) /\
  exists s3, fire 0%nat ReturnsVoid s2 = Some (Ok tt, s3) /\
    trace s3 = trace s2 ++ [Invoked 0%nat; ClearInterval 0%nat;
                            ConsoleLog (Stopped "ping")] /\
    (executionCount <$> heap s3 !! 0%nat) = Some 2%N /\
    value (hasTask "ping") s3 = Ok false.
Proof.
  vm_compute. split_and!; try done. eexists. by split_and!.
Qed.

(** *** Examples *)

Example schedule_second_is_1000 :
  value (getTask "ping")
        (run (schedule ping (Function 0%nat) (Unit second) no_options 42 ReturnsVoid)
             new_scheduler)
  = Ok (Some {| name := "ping"; info_interval := lit 1000; info_startTime := 42;
                info_executionCount := 0; isActive := true |}).
Proof. vm_compute. reflexivity. Qed.

Example schedule_500_is_500 :
  value (getTask "ping")
        (run (schedule ping (Function 0%nat) (Millis (lit 500)) no_options 42 ReturnsVoid)
             new_scheduler)
  = Ok (Some {| name := "ping"; info_interval := lit 500; info_startTime := 42;
                info_executionCount := 0; isActive := true |}).
Proof. vm_compute. reflexivity. Qed.

Example table_is_well_formed :
  forall u, well_formed (intervals u) = true.
Proof. by intros []. Qed.

Example getAllTasks_of_sample :
  value getAllTasks sample
  = Ok {| own := {[ "ping" := snapshot "ping" sample_task ]}; proto := None |}.
Proof. vm_compute. reflexivity. Qed.

Example getAllTasks_with_a_task_named_proto :
  let s := run (schedule (Some proto_key) (Function 0%nat) (Unit hour) no_options 7
                         ReturnsVoid) new_scheduler in
  let info := {| name := proto_key; info_interval := lit 3600000;
                 info_startTime := 7; info_executionCount := 0; isActive := true |} in
  value (hasTask proto_key) s = Ok true /\
  value getAllTasks s = Ok {| own := ∅; proto := Some info |} /\
  lookup_property {| own := ∅; proto := Some info |} "interval" = FromSnapshot info /\
  lookup_property {| own := ∅; proto := Some info |} proto_key
  = ThePrototype (Some info) /\
  value (hasTask "interval") s = Ok false.
Proof. vm_compute. auto. Qed.

Example trim_strips_unicode_white_space :
  Forall (λ cp, trim (utf8 cp) = "" /\
                trim (utf8 cp ++ "a b" ++ utf8 cp) = "a b" /\
                name_missing (Some (utf8 cp)) = true)
         white_space_code_points.
Proof. repeat constructor. Qed.

Example trim_keeps_other_characters :
  Forall (λ cp, trim (utf8 cp) = utf8 cp /\ name_missing (Some (utf8 cp)) = false)
         [97; 8203; 6158; 8288; 133; 0; 8; 14; 31; 127; 65533]%N.
Proof. repeat constructor. Qed.

Example cap_two_ticks :
  let s2 := run (callback "ping" ThrowsSync) sample in
  let s3 := run (callback "ping" ReturnsVoid) s2 in
  value (hasTask "ping") s2 = Ok true /\ value (hasTask "ping") s3 = Ok false
  /\ timers s3 = ∅.
Proof. vm_compute. auto. Qed.

(** An execution that was waiting when its task was replaced still counts
    on the old object, and its cap check stops the task that now has the
    name. *)
Example stale_tick_stops_the_replacement :
  let s1 := run (schedule ping (Function 0%nat) (Millis (lit 500)) (capped 1) 0
                          ReturnsVoid) new_scheduler in
  let old := {| p_task := 0%nat; p_func := 0%nat; p_result := Some Resolves |} in
  let s2 := run (callback_begin "ping" (ReturnsPromise Resolves)) s1 in
  let s3 := run (schedule ping (Function 1%nat) (Unit hour) no_options 9 ReturnsVoid) s2 in
  let s4 := run (callback_resume "ping" old) s3 in
  value (callback_begin "ping" (ReturnsPromise Resolves)) s1 = Ok (Some old) /\
  value (hasTask "ping") s3 = Ok true /\
  value (hasTask "ping") s4 = Ok false /\
  (executionCount <$> heap s4 !! 0%nat) = Some 1%N /\
  (executionCount <$> heap s4 !! 1%nat) = Some 0%N.
Proof. vm_compute. by split_and!. Qed.

(** ** Further properties of the code *)

(** *** Properties of the objects that every operation keeps *)

Section HeapInvariant.

Variable I : Scheduler -> Prop.
Hypothesis I_heap_only : heap_only I.
Hypothesis I_counted : forall s l o, heap s !! l = Some o -> I s -> I (counted s l o).
Hypothesis I_alloc : forall s o,
  lt zero (interval o) = true -> I s -> I (with_heap (λ h, h ++ [o]) s).

Lemma preserves_same_heap {A} (m : Js A) :
  (forall s, heap (m s).2 = heap s) -> preserves I m.
Proof. intros Hm s H. eapply I_heap_only; [|exact H]. by rewrite Hm. Qed.

Lemma preserves_read l : preserves I (read l).
Proof. apply preserves_same_heap. intros s. unfold read. by destruct (heap s !! l). Qed.

Lemma preserves_emit e : preserves I (emit e).
Proof. by apply preserves_same_heap. Qed.

Lemma preserves_incr_executionCount l : preserves I (incr_executionCount l).
Proof.
  intros s H. unfold incr_executionCount, read. js.
  destruct (heap s !! l) as [o|] eqn:Ho; simpl; [|done]. by apply I_counted.
Qed.

Lemma preserves_executeTask_begin f out : preserves I (executeTask_begin f out).
Proof.
  apply preserves_same_heap. intros s.
  destruct (executeTask_begin_spec f out s) as (r&s'&->&(_&->&_)&_). done.
Qed.

Lemma preserves_executeTask_resume f r : preserves I (executeTask_resume f r).
Proof.
  apply preserves_same_heap. intros s.
  destruct (executeTask_resume_spec f r s) as (s'&->&(_&->&_)&_). done.
Qed.

Lemma preserves_stop n : preserves I (stop n).
Proof.
  apply preserves_same_heap. intros s. unfold stop, read, clearInterval. js.
  destruct (JsMap.get (tasks s) n) as [l|]; simpl; [|done].
  by destruct (heap s !! l).
Qed.

Lemma preserves_callback_begin n out : preserves I (callback_begin n out).
Proof.
  unfold callback_begin. apply preserves_bind; [by apply preserves_same_heap|].
  intros s. destruct (JsMap.get (tasks s) n); [|apply preserves_ret].
  apply preserves_bind; [apply preserves_read|intros o].
  apply preserves_bind; [apply preserves_executeTask_begin|intros r].
  apply preserves_ret.
Qed.

Lemma preserves_callback_resume n k : preserves I (callback_resume n k).
Proof.
  unfold callback_resume.
  apply preserves_bind; [apply preserves_executeTask_resume|intros _].
  apply preserves_bind; [apply preserves_incr_executionCount|intros _].
  apply preserves_bind; [apply preserves_read|intros o].
  destruct (cap_reached o); [|apply preserves_ret].
  apply preserves_bind; [apply preserves_stop|intros _; apply preserves_ret].
Qed.

Lemma preserves_callback n out : preserves I (callback n out).
Proof.
  unfold callback. apply preserves_bind; [apply preserves_callback_begin|].
  intros [k|]; [apply preserves_callback_resume|apply preserves_ret].
Qed.

Lemma preserves_executeNow_begin n out : preserves I (executeNow_begin n out).
Proof.
  unfold executeNow_begin. apply preserves_bind; [by apply preserves_same_heap|].
  intros s. destruct (JsMap.get (tasks s) n); [|apply preserves_ret].
  apply preserves_bind; [apply preserves_read|intros o].
  apply preserves_bind; [apply preserves_executeTask_begin|intros r].
  apply preserves_ret.
Qed.

Lemma preserves_executeNow_resume k : preserves I (executeNow_resume k).
Proof.
  unfold executeNow_resume.
  apply preserves_bind; [apply preserves_executeTask_resume|intros _].
  apply preserves_bind; [apply preserves_incr_executionCount|intros _].
  apply preserves_ret.
Qed.

Lemma preserves_executeNow n out : preserves I (executeNow n out).
Proof.
  unfold executeNow. apply preserves_bind; [apply preserves_executeNow_begin|].
  intros [b|k]; [apply preserves_ret|apply preserves_executeNow_resume].
Qed.

Lemma preserves_stopAll : preserves I stopAll.
Proof.
  unfold stopAll. apply preserves_bind; [by apply preserves_same_heap|intros s].
  apply preserves_bind; [|intros _; apply preserves_ret].
  apply preserves_for_each. intros n.
  apply preserves_bind; [apply preserves_stop|intros _; apply preserves_ret].
Qed.

Lemma preserves_destroy : preserves I destroy.
Proof.
  unfold destroy, console_log.
  apply preserves_bind; [apply preserves_stopAll|intros _; apply preserves_emit].
Qed.

Lemma preserves_schedule n func i options now out :
  preserves I (schedule n func i options now out).
Proof.
  unfold schedule. destruct (name_missing n); [by intros s H|].
  destruct n as [n|]; [|by intros s H]. destruct func as [f|]; [|by intros s H].
  destruct (interval_rejected (resolve i)) eqn:Hi; [by intros s H|].
  rewrite interval_rejected_not_positive in Hi. apply negb_false_iff in Hi.
  apply preserves_bind; [apply preserves_stop|intros _].
  apply preserves_bind.
  { destruct (runImmediately options); [|apply preserves_ret].
    apply preserves_bind; [apply preserves_executeTask_begin|intros _].
    apply preserves_ret. }
  intros _. apply preserves_bind; [by apply preserves_same_heap|intros id].
  apply preserves_bind; [by intros s H; apply I_alloc|intros l].
  apply preserves_bind; [by apply preserves_same_heap|intros _].
  apply preserves_emit.
Qed.

Lemma preserves_schedule_begin n func i options out :
  preserves I (schedule_begin n func i options out).
Proof.
  unfold schedule_begin. destruct (validate n func i options) as [e|r];
    [by intros s H|].
  apply preserves_bind; [apply preserves_stop|intros _].
  apply preserves_bind; [|intros _; apply preserves_ret].
  destruct (runImmediately (r_options r)); [|apply preserves_ret].
  apply preserves_bind; [apply preserves_executeTask_begin|intros _].
  apply preserves_ret.
Qed.

Lemma preserves_schedule_finish r now :
  lt zero (r_interval r) = true -> preserves I (schedule_finish r now).
Proof.
  intros Hpos. unfold schedule_finish.
  apply preserves_bind; [by apply preserves_same_heap|intros id].
  apply preserves_bind; [by intros s H; apply I_alloc|intros l].
  apply preserves_bind; [by apply preserves_same_heap|intros _].
  apply preserves_emit.
Qed.

Lemma validate_positive n func i options r :
  validate n func i options = inr r -> lt zero (r_interval r) = true.
Proof.
  unfold validate. destruct (name_missing n); [done|].
  destruct n as [n|]; [|done]. destruct func as [f|]; [|done].
  destruct (interval_rejected (resolve i)) eqn:Hi; [done|].
  intros [= <-]. simpl. rewrite interval_rejected_not_positive in Hi.
  by apply negb_false_iff in Hi.
Qed.

Lemma preserves_exec c s : I s -> I (exec c s).
Proof.
  intros H. destruct c; simpl;
    try (by first
      [ apply preserves_schedule | apply preserves_stop | apply preserves_stopAll
      | apply preserves_destroy | apply preserves_executeNow
      | apply preserves_executeNow_begin | apply preserves_executeNow_resume
      | apply preserves_callback_resume | apply preserves_executeTask_resume
      | apply preserves_schedule_begin ]).
  - unfold on_timer. destruct (timers s !! id) as [[n ms]|]; [|done].
    by apply preserves_callback.
  - unfold on_timer. destruct (timers s !! id) as [[n ms]|]; [|done].
    by apply preserves_callback_begin.
  - destruct (validate taskName func0 interval0 options) as [e|r] eqn:Hv; [done|].
    apply preserves_schedule_finish; [|done]. by eapply validate_positive.
Qed.

Lemma preserves_exec_all cs : forall s, I s -> I (exec_all cs s).
Proof.
  induction cs as [|c cs IH]; intros s H; [done|].
  simpl. apply IH. by apply preserves_exec.
Qed.

End HeapInvariant.

Lemma evolves_refl o : evolves o o.
Proof. unfold evolves. split_and!; try done. Qed.

Lemma evolves_incr o o' : evolves o o' -> evolves o (incr o').
Proof.
  intros (?&?&?&?&?&?). unfold evolves. simpl. split_and!; try done. lia.
Qed.

Lemma object_kept_exec_all l o cs s :
  object_kept l o s -> object_kept l o (exec_all cs s).
Proof.
  apply (preserves_exec_all (object_kept l o)).
  - intros s1 s2 Hh (o'&Ho'&He). exists o'. by rewrite <- Hh.
  - intros s1 l1 o1 Ho1 (o'&Ho'&He). unfold object_kept. simpl.
    destruct (decide (l1 = l)) as [->|Hne].
    + rewrite Ho1 in Ho'. injection Ho' as <-. exists (incr o1).
      split; [|by apply evolves_incr].
      apply list_lookup_insert_eq. by eapply lookup_lt_Some.
    + exists o'. by rewrite list_lookup_insert_ne.
  - intros s1 o1 _ (o'&Ho'&He). exists o'. split; [|done].
    simpl. by apply lookup_app_l_Some.
Qed.

Lemma positive_intervals_exec_all cs s :
  positive_intervals s -> positive_intervals (exec_all cs s).
Proof.
  apply (preserves_exec_all positive_intervals).
  - intros s1 s2 Hh H l o Ho. apply (H l). by rewrite Hh.
  - intros s1 l1 o1 Ho1 H l o. simpl.
    destruct (decide (l1 = l)) as [->|Hne].
    + rewrite list_lookup_insert_eq by (by eapply lookup_lt_Some).
      intros [= <-]. simpl. by apply (H l).
    + rewrite list_lookup_insert_ne by done. apply H.
  - intros s1 o1 Hpos H l o. simpl. intros Ho.
    apply lookup_app_Some in Ho as [Ho|[_ Ho]]; [by apply (H l)|].
    apply list_lookup_singleton_Some in Ho as [_ <-]. done.
Qed.

(** X7: a task object, once created, stays where it is whatever is called
    and whatever fires afterwards: its timer handle, action, interval,
    startTime and maxExecutions never change and its executionCount never
    decreases or resets. *)
Theorem task_object_only_counts_up s l o cs :
  heap s !! l = Some o ->
  exists o', heap (exec_all cs s) !! l = Some o' /\
    timerId o' = timerId o /\ func o' = func o /\ interval o' = interval o /\
    startTime o' = startTime o /\ maxExecutions o' = maxExecutions o /\
    (executionCount o <= executionCount o')%N.
Proof.
  intros Ho. apply (object_kept_exec_all l o cs s).
  exists o. split; [done|apply evolves_refl].
Qed.

Lemma task_object_only_counts_up_witness :
  exists o', heap (exec_all [ExecuteNow "ping" ThrowsSync; Stop "ping";
                             Schedule ping (Function 1%nat) (Unit day) no_options 8
                                      ReturnsVoid]
                            sample) !! 0%nat = Some o' /\
    timerId o' = 0%nat /\ func o' = 0%nat /\ interval o' = lit 500 /\
    startTime o' = 5 /\ maxExecutions o' = Some 2 /\ (0 <= executionCount o')%N.
Proof.
  apply (task_object_only_counts_up sample 0%nat sample_task). reflexivity.
Defined.

(** X15: in every state the scheduler can reach, also by actions that call
    it, the interval that [getTask] reports for a registered task is above
    zero and is the delay that was passed to [setInterval] for a timer that
    is armed with the name of the task.  This is about the argument of the
    call, not about the period at which the host then runs the timer: a host
    may replace a delay it cannot use (Node.js runs a timer whose delay is
    below 1 or above 2^31 - 1, such as [Infinity], every millisecond), and
    the reported interval is then not the period of the ticks. *)
Theorem stored_interval_is_positive_delay s n :
  reachable s ->
  forall info, value (getTask n) s = Ok (Some info) ->
  lt zero (info_interval info) = true /\
  exists id, timers s !! id = Some (n, info_interval info).
Proof.
  intros Hr info Hinfo. pose proof (reachable_valid _ Hr) as Hwf.
  destruct Hr as [cs ->].
  assert (Hpos : positive_intervals (exec_all cs new_scheduler)).
  { apply positive_intervals_exec_all. by intros l o H. }
  set (s := exec_all cs new_scheduler) in *.
  destruct (JsMap.get (tasks s) n) as [l|] eqn:Hg.
  - destruct (valid_entry _ Hwf _ _ Hg) as (o&Ho&Ht).
    unfold value in Hinfo. rewrite (getTask_present _ _ _ _ Hg Ho) in Hinfo.
    injection Hinfo as <-. simpl. split; [by apply (Hpos l)|by eexists].
  - unfold value in Hinfo. by rewrite (getTask_absent _ _ Hg) in Hinfo.
Qed.

Lemma stored_interval_is_positive_delay_witness :
  lt zero (lit 500) = true /\
  exists id, timers sample !! id = Some ("ping", lit 500).
Proof.
  apply (stored_interval_is_positive_delay sample "ping"
           (ex_intro _ [Schedule ping (Function 0%nat) (Millis (lit 500)) (capped 2)
                                 5 ReturnsVoid] eq_refl)
           (snapshot "ping" sample_task)).
  reflexivity.
Defined.

(** *** Ticks in a row *)


Lemma fire_registered s n l o out :
  valid s -> JsMap.get (tasks s) n = Some l -> heap s !! l = Some o ->
  let s' := exec (Fire (timerId o) out) s in
  valid s' /\ heap s' = <[l := incr o]> (heap s) /\ nextTimer s' = nextTimer s /\
  tasks s' = (if cap_reached (incr o) then JsMap.delete (tasks s) n else tasks s) /\
  timers s' = (if cap_reached (incr o) then delete (timerId o) (timers s)
               else timers s).
Proof.
  intros Hv Hg Ho s'. assert (Hv' : valid s') by (by apply valid_exec).
  destruct (valid_entry _ Hv _ _ Hg) as (o0&Ho0&Hto).
  rewrite Ho in Ho0. injection Ho0 as <-.
  destruct (callback_registered s n l o out Hg Ho) as (s1&H&Hh&Hn&Ht&Hm&_).
  unfold s' in *. simpl in *. unfold on_timer, run in *. rewrite Hto, H in *.
  by split_and!.
Qed.

Lemma ticks_unarmed id outs s :
  timers s !! id = None -> exec_all (ticks id outs) s = s.
Proof.
  intros H. induction outs as [|out outs IH]; [done|].
  simpl. unfold on_timer. by rewrite H.
Qed.

Lemma iter_incr_count m o :
  executionCount (Nat.iter m incr o) = (executionCount o + N.of_nat m)%N.
Proof.
  induction m as [|m IH]; simpl; [lia|]. rewrite IH. lia.
Qed.

Lemma iter_incr_fields m o : evolves o (Nat.iter m incr o).
Proof.
  induction m as [|m IH]; simpl; [apply evolves_refl|by apply evolves_incr].
Qed.



(** X2: when every tick runs to its end before the next one fires, a task
    whose count is below its cap [k] is run by its timer exactly as many
    times as are left: while fewer ticks than that have fired it is
    registered with its timer armed; the tick that brings the count to [k]
    removes it and retires the timer, and later firings of that handle do
    nothing, so the count ends at [k].  Ticks that overlap (one fires while
    another waits for its action) are not covered here: they can run the
    task more often than [k] times. *)
Theorem capped_task_runs_until_cap s n l o k outs :
  valid s -> JsMap.get (tasks s) n = Some l -> heap s !! l = Some o ->
  maxExecutions o = Some k -> Z.of_N (executionCount o) < k ->
  let left := Z.to_nat (k - Z.of_N (executionCount o)) in
  let m := Nat.min (length outs) left in
  let s' := exec_all (ticks (timerId o) outs) s in
  heap s' = <[l := Nat.iter m incr o]> (heap s) /\
  executionCount (Nat.iter m incr o) = (executionCount o + N.of_nat m)%N /\
  ((length outs < left)%nat ->
   JsMap.get (tasks s') n = Some l /\ timers s' = timers s) /\
  ((left <= length outs)%nat ->
   JsMap.get (tasks s') n = None /\ retired (timerId o) s' /\
   Z.of_N (executionCount (Nat.iter m incr o)) = k).
Proof.
  intros Hwf Hg Ho Hmax Hlt. revert s o Hwf Hg Ho Hmax Hlt.
  induction outs as [|out outs IH]; intros s o Hwf Hg Ho Hmax Hlt left m s'.
  - unfold s', m. simpl. rewrite list_insert_id by done.
    split_and!; try done; [lia|]. unfold left. lia.
  - destruct (fire_registered s n l o out Hwf Hg Ho) as (Hwf1&Hh1&Hn1&Ht1&Hm1).
    set (s1 := exec (Fire (timerId o) out) s) in *.
    assert (Ho1 : heap s1 !! l = Some (incr o)).
    { rewrite Hh1. apply list_lookup_insert_eq. by eapply lookup_lt_Some. }
    change s' with (exec_all (ticks (timerId o) outs) s1).
    assert (Hcap : cap_reached (incr o)
                   = bool_decide (k <= Z.of_N (executionCount o) + 1)).
    { unfold cap_reached. simpl. rewrite Hmax.
      replace (k =? 0)%Z with false by (symmetry; apply Z.eqb_neq; lia).
      simpl. destruct (Z.leb_spec k (Z.of_N (N.succ (executionCount o))));
        [rewrite bool_decide_eq_true_2|rewrite bool_decide_eq_false_2]; lia. }
    rewrite Hcap in Ht1, Hm1. simpl length. case_bool_decide as Hk.
    + assert (Hleft : left = 1%nat) by (unfold left; lia).
      assert (Hmm : m = 1%nat) by (unfold m; simpl length; lia).
      rewrite ticks_unarmed by (rewrite Hm1; apply lookup_delete_eq).
      rewrite Hmm, Hleft. simpl. split_and!; try done.
      * lia.
      * lia.
      * intros _. split_and!.
        -- rewrite Ht1. apply JsMapFacts.get_delete_eq.
        -- split; [rewrite Hm1; apply lookup_delete_eq|].
           rewrite Hn1. destruct (valid_entry _ Hwf _ _ Hg) as (o0&Ho0&Hto).
           rewrite Ho in Ho0. injection Ho0 as <-.
           apply (valid_fresh _ Hwf). by eexists.
        -- lia.
    + rewrite <- Ht1 in Hg.
      assert (Hlt1 : Z.of_N (executionCount (incr o)) < k) by (simpl; lia).
      destruct (IH s1 (incr o) Hwf1 Hg Ho1 Hmax Hlt1) as (Hh&_&Hbelow&Hreach).
      set (left1 := Z.to_nat (k - Z.of_N (executionCount (incr o)))) in *.
      assert (Hleft : left = S left1) by (unfold left, left1; simpl; lia).
      assert (Hmm : m = S (Nat.min (length outs) left1))
        by (unfold m; simpl length; lia).
      rewrite Hmm, Nat.iter_succ_r. simpl timerId in *.
      split_and!.
      * by rewrite Hh, Hh1, list_insert_insert_eq.
      * rewrite iter_incr_count. simpl. lia.
      * intros Hl. destruct Hbelow as [H1 H2]; [lia|]. split; [done|].
        by rewrite H2.
      * intros Hl. destruct Hreach as (H1&H2&H3); [lia|]. by split_and!.
Qed.

Lemma capped_task_runs_until_cap_witness :
  let s' := exec_all (ticks 0%nat [ThrowsSync; ReturnsVoid; ReturnsVoid]) sample in
  heap s' = <[0%nat := Nat.iter 2 incr sample_task]> (heap sample) /\
  JsMap.get (tasks s') "ping" = None /\ retired 0%nat s'.
Proof.
  destruct sample_lookup as [Hg Ho].
  destruct (capped_task_runs_until_cap sample "ping" 0%nat sample_task 2
              [ThrowsSync; ReturnsVoid; ReturnsVoid] (wf_valid _ wf_sample) Hg Ho eq_refl
              ltac:(simpl; lia)) as (H1&_&_&H2).
  destruct H2 as (H3&H4&_); [simpl; lia|].
  split; [exact H1|]. split; [exact H3|exact H4].
Defined.

(** *** Queries *)

Lemma getAllTasks_loop_spec s ks : forall acc,
  valid s -> (forall k, k ∈ ks -> is_Some (JsMap.get (tasks s) k)) ->
  exists r, getAllTasks_loop ks acc s = (Ok r, s) /\
    (forall n, n <> proto_key ->
       (n ∈ ks -> value (getTask n) s = Ok (own r !! n)) /\
       (n ∉ ks -> own r !! n = own acc !! n)) /\
    own r !! proto_key = own acc !! proto_key /\
    (proto_key ∈ ks -> value (getTask proto_key) s = Ok (proto r)) /\
    (proto_key ∉ ks -> proto r = proto acc).
Proof.
  induction ks as [|k ks IH]; intros acc Hv Hks.
  - exists acc. split; [done|]. split_and!; try done.
    + intros n _. split; [|done]. intros H. by apply not_elem_of_nil in H.
    + intros H. by apply not_elem_of_nil in H.
  - destruct (Hks k) as [l Hg]; [apply list_elem_of_here|].
    destruct (valid_entry _ Hv _ _ Hg) as (o&Ho&_).
    destruct (IH (assign acc k (snapshot k o)) Hv) as (r&Hr&Hown&Hpk&Hpin&Hpout).
    { intros k' Hk'. apply Hks. by apply list_elem_of_further. }
    exists r. split.
    { simpl. by step (getTask_present _ _ _ _ Hg Ho). }
    unfold assign in Hown, Hpk, Hpout.
    destruct (decide (k = proto_key)) as [Hk|Hk].
    + rewrite bool_decide_eq_true_2 in Hown, Hpk, Hpout by done. simpl in *.
      split_and!; try done.
      * intros n Hn. destruct (Hown n Hn) as [Hin Hout]. split.
        -- intros H. apply elem_of_cons in H as [->|H]; [by subst|by apply Hin].
        -- intros H. apply Hout. intros H'. apply H. by apply list_elem_of_further.
      * intros _. destruct (decide (proto_key ∈ ks)) as [Hp|Hp]; [by apply Hpin|].
        rewrite (Hpout Hp). subst k. unfold value.
        by rewrite (getTask_present _ _ _ _ Hg Ho).
      * intros H. exfalso. apply H. subst k. apply list_elem_of_here.
    + rewrite bool_decide_eq_false_2 in Hown, Hpk, Hpout by done. simpl in *.
      split_and!.
      * intros n Hn. destruct (Hown n Hn) as [Hin Hout].
        destruct (decide (n ∈ ks)) as [Hnks|Hnks].
        -- split; [by intros _; apply Hin|].
           intros H. exfalso. apply H. by apply list_elem_of_further.
        -- split.
           ++ intros H. apply elem_of_cons in H as [->|H]; [|done].
              rewrite Hout by done. rewrite lookup_insert_eq.
              unfold value. by rewrite (getTask_present _ _ _ _ Hg Ho).
           ++ intros H. rewrite Hout by done. apply lookup_insert_ne.
              intros ->. apply H, list_elem_of_here.
      * rewrite Hpk. by apply lookup_insert_ne.
      * intros H. apply elem_of_cons in H as [H|H]; [by subst|by apply Hpin].
      * intros H. apply Hpout. intros H'. apply H. by apply list_elem_of_further.
Qed.

(** X3: [getAllTasks] changes nothing.  The own properties of the object it
    returns are the registered names other than [__proto__], each with what
    [getTask] returns for that name; no other name and never [__proto__] is
    an own property.  A task named [__proto__] is left out: its snapshot
    becomes the prototype of the result, so that the result then answers for
    the names of the snapshot's fields (such as [interval]), which are no
    tasks; without such a task the prototype is untouched.  What reading a
    name from the result finds is an own snapshot exactly for the registered
    names other than [__proto__]; reading [__proto__] gives the prototype,
    which is the snapshot of the task of that name if there is one. *)
Theorem getAllTasks_agrees_with_getTask s :
  valid s ->
  exists r, getAllTasks s = (Ok r, s) /\
    (forall n, n <> proto_key -> value (getTask n) s = Ok (own r !! n)) /\
    own r !! proto_key = None /\
    value (getTask proto_key) s = Ok (proto r) /\
    (forall n, is_Some (own r !! n)
               <-> n <> proto_key /\ value (hasTask n) s = Ok true) /\
    (forall n info, lookup_property r n = Own info
                    <-> n <> proto_key /\ value (getTask n) s = Ok (Some info)) /\
    (forall n info, lookup_property r n = FromSnapshot info ->
       n ∈ snapshot_keys /\ value (hasTask n) s = Ok false /\
       value (getTask proto_key) s = Ok (Some info)) /\
    lookup_property r proto_key = ThePrototype (proto r).
Proof.
  intros Hv.
  destruct (getAllTasks_loop_spec s (JsMap.keys (tasks s)) empty_object Hv)
    as (r&Hr&Hspec&Hpk&Hpin&Hpout).
  { intros k Hk. apply not_eq_None_Some. intros Hn.
    by apply JsMapFacts.get_None_keys in Hn. }
  assert (Hall : forall n, n <> proto_key -> value (getTask n) s = Ok (own r !! n)).
  { intros n Hne. destruct (Hspec n Hne) as [Hin Hout].
    destruct (decide (n ∈ JsMap.keys (tasks s))) as [Hn|Hn]; [by apply Hin|].
    rewrite Hout by done. simpl. rewrite lookup_empty.
    unfold value. rewrite getTask_absent; [done|].
    by apply JsMapFacts.get_None_keys. }
  assert (Hproto : value (getTask proto_key) s = Ok (proto r)).
  { destruct (decide (proto_key ∈ JsMap.keys (tasks s))) as [Hn|Hn];
      [by apply Hpin|].
    rewrite (Hpout Hn). simpl. unfold value. rewrite getTask_absent; [done|].
    by apply JsMapFacts.get_None_keys. }
  assert (Hnone : own r !! proto_key = None) by (by rewrite Hpk).
  assert (Hhas : forall n, n <> proto_key ->
            (is_Some (own r !! n) <-> value (hasTask n) s = Ok true)).
  { intros n Hne. specialize (Hall n Hne). unfold value in *. rewrite hasTask_spec.
    simpl. destruct (JsMap.get (tasks s) n) as [l|] eqn:Hg.
    - destruct (valid_entry _ Hv _ _ Hg) as (o&Ho&_).
      rewrite (getTask_present _ _ _ _ Hg Ho) in Hall. injection Hall as <-.
      split; [intros _|by eexists]. f_equal. apply JsMapFacts.has_true. by eexists.
    - rewrite (getTask_absent _ _ Hg) in Hall. injection Hall as <-.
      split; [by intros [? ?]|]. intros [= H]. apply JsMapFacts.has_true in H.
      rewrite Hg in H. by destruct H. }
  exists r. split_and!; try done.
  - intros n. split.
    + intros Hs. destruct (decide (n = proto_key)) as [->|Hne].
      * rewrite Hnone in Hs. by destruct Hs.
      * split; [done|]. by apply Hhas.
    + intros [Hne Hh]. by apply Hhas.
  - intros n info. unfold lookup_property. split.
    + intros Hl. destruct (own r !! n) as [info'|] eqn:Ho.
      * injection Hl as ->. destruct (decide (n = proto_key)) as [->|Hne];
          [congruence|]. split; [done|]. by rewrite (Hall n Hne), Ho.
      * case_bool_decide; [discriminate|].
        destruct (proto r); [case_bool_decide|]; discriminate.
    + intros [Hne Hg]. rewrite (Hall n Hne) in Hg. injection Hg as ->. done.
  - intros n info. unfold lookup_property.
    destruct (own r !! n) as [info'|] eqn:Ho; [discriminate|].
    case_bool_decide as Hne; [discriminate|].
    destruct (proto r) as [info'|] eqn:Hp; [|discriminate].
    case_bool_decide as Hk; [|discriminate]. intros [= ->].
    split; [done|]. split; [|done].
    destruct (Hhas n Hne) as [_ Hh]. unfold value in *. rewrite hasTask_spec in *.
    simpl in *. destruct (JsMap.has (tasks s) n); [|done].
    destruct (Hh eq_refl) as [x Hx]. congruence.
  - unfold lookup_property. rewrite Hnone. by rewrite bool_decide_eq_true_2.
Qed.

Lemma getAllTasks_agrees_with_getTask_witness :
  let s := run (schedule (Some proto_key) (Function 1%nat) (Unit hour) no_options 6
                         ReturnsVoid) sample in
  exists r, getAllTasks s = (Ok r, s) /\
    value (getTask "ping") s = Ok (own r !! "ping") /\
    own r !! proto_key = None /\
    value (getTask proto_key) s = Ok (proto r).
Proof.
  destruct (getAllTasks_agrees_with_getTask
              (run (schedule (Some proto_key) (Function 1%nat) (Unit hour) no_options 6
                             ReturnsVoid) sample)
              (preserves_valid_schedule _ _ _ _ _ _ _ (wf_valid _ wf_sample)))
    as (r&H1&H2&H3&H4&_).
  exists r. split_and!; [exact H1| |exact H3|exact H4].
  apply H2. discriminate.
Defined.

(** X5: the queries agree with each other and change nothing.
    [getActiveTasks] lists every registered name once, [taskCount] is the
    length of that list, [hasTask] is true exactly for the names in it, and
    [getTask] returns a snapshot carrying the name, with isActive true,
    exactly for those names and nothing for any other. *)
Theorem queries_agree s :
  wf s ->
  exists names, getActiveTasks s = (Ok names, s) /\ NoDup names /\
    taskCount s = (Ok (length names), s) /\
    forall n,
      (hasTask n s = (Ok (bool_decide (n ∈ names)), s)) /\
      (n ∈ names -> exists info, getTask n s = (Ok (Some info), s) /\
                                 name info = n /\ isActive info = true) /\
      (n ∉ names -> getTask n s = (Ok None, s)).
Proof.
  intros Hwf. exists (JsMap.keys (tasks s)). split_and!; try done.
  - apply (wf_nodup _ Hwf).
  - unfold taskCount, JsMap.size, JsMap.keys. js. by rewrite length_fmap.
  - intros n. split_and!.
    + rewrite hasTask_spec. f_equal. f_equal. unfold JsMap.has.
      apply bool_decide_ext. rewrite <- not_eq_None_Some.
      rewrite JsMapFacts.get_None_keys. split; [apply dec_stable|].
      by intros H Hn.
    + intros Hn. destruct (JsMap.get (tasks s) n) as [l|] eqn:Hg.
      * destruct (wf_entry _ Hwf _ _ Hg) as (o&Ho&_).
        exists (snapshot n o). by rewrite (getTask_present _ _ _ _ Hg Ho).
      * by apply JsMapFacts.get_None_keys in Hg.
    + intros Hn. apply getTask_absent. by apply JsMapFacts.get_None_keys.
Qed.

Lemma queries_agree_witness :
  exists names, getActiveTasks sample = (Ok names, sample) /\ NoDup names /\
    taskCount sample = (Ok (length names), sample) /\
    forall n,
      (hasTask n sample = (Ok (bool_decide (n ∈ names)), sample)) /\
      (n ∈ names -> exists info, getTask n sample = (Ok (Some info), sample) /\
                                 name info = n /\ isActive info = true) /\
      (n ∉ names -> getTask n sample = (Ok None, sample)).
Proof. apply (queries_agree sample wf_sample). Defined.

(** *** More on registration *)









(** X9: replacing is stopping and then registering: a [schedule] that
    passes validation gives the same result and the same state, trace
    included, whether or not [stop] was called on the name just before. *)
Theorem schedule_after_stop_is_schedule s n f i options now out :
  wf s -> name_missing (Some n) = false -> interval_rejected (resolve i) = false ->
  schedule (Some n) (Function f) i options now out (run (stop n) s)
  = schedule (Some n) (Function f) i options now out s.
Proof.
  intros Hwf Hname Hint.
  destruct (stop_wf_spec s n Hwf) as (b&s1&Hstop&_&Ht1&_).
  assert (Hstop1 : stop n s1 = (Ok false, s1)).
  { apply stop_absent. rewrite Ht1. apply JsMapFacts.get_delete_eq. }
  unfold run. rewrite Hstop. simpl snd.
  unfold schedule. rewrite Hname, Hint.
  by rewrite (bind_ok _ _ _ _ _ Hstop1), (bind_ok _ _ _ _ _ Hstop).
Qed.

Lemma schedule_after_stop_is_schedule_witness :
  schedule ping (Function 2%nat) (Unit week) no_options 3 ThrowsSync
           (run (stop "ping") sample)
  = schedule ping (Function 2%nat) (Unit week) no_options 3 ThrowsSync sample.
Proof.
  apply (schedule_after_stop_is_schedule sample "ping" 2%nat (Unit week) no_options 3
           ThrowsSync wf_sample eq_refl eq_refl).
Defined.

(** *** Timers and tasks, one for one *)

Lemma timers_count (ks : list string) : forall T : gmap nat (string * number),
  NoDup ks ->
  (forall id n ms, T !! id = Some (n, ms) -> n ∈ ks) ->
  (forall n, n ∈ ks -> exists id ms, T !! id = Some (n, ms)) ->
  (forall id id' n ms ms', T !! id = Some (n, ms) -> T !! id' = Some (n, ms') ->
                           id = id') ->
  size T = length ks.
Proof.
  induction ks as [|k ks IH]; intros T Hnd Hin Hall Huniq.
  - apply map_size_empty_iff, map_empty. intros id.
    destruct (T !! id) as [[n ms]|] eqn:Hid; [|done].
    apply Hin in Hid. by apply not_elem_of_nil in Hid.
  - apply NoDup_cons in Hnd as [Hk Hnd].
    destruct (Hall k) as (id&ms&Hid); [apply list_elem_of_here|].
    cbn [length]. rewrite <- (IH (delete id T) Hnd).
    + pose proof (map_size_delete_Some id T ltac:(by eexists)) as Hd.
      pose proof (map_size_ne_0_lookup_2 T id ltac:(by eexists)) as Hz. lia.
    + intros id' n ms' Hl. apply lookup_delete_Some in Hl as [Hne Hl].
      pose proof (Hin _ _ _ Hl) as Hn. apply elem_of_cons in Hn as [->|]; [|done].
      by destruct Hne; apply (Huniq id id' k ms ms').
    + intros n Hn. destruct (Hall n) as (id'&ms'&Hl); [by apply list_elem_of_further|].
      exists id', ms'. rewrite lookup_delete_ne; [done|]. intros <-.
      rewrite Hid in Hl. injection Hl as <- _. done.
    + intros id1 id2 n ms1 ms2 H1 H2.
      apply lookup_delete_Some in H1 as [_ H1].
      apply lookup_delete_Some in H2 as [_ H2]. by eapply Huniq.
Qed.

(** X6: as long as no [schedule] call is cut in two by calls of its own
    action (no action run by [runImmediately] calls the scheduler), no timer
    is leaked and no task is left without one.  In every state reached that
    way there are exactly as many armed timers as registered tasks; every
    armed timer carries the name of a registered task whose object holds that
    handle, and every registered task has its timer armed. *)
Theorem timers_match_tasks s :
  reachable_whole s ->
  value taskCount s = Ok (size (timers s)) /\
  (forall id n ms, timers s !! id = Some (n, ms) ->
     value (hasTask n) s = Ok true /\
     exists l o, JsMap.get (tasks s) n = Some l /\ heap s !! l = Some o /\
                 timerId o = id) /\
  (forall n, value (hasTask n) s = Ok true ->
     exists id ms, timers s !! id = Some (n, ms)).
Proof.
  intros Hr. pose proof (reachable_whole_wf _ Hr) as Hwf. split_and!.
  - unfold value, taskCount, JsMap.size. js. f_equal. symmetry.
    rewrite <- (length_fmap fst). apply timers_count.
    + apply (wf_nodup _ Hwf).
    + intros id n ms Hid. destruct (wf_timer _ Hwf _ _ _ Hid) as (l&o&Hg&_).
      apply dec_stable. intros Hn. apply JsMapFacts.get_None_keys in Hn. congruence.
    + intros n Hn. destruct (JsMap.get (tasks s) n) as [l|] eqn:Hg.
      * destruct (wf_entry _ Hwf _ _ Hg) as (o&_&Ht). by eexists _, _.
      * by apply JsMapFacts.get_None_keys in Hg.
    + intros id id' n ms ms' H1 H2.
      destruct (wf_timer _ Hwf _ _ _ H1) as (l&o&Hg&Ho&<-).
      destruct (wf_timer _ Hwf _ _ _ H2) as (l'&o'&Hg'&Ho'&<-). congruence.
  - intros id n ms Hid. destruct (wf_timer _ Hwf _ _ _ Hid) as (l&o&Hg&Ho&Ht).
    split; [|by eexists _, _]. unfold value. rewrite hasTask_spec. simpl. f_equal.
    apply JsMapFacts.has_true. by eexists.
  - intros n [= Hh]. apply JsMapFacts.has_true in Hh as [l Hg].
    destruct (wf_entry _ Hwf _ _ Hg) as (o&_&Ht). by eexists _, _.
Qed.

Lemma timers_match_tasks_witness :
  value taskCount sample = Ok (size (timers sample)).
Proof.
  apply (timers_match_tasks sample).
  exists [Schedule ping (Function 0%nat) (Millis (lit 500)) (capped 2) 5 ReturnsVoid].
  split; [repeat constructor | reflexivity].
Defined.

(** *** A tick that is waiting while its task is stopped or replaced *)

Lemma callback_resume_absent s n k o :
  heap s !! p_task k = Some o -> JsMap.get (tasks s) n = None ->
  exists s', callback_resume n k s = (Ok tt, s') /\
    heap s' = <[p_task k := incr o]> (heap s) /\
    tasks s' = tasks s /\ timers s' = timers s /\ nextTimer s' = nextTimer s.
Proof.
  intros Ho Hg.
  destruct (executeTask_resume_spec (p_func k) (p_result k) s) as (s1&He&Hs1&_).
  destruct Hs1 as (Ht1&Hh1&Hm1&Hn1).
  assert (Ho1 : heap s1 !! p_task k = Some o) by (by rewrite <- Hh1).
  pose proof (counted_lookup _ _ _ Ho1) as Ho2.
  exists (counted s1 (p_task k) o). split.
  - unfold callback_resume. step He. step (incr_executionCount_spec _ _ _ Ho1).
    erewrite bind_ok; [|by unfold read; rewrite Ho2].
    destruct (cap_reached (incr o)); [|done].
    erewrite bind_ok; [done|]. apply stop_absent. simpl. by rewrite <- Ht1.
  - simpl. by rewrite Hh1, Ht1, Hm1, Hn1.
Qed.

Lemma callback_resume_stops s n k o l' o' :
  heap s !! p_task k = Some o -> cap_reached (incr o) = true ->
  JsMap.get (tasks s) n = Some l' -> heap s !! l' = Some o' ->
  exists s', callback_resume n k s = (Ok tt, s') /\
    heap s' = <[p_task k := incr o]> (heap s) /\
    tasks s' = JsMap.delete (tasks s) n /\
    timers s' = delete (timerId o') (timers s) /\ nextTimer s' = nextTimer s.
Proof.
  intros Ho Hcap Hg Ho'.
  destruct (executeTask_resume_spec (p_func k) (p_result k) s) as (s1&He&Hs1&_).
  destruct Hs1 as (Ht1&Hh1&Hm1&Hn1).
  assert (Ho1 : heap s1 !! p_task k = Some o) by (by rewrite <- Hh1).
  pose proof (counted_lookup _ _ _ Ho1) as Ho2.
  set (s2 := counted s1 (p_task k) o) in *.
  assert (Hg2 : JsMap.get (tasks s2) n = Some l') by (simpl; by rewrite <- Ht1).
  assert (Ho2' : exists o2, heap s2 !! l' = Some o2 /\ timerId o2 = timerId o').
  { destruct (decide (p_task k = l')) as [<-|Hne].
    - exists (incr o). split; [done|]. rewrite Ho in Ho'. by injection Ho' as <-.
    - exists o'. split; [|done]. simpl. rewrite list_lookup_insert_ne by done.
      by rewrite <- Hh1. }
  destruct Ho2' as (o2&Hl2&Hid).
  exists (stopped s2 n o2). subst s2. split.
  - unfold callback_resume. step He. step (incr_executionCount_spec _ _ _ Ho1).
    erewrite bind_ok; [|by unfold read; rewrite Ho2]. rewrite Hcap.
    by step (stop_present _ _ _ _ Hg2 Hl2).
  - simpl. by rewrite Hh1, Ht1, Hm1, Hn1, Hid.
Qed.

(** X10: a task is stopped while a tick of it is waiting for the action.
    When the tick goes on it adds one to the count of the object that is no
    longer registered and changes nothing else: the name stays absent, no
    timer is armed or cleared, and the old handle stays retired. *)
Theorem tick_in_flight_when_stopped s n l o out :
  wf s -> JsMap.get (tasks s) n = Some l -> heap s !! l = Some o ->
  exists k s1, callback_begin n out s = (Ok (Some k), s1) /\ p_task k = l /\
    let s2 := run (stop n) s1 in
    exists s3, callback_resume n k s2 = (Ok tt, s3) /\
      heap s3 = <[l := incr o]> (heap s) /\
      tasks s3 = tasks s2 /\ timers s3 = timers s2 /\
      value (hasTask n) s3 = Ok false /\ retired (timerId o) s3.
Proof.
  intros Hwf Hg Ho.
  destruct (callback_begin_present s n l o out Hg Ho) as (r&s1&Hb&_&Hs1).
  exists {| p_task := l; p_func := func o; p_result := r |}, s1.
  split; [done|]. split; [done|]. intros s2.
  assert (Hwf1 : wf s1) by (by eapply same_store_wf).
  destruct Hs1 as (Ht1&Hh1&Hm1&Hn1).
  assert (Hg1 : JsMap.get (tasks s1) n = Some l) by (by rewrite <- Ht1).
  assert (Ho1 : heap s1 !! l = Some o) by (by rewrite <- Hh1).
  assert (Hs2 : s2 = stopped s1 n o).
  { unfold s2, run. by rewrite (stop_present _ _ _ _ Hg1 Ho1). }
  assert (Hg2 : JsMap.get (tasks s2) n = None).
  { rewrite Hs2. simpl. apply JsMapFacts.get_delete_eq. }
  assert (Ho2 : heap s2 !! l = Some o) by (by rewrite Hs2).
  destruct (callback_resume_absent s2 n
              {| p_task := l; p_func := func o; p_result := r |} o Ho2 Hg2)
    as (s3&Hr&Hh3&Ht3&Hm3&Hn3).
  exists s3. split_and!; try done.
  - rewrite Hh3, Hs2. simpl. by rewrite Hh1.
  - unfold value. rewrite hasTask_spec. simpl. f_equal.
    apply JsMapFacts.has_false. by rewrite Ht3.
  - split; [rewrite Hm3, Hs2; apply lookup_delete_eq|].
    rewrite Hn3, Hs2. simpl. rewrite <- Hn1.
    destruct (wf_entry _ Hwf _ _ Hg) as (o0&Ho0&Hto). rewrite Ho in Ho0.
    injection Ho0 as <-. apply (wf_fresh _ Hwf). by eexists.
Qed.

Lemma tick_in_flight_when_stopped_witness :
  exists k s1, callback_begin "ping" (ReturnsPromise Resolves) sample
               = (Ok (Some k), s1) /\ p_task k = 0%nat /\
    let s2 := run (stop "ping") s1 in
    exists s3, callback_resume "ping" k s2 = (Ok tt, s3) /\
      heap s3 = <[0%nat := incr sample_task]> (heap sample) /\
      tasks s3 = tasks s2 /\ timers s3 = timers s2 /\
      value (hasTask "ping") s3 = Ok false /\ retired 0%nat s3.
Proof.
  destruct sample_lookup as [Hg Ho].
  apply (tick_in_flight_when_stopped sample "ping" 0%nat sample_task
           (ReturnsPromise Resolves) wf_sample Hg Ho).
Defined.

(** X11: a task is registered again under its name while a tick of the old
    registration is waiting for the action.  If that tick brings the old
    object to its cap, its call of [stop] goes by name and removes the new
    registration: the name is gone and the new timer is cleared, although
    the new object never ran and still has executionCount 0. *)
Theorem tick_in_flight_when_replaced s n l o out f i options now out2 :
  wf s -> JsMap.get (tasks s) n = Some l -> heap s !! l = Some o ->
  cap_reached (incr o) = true ->
  name_missing (Some n) = false -> interval_rejected (resolve i) = false ->
  exists k s1, callback_begin n out s = (Ok (Some k), s1) /\ p_task k = l /\
    let s2 := run (schedule (Some n) (Function f) i options now out2) s1 in
    value (hasTask n) s2 = Ok true /\
    timers s2 !! nextTimer s = Some (n, resolve i) /\
    exists s3, callback_resume n k s2 = (Ok tt, s3) /\
      value (hasTask n) s3 = Ok false /\
      timers s3 !! nextTimer s = None /\
      heap s3 !! length (heap s) = Some (new_task s f i options now) /\
      executionCount (new_task s f i options now) = 0%N /\
      heap s3 !! l = Some (incr o).
Proof.
  intros Hwf Hg Ho Hcap Hname Hint.
  destruct (callback_begin_present s n l o out Hg Ho) as (r&s1&Hb&_&Hs1).
  set (k := {| p_task := l; p_func := func o; p_result := r |}).
  exists k, s1. split; [done|]. split; [done|]. intros s2.
  assert (Hwf1 : wf s1) by (by eapply same_store_wf).
  destruct Hs1 as (Ht1&Hh1&Hm1&Hn1).
  destruct (schedule_spec s1 n f i options now out2 Hwf1 Hname Hint)
    as (s2'&Hs&Hwf2&Ht2&Hh2&Hn2&_).
  assert (Hnew : new_task s1 f i options now = new_task s f i options now).
  { unfold new_task. by rewrite Hn1. }
  assert (Hs2 : s2 = registered s2' n (new_task s f i options now)).
  { unfold s2, run. by rewrite Hs, Hnew. }
  destruct (registered_lookup s2' n (new_task s f i options now)) as [Hg2 Ho2].
  rewrite <- Hs2 in Hg2, Ho2. rewrite Hh2, <- Hh1 in Hg2, Ho2.
  assert (Hl : (l < length (heap s))%nat) by (by eapply lookup_lt_Some).
  assert (Hold : heap s2 !! l = Some o).
  { rewrite Hs2. simpl. rewrite Hh2, <- Hh1. by apply lookup_app_l_Some. }
  destruct (callback_resume_stops s2 n k o _ _ Hold Hcap Hg2 Ho2)
    as (s3&Hr&Hh3&Ht3&Hm3&Hn3).
  assert (Hhas : forall s', value (hasTask n) s' = Ok (JsMap.has (tasks s') n))
    by done.
  split_and!.
  - rewrite Hhas. f_equal. apply JsMapFacts.has_true. by eexists.
  - rewrite Hs2. simpl. rewrite Hn2, <- Hn1. apply lookup_insert_eq.
  - exists s3. split_and!; try done.
    + rewrite Hhas. f_equal. apply JsMapFacts.has_false. rewrite Ht3.
      apply JsMapFacts.get_delete_eq.
    + rewrite Hm3. simpl. apply lookup_delete_eq.
    + rewrite Hh3. simpl. rewrite list_lookup_insert_ne by lia. done.
    + rewrite Hh3. simpl. apply list_lookup_insert_eq. by eapply lookup_lt_Some.
Qed.

Lemma tick_in_flight_when_replaced_witness :
  let s := run (executeNow "ping" ReturnsVoid) sample in
  exists k s1, callback_begin "ping" (ReturnsPromise Resolves) s
               = (Ok (Some k), s1) /\ p_task k = 0%nat /\
    let s2 := run (schedule ping (Function 5%nat) (Unit minute) no_options 20
                            ReturnsVoid) s1 in
    value (hasTask "ping") s2 = Ok true /\
    timers s2 !! nextTimer s = Some ("ping", resolve (Unit minute)) /\
    exists s3, callback_resume "ping" k s2 = (Ok tt, s3) /\
      value (hasTask "ping") s3 = Ok false /\
      timers s3 !! nextTimer s = None /\
      heap s3 !! length (heap s)
      = Some (new_task s 5%nat (Unit minute) no_options 20) /\
      executionCount (new_task s 5%nat (Unit minute) no_options 20) = 0%N /\
      heap s3 !! 0%nat = Some (incr (incr sample_task)).
Proof.
  apply (tick_in_flight_when_replaced (run (executeNow "ping" ReturnsVoid) sample)
           "ping" 0%nat (incr sample_task) (ReturnsPromise Resolves) 5%nat
           (Unit minute) no_options 20 ReturnsVoid
           (wf_executeNow sample "ping" ReturnsVoid wf_sample)
           eq_refl eq_refl eq_refl eq_refl eq_refl).
Defined.

(** *** The name check *)

(** X12: [schedule] throws the name error exactly when the name is [null],
    [undefined], empty or made only of the white space that [trim] strips
    (the white-space and line-terminator code points of Unicode, among them
    U+00A0, U+2028, U+3000 and U+FEFF, and not only those of ASCII),
    whatever the other arguments are.  A name that passes is used as the key
    as it was given, not trimmed. *)
Theorem name_rejected_iff_blank s n func i options now out :
  valid s ->
  (value (schedule n func i options now out) s = Throw TaskNameRequired
   <-> match n with None => True | Some x => all_space x = true end) /\
  (forall x, n = Some x ->
     value (schedule n func i options now out) s = Ok tt ->
     is_Some (JsMap.get (tasks (run (schedule n func i options now out) s)) x) /\
     (trim x <> x ->
      JsMap.get (tasks (run (schedule n func i options now out) s)) (trim x)
      = JsMap.get (tasks s) (trim x))) /\
  (value (schedule n func i options now out) s = Throw TaskNameRequired
   <-> n = None \/
       exists cps, Forall (λ cp, cp ∈ white_space_code_points) cps /\
                   n = Some (utf8s cps)).
Proof.
  intros Hwf.
  destruct (schedule_rejects s n func i options now out) as (H1&H2&H3).
  assert (Hblank : name_missing n = true
                   <-> match n with None => True | Some x => all_space x = true end).
  { destruct n as [x|]; [by rewrite name_missing_all_space|done]. }
  assert (Hthrows : value (schedule n func i options now out) s = Throw TaskNameRequired
                    <-> match n with None => True | Some x => all_space x = true end);
    [|split; [done|split]]; cycle 2.
  { rewrite Hthrows. destruct n as [x|].
    - rewrite all_space_code_points. split.
      + intros (cps&Hall&->). right. by exists cps.
      + intros [|(cps&Hall&[= ->])]; [done|]. by exists cps.
    - split; [by left|done]. }
  - rewrite <- Hblank. unfold value. split.
    + intros Hthrow. destruct (name_missing n) eqn:Hn; [done|]. exfalso.
      destruct func as [f|]; [|by rewrite H2 in Hthrow].
      destruct (interval_rejected (resolve i)) eqn:Hi;
        [by rewrite H3 in Hthrow|].
      destruct n as [x|]; [|done].
      destruct (schedule_registers s x f i options now out Hwf Hn Hi)
        as (b&s1&s2&_&_&_&_&_&_&_&_&Hs&_).
      by rewrite Hs in Hthrow.
    + intros Hn. by rewrite H1.
  - intros x -> Hok.
    destruct (name_missing (Some x)) eqn:Hn;
      [unfold value in Hok; by rewrite H1 in Hok|].
    destruct func as [f|]; [|unfold value in Hok; by rewrite H2 in Hok].
    destruct (interval_rejected (resolve i)) eqn:Hi;
      [unfold value in Hok; by rewrite H3 in Hok|].
    destruct (schedule_registers s x f i options now out Hwf Hn Hi)
      as (b&s1&s2&_&_&(Ht2&_)&Ht1&_&_&_&_&Hs&_).
    unfold run. rewrite Hs. simpl. split.
    + rewrite JsMapFacts.get_set_eq. by eexists.
    + intros Hne. rewrite JsMapFacts.get_set_ne by done. rewrite <- Ht2, Ht1.
      by apply JsMapFacts.get_delete_ne.
Qed.

Lemma name_rejected_iff_blank_witness :
  value (schedule (Some (" " ++ utf8 160 ++ utf8 12288 ++ utf8 65279)%string)
                  (Function 0%nat) (Unit day) no_options 0 ReturnsVoid)
        new_scheduler = Throw TaskNameRequired /\
  is_Some (JsMap.get (tasks (run (schedule (Some " a ") (Function 0%nat) (Unit day)
                                           no_options 0 ReturnsVoid) new_scheduler))
                     " a ").
Proof.
  split.
  - destruct (name_rejected_iff_blank new_scheduler
                (Some (" " ++ utf8 160 ++ utf8 12288 ++ utf8 65279)%string)
                (Function 0%nat) (Unit day) no_options 0 ReturnsVoid
                (wf_valid _ wf_new_scheduler)) as (H&_).
    apply H. reflexivity.
  - destruct (name_rejected_iff_blank new_scheduler (Some " a ") (Function 0%nat)
                (Unit day) no_options 0 ReturnsVoid (wf_valid _ wf_new_scheduler))
      as (_&H&_).
    destruct (H " a " eq_refl eq_refl) as [H1 _]. exact H1.
Defined.

(** *** After [destroy] *)

(** X21: what [stopAll] and [destroy] do in every state the scheduler can
    reach, also one in which timers were leaked.  [stopAll] returns the
    number of registered tasks, which is what [taskCount] reported, and
    empties the registry; [destroy] does the same and prints one line.
    Afterwards [taskCount] is 0 and [getActiveTasks] is empty, the timer held
    by the object of each task that was registered is cleared and never fires
    again, a timer that no registered object held is left as it was, no task
    object is changed, and a timer that fires while nothing is registered
    runs nothing.  If every armed timer belonged to an entry, no timer is
    armed afterwards and none that was armed fires again. *)
Theorem destroy_clears_registered_timers s :
  valid s ->
  value stopAll s = Ok (JsMap.size (tasks s)) /\
  value stopAll s = value taskCount s /\
  tasks (run stopAll s) = [] /\
  (forall n, value (hasTask n) (run stopAll s) = Ok false) /\
  let s' := run destroy s in
  value destroy s = Ok tt /\
  same_store s' (run stopAll s) /\
  trace s' = trace (run stopAll s) ++ [ConsoleLog Destroyed] /\
  value taskCount s' = Ok 0%nat /\
  value getActiveTasks s' = Ok [] /\
  heap s' = heap s /\
  (forall n l o, JsMap.get (tasks s) n = Some l -> heap s !! l = Some o ->
     forall cs out, fire (timerId o) out (exec_all cs s') = None) /\
  (forall id,
     (forall n l o, JsMap.get (tasks s) n = Some l -> heap s !! l = Some o ->
        timerId o <> id) ->
     timers s' !! id = timers s !! id) /\
  (forall id out, fire id out s' = None \/ fire id out s' = Some (Ok tt, s')) /\
  (wf s ->
     timers s' = ∅ /\
     forall id, is_Some (timers s !! id) ->
       forall cs out, fire id out (exec_all cs s') = None).
Proof.
  intros Hv.
  destruct (stopAll_valid_spec s Hv) as (s1&H&Hv1&Ht1&Hh1&Hn1&Hown&Hsub&Hfree).
  assert (Hd : destroy s = (Ok tt, with_trace (λ t, t ++ [ConsoleLog Destroyed]) s1)).
  { unfold destroy. by step H. }
  assert (Hret : forall n l o, JsMap.get (tasks s) n = Some l -> heap s !! l = Some o ->
            retired (timerId o) (with_trace (λ t, t ++ [ConsoleLog Destroyed]) s1)).
  { intros n l o Hg Ho. split; simpl; [by eapply Hown|].
    destruct (valid_entry _ Hv _ _ Hg) as (o'&Ho'&Hto). rewrite Ho in Ho'.
    injection Ho' as <-. rewrite Hn1. apply (valid_fresh _ Hv). by eexists. }
  unfold value, run. rewrite H, Hd. simpl fst. simpl snd.
  split_and!; try done.
  - intros n. simpl. by rewrite Ht1.
  - simpl. by rewrite Ht1.
  - simpl. by rewrite Ht1.
  - intros n l o Hg Ho cs out. apply retired_never_fires. by eapply Hret.
  - intros id out. unfold fire. simpl timers.
    destruct (timers s1 !! id) as [[n ms]|]; [right|by left].
    f_equal. apply callback_absent. simpl. by rewrite Ht1.
  - intros Hwf.
    assert (Hm : timers s1 = ∅).
    { apply map_empty. intros id.
      destruct (timers s1 !! id) as [[n ms]|] eqn:Hid; [|done].
      pose proof (Hsub _ _ Hid) as Hs.
      destruct (wf_timer _ Hwf _ _ _ Hs) as (l&o&Hg&Ho&<-).
      by rewrite (Hown _ _ _ Hg Ho) in Hid. }
    split; [done|]. intros id Hid cs out. apply retired_never_fires.
    split; simpl; [by rewrite Hm|]. rewrite Hn1. by apply (valid_fresh _ Hv).
Qed.

Lemma destroy_clears_registered_timers_witness :
  value stopAll leaked = Ok 1%nat /\
  value getActiveTasks (run destroy leaked) = Ok [] /\
  fire 1%nat ReturnsVoid (run destroy leaked) = None /\
  timers (run destroy leaked) !! 0%nat = timers leaked !! 0%nat.
Proof.
  destruct (destroy_clears_registered_timers leaked
              (reachable_valid _ (ex_intro _ reentrant_schedule eq_refl)))
    as (H1&_&_&_&_&_&_&_&H2&_&H3&H4&_).
  split_and!; [exact H1|exact H2| |].
  - apply (H3 "ping" 1%nat
              {| timerId := 1; func := 0%nat; interval := lit 1000; startTime := 2;
                 executionCount := 0; maxExecutions := None |}
              eq_refl eq_refl [] ReturnsVoid).
  - apply H4. intros n l o Hg Ho. simpl in Hg.
    destruct (decide ("ping" = n)) as [<-|Hne]; [|done].
    injection Hg as <-. injection Ho as <-. simpl. lia.
Defined.

(** X13: [destroy] does not close the scheduler.  A later [schedule] that
    passes validation registers its task: it is the only task, its timer is
    newly armed, on a handle that was not in use before, and fires its
    callback; the armed timers are that one and those that [destroy] left
    armed, which are none if every timer belonged to an entry before.  This
    is for a call whose action, if run at once, does not call the scheduler;
    if it does, whatever it calls, the task is still registered with
    executionCount 0 and its timer is armed on a handle that was not armed
    before.  A second [stopAll] finds nothing to stop. *)
Theorem scheduler_usable_after_destroy s n f i options now out :
  valid s -> name_missing (Some n) = false -> interval_rejected (resolve i) = false ->
  let s1 := run destroy s in
  let s2 := run (schedule (Some n) (Function f) i options now out) s1 in
  value stopAll s1 = Ok 0%nat /\
  value (schedule (Some n) (Function f) i options now out) s1 = Ok tt /\
  value getActiveTasks s2 = Ok [n] /\
  value taskCount s2 = Ok 1%nat /\
  timers s2 = <[nextTimer s1 := (n, resolve i)]> (timers s1) /\
  timers s1 !! nextTimer s1 = None /\
  (wf s -> timers s2 = {[ nextTimer s1 := (n, resolve i) ]}) /\
  (forall id, is_Some (timers s !! id) -> id <> nextTimer s1) /\
  (forall out', fire (nextTimer s1) out' s2 = Some (callback n out' s2)) /\
  (forall cs,
     let m := exec_all cs (run (schedule_begin (Some n) (Function f) i options out) s1) in
     let s3 := run (schedule_finish (registration n f i options) now) m in
     value (hasTask n) s3 = Ok true /\
     value (getTask n) s3
     = Ok (Some {| name := n; info_interval := resolve i; info_startTime := now;
                   info_executionCount := 0; isActive := true |}) /\
     timers m !! nextTimer m = None /\
     timers s3 !! nextTimer m = Some (n, resolve i) /\
     (forall out', fire (nextTimer m) out' s3 = Some (callback n out' s3))).
Proof.
  intros Hv Hname Hint s1 s2.
  destruct (stopAll_valid_spec s Hv) as (s0&H0&Hv0&Ht0&_&Hn0&_&Hsub&_).
  assert (Hs1 : s1 = with_trace (λ t, t ++ [ConsoleLog Destroyed]) s0).
  { unfold s1, run, destroy. by step H0. }
  assert (Hv1 : valid s1) by (by apply preserves_valid_destroy).
  assert (Ht1 : tasks s1 = []) by (by rewrite Hs1).
  assert (Hn1 : nextTimer s1 = nextTimer s) by (by rewrite Hs1).
  assert (Hfresh : forall m, valid m -> timers m !! nextTimer m = None).
  { intros m Hm. destruct (timers m !! nextTimer m) eqn:Hx; [|done].
    assert (nextTimer m < nextTimer m)%nat by (apply (valid_fresh _ Hm); eauto).
    lia. }
  destruct (schedule_registers s1 n f i options now out Hv1 Hname Hint)
    as (b&s1'&s2'&Hstop&_&Hst&_&_&_&_&Hbegin&Hs&_).
  rewrite stop_absent in Hstop by (by rewrite Ht1). injection Hstop as _ <-.
  destruct Hst as (Ht2&Hh2&Hm2&Hn2).
  assert (Hs2 : s2 = registered s2' n (new_task s1 f i options now)).
  { unfold s2, run. by rewrite Hs. }
  assert (Htim : timers s2 = <[nextTimer s1 := (n, resolve i)]> (timers s1)).
  { rewrite Hs2. simpl. by rewrite <- Hm2, <- Hn2. }
  split_and!.
  - destruct (stopAll_valid_spec s1 Hv1) as (s'&H'&_). unfold value.
    rewrite H'. simpl. by rewrite Ht1.
  - unfold value. by rewrite Hs.
  - rewrite Hs2. unfold value, getActiveTasks. js. by rewrite <- Ht2, Ht1.
  - rewrite Hs2. unfold value, taskCount. js. by rewrite <- Ht2, Ht1.
  - done.
  - by apply Hfresh.
  - intros Hwf. rewrite Htim.
    assert (Hm1 : timers s1 = ∅).
    { apply wf_no_tasks_no_timers; [by apply wf_destroy|done]. }
    by rewrite Hm1, insert_empty.
  - intros id Hid. apply (valid_fresh _ Hv) in Hid. lia.
  - intros out'. unfold fire. rewrite Htim. by rewrite lookup_insert_eq.
  - intros cs. cbn zeta.
    replace (run (schedule_begin (Some n) (Function f) i options out) s1) with s2'
      by (unfold run; by rewrite Hbegin).
    set (m := exec_all cs s2').
    set (s3 := run (schedule_finish (registration n f i options) now) m).
    assert (Hvm : valid m).
    { apply valid_exec_all. by apply (same_store_valid s1). }
    set (o3 := {| timerId := nextTimer m; func := f; interval := resolve i;
                  startTime := now; executionCount := 0;
                  maxExecutions := opt_maxExecutions options |}).
    assert (Hs3 : s3 = registered m n o3) by reflexivity.
    destruct (registered_lookup m n o3) as [Hg3 Ho3]. rewrite <- Hs3 in Hg3, Ho3.
    assert (Ht3 : timers s3 !! nextTimer m = Some (n, resolve i)).
    { rewrite Hs3. simpl. apply lookup_insert_eq. }
    split_and!.
    + unfold value. rewrite hasTask_spec. simpl. f_equal.
      apply JsMapFacts.has_true. by eexists.
    + unfold value. by rewrite (getTask_present _ _ _ _ Hg3 Ho3).
    + by apply Hfresh.
    + done.
    + intros out'. unfold fire. by rewrite Ht3.
Qed.

Lemma scheduler_usable_after_destroy_witness :
  let s1 := run destroy leaked in
  let s2 := run (schedule (Some "job") (Function 3%nat) (Unit hour) no_options 30
                          ReturnsVoid) s1 in
  value stopAll s1 = Ok 0%nat /\
  value getActiveTasks s2 = Ok ["job"] /\
  timers s2 = <[nextTimer s1 := ("job", resolve (Unit hour))]> (timers s1).
Proof.
  destruct (scheduler_usable_after_destroy leaked "job" 3%nat (Unit hour) no_options 30
              ReturnsVoid (reachable_valid _ (ex_intro _ reentrant_schedule eq_refl))
              eq_refl eq_refl) as (H1&_&H2&_&H3&_).
  split; [exact H1|]. split; [exact H2|exact H3].
Defined.

(** X20: an action that registers its own name while [schedule] runs it
    (with [runImmediately]) leaks a timer.  The timer that the action armed
    stays armed when the outer call stores its own object over the one that
    the action stored: afterwards the name has one entry, that of the outer
    call, and two armed timers; no registered object holds the handle of the
    action's timer, so neither [stop] nor [destroy] clears it, and both
    timers run the registered task when they fire. *)
Theorem reentrant_schedule_leaks_timer s n f i options out g j options' now' out' now :
  valid s -> name_missing (Some n) = false ->
  interval_rejected (resolve i) = false -> interval_rejected (resolve j) = false ->
  runImmediately options = true ->
  let s1 := run (schedule_begin (Some n) (Function f) i options out) s in
  let s2 := run (schedule (Some n) (Function g) j options' now' out') s1 in
  let s3 := run (schedule_finish (registration n f i options) now) s2 in
  let inner := nextTimer s in
  let outer := S (nextTimer s) in
  s3 = exec_all [ ScheduleBegin (Some n) (Function f) i options out;
                  Schedule (Some n) (Function g) j options' now' out';
                  ScheduleFinish (Some n) (Function f) i options now ] s /\
  trace s1 = trace (run (stop n) s) ++ [Invoked f]
               ++ match out with ThrowsSync => [ConsoleError (ActionError f)] | _ => [] end /\
  timers s3 !! inner = Some (n, resolve j) /\
  timers s3 !! outer = Some (n, resolve i) /\
  JsMap.bindings (tasks s3) n = 1%nat /\
  value (getTask n) s3
  = Ok (Some {| name := n; info_interval := resolve i; info_startTime := now;
                info_executionCount := 0; isActive := true |}) /\
  (exists l o, JsMap.get (tasks s3) n = Some l /\ heap s3 !! l = Some o /\
               timerId o = outer /\ func o = f) /\
  (forall n' l o, JsMap.get (tasks s3) n' = Some l -> heap s3 !! l = Some o ->
     timerId o <> inner) /\
  ~ wf s3 /\
  (forall out1, fire inner out1 s3 = Some (callback n out1 s3) /\
                fire outer out1 s3 = Some (callback n out1 s3)) /\
  value (stop n) s3 = Ok true /\
  timers (run (stop n) s3) !! inner = Some (n, resolve j) /\
  timers (run (stop n) s3) !! outer = None /\
  value taskCount (run destroy s3) = Ok 0%nat /\
  timers (run destroy s3) !! inner = Some (n, resolve j).
Proof.
  intros Hv Hname Hi Hj Himm s1 s2 s3 inner outer.
  destruct (schedule_registers s n f i options now out Hv Hname Hi)
    as (b&sa&sb&Hstop&Hva&Hsab&Hta&Hha&Hna&Htrb&Hbegin&_&_).
  assert (Hs1 : s1 = sb) by (unfold s1, run; by rewrite Hbegin).
  assert (Hv1 : valid s1) by (rewrite Hs1; by apply (same_store_valid sa)).
  assert (Hn1 : nextTimer s1 = nextTimer s).
  { rewrite Hs1. destruct Hsab as (_&_&_&<-). done. }
  assert (Hg1 : JsMap.get (tasks s1) n = None).
  { rewrite Hs1. destruct Hsab as (<-&_). rewrite Hta.
    apply JsMapFacts.get_delete_eq. }
  destruct (schedule_registers s1 n g j options' now' out' Hv1 Hname Hj)
    as (b'&sc&sd&Hstop'&_&Hscd&_&_&_&_&_&Hsch&Hv2).
  rewrite (stop_absent _ _ Hg1) in Hstop'. injection Hstop' as _ <-.
  destruct Hscd as (Htd&Hhd&Hmd&Hnd).
  assert (Hs2 : s2 = registered sd n (new_task s1 g j options' now')).
  { unfold s2, run. by rewrite Hsch. }
  rewrite <- Hs2 in Hv2.
  assert (Hn2 : nextTimer s2 = outer).
  { rewrite Hs2. simpl. unfold outer. by rewrite <- Hnd, Hn1. }
  assert (Hm2 : timers s2 !! inner = Some (n, resolve j)).
  { rewrite Hs2. simpl. rewrite <- Hnd, Hn1. apply lookup_insert_eq. }
  set (o3 := {| timerId := nextTimer s2; func := f; interval := resolve i;
                startTime := now; executionCount := 0;
                maxExecutions := opt_maxExecutions options |}).
  assert (Hs3 : s3 = registered s2 n o3) by reflexivity.
  assert (Hv3 : valid s3) by (rewrite Hs3; by apply valid_registered).
  destruct (registered_lookup s2 n o3) as [Hg3 Ho3]. rewrite <- Hs3 in Hg3, Ho3.
  assert (Hin : timers s3 !! inner = Some (n, resolve j)).
  { rewrite Hs3. simpl. rewrite lookup_insert_ne by (rewrite Hn2; unfold outer, inner; lia).
    done. }
  assert (Hout : timers s3 !! outer = Some (n, resolve i)).
  { rewrite Hs3. simpl. rewrite Hn2. apply lookup_insert_eq. }
  assert (Hfree : forall n' l o, JsMap.get (tasks s3) n' = Some l ->
            heap s3 !! l = Some o -> timerId o <> inner).
  { intros n' l o Hg Ho. destruct (decide (n = n')) as [<-|Hne].
    - rewrite Hg3 in Hg. injection Hg as <-. rewrite Ho3 in Ho. injection Ho as <-.
      simpl. rewrite Hn2. unfold outer, inner. lia.
    - rewrite Hs3 in Hg, Ho. simpl in Hg, Ho.
      rewrite JsMapFacts.get_set_ne in Hg by done.
      destruct (valid_entry _ Hv2 _ _ Hg) as (o'&Ho'&Hto).
      rewrite (lookup_app_l_Some _ _ _ _ Ho') in Ho. injection Ho as <-.
      intros Heq. rewrite Heq, Hm2 in Hto. congruence. }
  split_and!.
  - simpl. fold s1. fold s2. by rewrite (validate_ok _ _ _ _ Hname Hi).
  - rewrite Hs1, Htrb. unfold run. rewrite Hstop. simpl.
    unfold immediate_events. by rewrite Himm.
  - done.
  - done.
  - apply JsMapFacts.bindings_present; [apply (valid_nodup _ Hv3)|by eexists].
  - unfold value. by rewrite (getTask_present _ _ _ _ Hg3 Ho3).
  - exists (length (heap s2)), o3. by split_and!.
  - done.
  - intros Hwf. destruct (wf_timer _ Hwf _ _ _ Hin) as (l&o&Hg&Ho&Hid).
    by apply (Hfree _ _ _ Hg Ho).
  - intros out1. unfold fire. by rewrite Hin, Hout.
  - unfold value. by rewrite (stop_present _ _ _ _ Hg3 Ho3).
  - unfold run. rewrite (stop_present _ _ _ _ Hg3 Ho3). simpl.
    rewrite lookup_delete_ne by (rewrite Hn2; unfold outer, inner; lia). done.
  - unfold run. rewrite (stop_present _ _ _ _ Hg3 Ho3). simpl.
    rewrite Hn2. apply lookup_delete_eq.
  - destruct (stopAll_valid_spec s3 Hv3) as (s4&H4&_&Ht4&_).
    assert (Hd : destroy s3
                 = (Ok tt, with_trace (λ t, t ++ [ConsoleLog Destroyed]) s4))
      by (unfold destroy; by step H4).
    unfold value, run. rewrite Hd. simpl. by rewrite Ht4.
  - destruct (stopAll_valid_spec s3 Hv3) as (s4&H4&_&_&_&_&_&_&Hkeep).
    assert (Hd : destroy s3
                 = (Ok tt, with_trace (λ t, t ++ [ConsoleLog Destroyed]) s4))
      by (unfold destroy; by step H4).
    unfold run. rewrite Hd. simpl. rewrite Hkeep; [done|].
    intros n' l o Hg Ho. by apply (Hfree _ _ _ Hg Ho).
Qed.

Lemma reentrant_schedule_leaks_timer_witness :
  leaked = exec_all reentrant_schedule new_scheduler /\
  timers leaked !! 0%nat = Some ("ping", lit 500) /\
  timers leaked !! 1%nat = Some ("ping", lit 1000) /\
  timers (run destroy leaked) !! 0%nat = Some ("ping", lit 500).
Proof.
  destruct (reentrant_schedule_leaks_timer new_scheduler "ping" 0%nat (Unit second)
              immediately ReturnsVoid 1%nat (Millis (lit 500)) no_options 1 ReturnsVoid 2
              (wf_valid _ wf_new_scheduler) eq_refl eq_refl eq_refl eq_refl)
    as (H1&_&H2&H3&_&_&_&_&_&_&_&_&_&_&H4).
  split_and!; [exact H1|exact H2|exact H3|exact H4].
Defined.

(** *** What stopping never does *)

Lemma appends_ret {A} P (a : A) : appends P (mret a).
Proof. intros s. exists []. by rewrite app_nil_r. Qed.

Lemma appends_bind {A B} P (m : Js A) (k : A -> Js B) :
  appends P m -> (forall a, appends P (k a)) -> appends P (m ≫= k).
Proof.
  intros Hm Hk s. destruct (Hm s) as (t1&Ht1&HP1). unfold mbind, Js_bind.
  destruct (m s) as [[a|e] s1]; simpl in *; [|by exists t1].
  destruct (Hk a s1) as (t2&Ht2&HP2). exists (t1 ++ t2).
  rewrite Ht2, Ht1, app_assoc. split; [done|]. by apply Forall_app.
Qed.

Lemma appends_same_trace {A} P (m : Js A) :
  (forall s, trace (m s).2 = trace s) -> appends P m.
Proof. intros H s. exists []. by rewrite H, app_nil_r. Qed.

Lemma appends_emit (P : event -> Prop) e : P e -> appends P (emit e).
Proof. intros He s. exists [e]. split; [done|]. by apply Forall_singleton. Qed.

Lemma appends_for_each {A} P (l : list A) body :
  (forall x, appends P (body x)) -> appends P (for_each l body).
Proof.
  intros Hb. induction l as [|x l IH]; simpl; [apply appends_ret|].
  apply appends_bind; auto.
Qed.

Lemma appends_stop n : appends quiet (stop n).
Proof.
  unfold stop. apply appends_bind; [by apply appends_same_trace|intros s].
  destruct (JsMap.get (tasks s) n) as [l|]; [|apply appends_ret].
  apply appends_bind.
  { apply appends_same_trace. intros s'. unfold read. by destruct (heap s' !! l). }
  intros o. apply appends_bind.
  { intros s'. exists [ClearInterval (timerId o)]. split; [done|].
    by apply Forall_singleton. }
  intros _. apply appends_bind; [by apply appends_same_trace|intros _].
  apply appends_bind; [by apply appends_emit|intros _; apply appends_ret].
Qed.

Lemma appends_stopAll : appends quiet stopAll.
Proof.
  unfold stopAll. apply appends_bind; [by apply appends_same_trace|intros s].
  apply appends_bind; [|intros _; apply appends_ret].
  apply appends_for_each. intros n.
  apply appends_bind; [apply appends_stop|intros _; apply appends_ret].
Qed.

(** X14: [stop], [stopAll] and [destroy] never run an action, never arm a
    timer and never report an error: all they add to what the host sees are
    calls of [clearInterval] and lines on [console.log], also when they
    fail. *)
Theorem stopping_only_clears_and_logs s n :
  (exists t, trace (run (stop n) s) = trace s ++ t /\ Forall quiet t) /\
  (exists t, trace (run stopAll s) = trace s ++ t /\ Forall quiet t) /\
  (exists t, trace (run destroy s) = trace s ++ t /\ Forall quiet t) /\
  (forall e, quiet e ->
     (forall f, e <> Invoked f) /\ (forall id n' ms, e <> SetInterval id n' ms) /\
     (forall x, e <> ConsoleError x)).
Proof.
  split_and!.
  - apply appends_stop.
  - apply appends_stopAll.
  - apply (appends_bind quiet stopAll); [apply appends_stopAll|intros _].
    by apply appends_emit.
  - intros e He. by destruct e.
Qed.

(** *** [executeNow] while other things happen *)

(** X17: once [executeNow] has found the task, it resolves to [true]
    whatever is called or fires while the action runs, also if the task is
    stopped or replaced in between.  The object it found is still there,
    changed at most in its count, and the resumption adds one to that count
    and touches neither the registry nor the timers. *)
Theorem executeNow_completes_under_interleaving s n l o out cs :
  JsMap.get (tasks s) n = Some l -> heap s !! l = Some o ->
  exists k s1, executeNow_begin n out s = (Ok (inr k), s1) /\ p_task k = l /\
    let s2 := exec_all cs s1 in
    exists o' s3, heap s2 !! l = Some o' /\ evolves o o' /\
      executeNow_resume k s2 = (Ok true, s3) /\
      heap s3 = <[l := incr o']> (heap s2) /\
      tasks s3 = tasks s2 /\ timers s3 = timers s2.
Proof.
  intros Hg Ho.
  destruct (executeTask_begin_spec (func o) out s) as (r&s1&He&Hs1&_).
  set (k := {| p_task := l; p_func := func o; p_result := r |}).
  exists k, s1. split_and!; try done.
  { unfold executeNow_begin. erewrite bind_ok; [|reflexivity]. rewrite Hg.
    erewrite bind_ok; [|by unfold read; rewrite Ho]. by step He. }
  intros s2. destruct Hs1 as (_&Hh1&_).
  destruct (object_kept_exec_all l o cs s1) as (o'&Ho'&Hev).
  { exists o. split; [by rewrite <- Hh1|apply evolves_refl]. }
  destruct (executeNow_resume_spec s2 k o' Ho') as (s3&Hr&Hh3&Ht3&Hm3&_).
  by exists o', s3.
Qed.

Lemma executeNow_completes_under_interleaving_witness :
  exists k s1, executeNow_begin "ping" (ReturnsPromise Rejects) sample
               = (Ok (inr k), s1) /\ p_task k = 0%nat /\
    let s2 := exec_all [Stop "ping";
                        Schedule ping (Function 9%nat) (Unit week) no_options 2
                                 ReturnsVoid] s1 in
    exists o' s3, heap s2 !! 0%nat = Some o' /\ evolves sample_task o' /\
      executeNow_resume k s2 = (Ok true, s3) /\
      heap s3 = <[0%nat := incr o']> (heap s2) /\
      tasks s3 = tasks s2 /\ timers s3 = timers s2.
Proof.
  destruct sample_lookup as [Hg Ho].
  apply (executeNow_completes_under_interleaving sample "ping" 0%nat sample_task
           (ReturnsPromise Rejects) _ Hg Ho).
Defined.

(** *** Edges of the cap *)

(** X18: a negative [maxExecutions] is truthy and every count is at least
    as large, so the first tick of such a task runs the action once and then
    stops the task. *)
Theorem negative_cap_stops_at_first_tick s n l o k out :
  wf s -> JsMap.get (tasks s) n = Some l -> heap s !! l = Some o ->
  maxExecutions o = Some k -> k < 0 ->
  exists s', fire (timerId o) out s = Some (Ok tt, s') /\
    trace s' = trace s ++ run_events (func o) out
                 ++ [ClearInterval (timerId o); ConsoleLog (Stopped n)] /\
    heap s' !! l = Some (incr o) /\
    value (hasTask n) s' = Ok false /\ timers s' !! timerId o = None.
Proof.
  intros Hwf Hg Ho Hmax Hk.
  destruct (wf_entry _ Hwf _ _ Hg) as (o0&Ho0&Hto). rewrite Ho in Ho0.
  injection Ho0 as <-.
  destruct (callback_spec s n l o out Hwf Hg Ho) as (s'&H&_&Hh&_&Ht&Hm&Htr).
  assert (Hcap : cap_reached (incr o) = true).
  { unfold cap_reached. simpl. rewrite Hmax. apply andb_true_iff. split.
    - apply negb_true_iff, Z.eqb_neq. lia.
    - apply Z.leb_le. lia. }
  rewrite Hcap in Ht, Hm, Htr.
  exists s'. unfold fire. rewrite Hto, H. split_and!; try done.
  - rewrite Hh. apply list_lookup_insert_eq. by eapply lookup_lt_Some.
  - unfold value. rewrite hasTask_spec. simpl. f_equal.
    apply JsMapFacts.has_false. rewrite Ht. apply JsMapFacts.get_delete_eq.
  - rewrite Hm. apply lookup_delete_eq.
Qed.

Lemma negative_cap_stops_at_first_tick_witness :
  let s := run (schedule ping (Function 0%nat) (Unit second) (capped (-3)) 1 ReturnsVoid)
               new_scheduler in
  exists s', fire 0%nat ReturnsVoid s = Some (Ok tt, s') /\
    trace s' = trace s ++ run_events 0%nat ReturnsVoid
                 ++ [ClearInterval 0%nat; ConsoleLog (Stopped "ping")] /\
    heap s' !! 0%nat
    = Some (incr {| timerId := 0; func := 0%nat; interval := lit 1000; startTime := 1;
                    executionCount := 0; maxExecutions := Some (-3) |}) /\
    value (hasTask "ping") s' = Ok false /\ timers s' !! 0%nat = None.
Proof.
  apply (negative_cap_stops_at_first_tick
           (run (schedule ping (Function 0%nat) (Unit second) (capped (-3)) 1 ReturnsVoid)
                new_scheduler)
           "ping" 0%nat
           {| timerId := 0; func := 0%nat; interval := lit 1000; startTime := 1;
              executionCount := 0; maxExecutions := Some (-3) |}
           (-3) ReturnsVoid
           (wf_schedule new_scheduler ping (Function 0%nat) (Unit second) (capped (-3)) 1
                        ReturnsVoid wf_new_scheduler)
           eq_refl eq_refl eq_refl eq_refl).
Defined.

(** X19: nothing keeps two ticks of one task apart.  When a second tick
    fires while the first is still waiting for the action, the action is
    invoked twice and both executions count, each checking the cap only after
    its own increment: a task one short of its cap is run twice and its
    object ends one above the cap. *)
Theorem overlapping_ticks_both_run s n l o out1 out2 :
  wf s -> JsMap.get (tasks s) n = Some l -> heap s !! l = Some o ->
  exists k1 s1 k2 s2,
    callback_begin n out1 s = (Ok (Some k1), s1) /\
    callback_begin n out2 s1 = (Ok (Some k2), s2) /\
    p_task k1 = l /\ p_task k2 = l /\
    (exists e1 e2, trace s2 = trace s ++ Invoked (func o) :: e1
                                       ++ Invoked (func o) :: e2) /\
    exists s3 s4,
      callback_resume n k1 s2 = (Ok tt, s3) /\
      callback_resume n k2 s3 = (Ok tt, s4) /\
      heap s4 = <[l := incr (incr o)]> (heap s) /\
      (cap_reached (incr o) = true -> JsMap.get (tasks s4) n = None).
Proof.
  intros Hwf Hg Ho.
  destruct (executeTask_begin_spec (func o) out1 s) as (r1&s1&He1&Hs1&_&Htr1).
  assert (Hwf1 : wf s1) by (by eapply same_store_wf).
  destruct Hs1 as (Ht1&Hh1&Hm1&Hn1).
  destruct (executeTask_begin_spec (func o) out2 s1) as (r2&s2&He2&Hs2&_&Htr2).
  assert (Hwf2 : wf s2) by (by eapply same_store_wf).
  destruct Hs2 as (Ht2&Hh2&Hm2&Hn2).
  set (k1 := {| p_task := l; p_func := func o; p_result := r1 |}).
  set (k2 := {| p_task := l; p_func := func o; p_result := r2 |}).
  exists k1, s1, k2, s2.
  assert (Hg1 : JsMap.get (tasks s1) n = Some l) by (by rewrite <- Ht1).
  assert (Ho1 : heap s1 !! l = Some o) by (by rewrite <- Hh1).
  assert (Ho2 : heap s2 !! p_task k1 = Some o) by (simpl; by rewrite <- Hh2).
  destruct (callback_resume_spec s2 n k1 o Hwf2 Ho2) as (s3&Hr3&Hwf3&Hh3&_&Ht3&_).
  assert (Ho3 : heap s3 !! p_task k2 = Some (incr o)).
  { rewrite Hh3. apply list_lookup_insert_eq. by eapply lookup_lt_Some. }
  destruct (callback_resume_spec s3 n k2 (incr o) Hwf3 Ho3)
    as (s4&Hr4&_&Hh4&_&Ht4&_).
  split_and!; try done.
  - unfold callback_begin. erewrite bind_ok; [|reflexivity]. rewrite Hg.
    erewrite bind_ok; [|by unfold read; rewrite Ho]. by step He1.
  - unfold callback_begin. erewrite bind_ok; [|reflexivity]. rewrite Hg1.
    erewrite bind_ok; [|by unfold read; rewrite Ho1]. by step He2.
  - eexists _, _. rewrite Htr2, Htr1. by rewrite <- app_assoc.
  - exists s3, s4. split_and!; try done.
    + rewrite Hh4, Hh3. simpl. by rewrite list_insert_insert_eq, <- Hh2, <- Hh1.
    + intros Hcap. rewrite Hcap in Ht3. rewrite Ht4.
      destruct (cap_reached (incr (incr o))); rewrite ?Ht3;
        apply JsMapFacts.get_delete_eq.
Qed.

Lemma overlapping_ticks_both_run_witness :
  let s := run (executeNow "ping" ReturnsVoid) sample in
  exists k1 s1 k2 s2,
    callback_begin "ping" (ReturnsPromise Resolves) s = (Ok (Some k1), s1) /\
    callback_begin "ping" ReturnsVoid s1 = (Ok (Some k2), s2) /\
    p_task k1 = 0%nat /\ p_task k2 = 0%nat /\
    (exists e1 e2, trace s2 = trace s ++ Invoked 0%nat :: e1
                                       ++ Invoked 0%nat :: e2) /\
    exists s3 s4,
      callback_resume "ping" k1 s2 = (Ok tt, s3) /\
      callback_resume "ping" k2 s3 = (Ok tt, s4) /\
      heap s4 = <[0%nat := incr (incr (incr sample_task))]> (heap s) /\
      (cap_reached (incr (incr sample_task)) = true ->
       JsMap.get (tasks s4) "ping" = None).
Proof.
  apply (overlapping_ticks_both_run (run (executeNow "ping" ReturnsVoid) sample)
           "ping" 0%nat (incr sample_task) (ReturnsPromise Resolves) ReturnsVoid
           (wf_executeNow sample "ping" ReturnsVoid wf_sample) eq_refl eq_refl).
Defined.
